(** * Name registry query and export RPCs (src/rpc/names.cpp)

    A shallow embedding of the read-path RPCs of [rpc/names.cpp]
    ([name_show], [name_history], [name_scan], [name_export]) together with
    the helpers they share ([EncodingFromOptionsJson], [getNameInfo],
    [addExpirationInfo], [pushTimestampOfDataTx], ...).

    C++ [int] is a 32-bit integer kept in [Z] with its wrap-around written
    out; exceptions are an explicit error type; the log, the iterator reads
    and the files written are threaded through a small state-and-error
    monad. *)

From Stdlib Require Import ZArith List String Ascii Bool Lia DecimalString.
Import ListNotations.

Local Open Scope string_scope.
Local Open Scope list_scope.
Local Open Scope Z_scope.

Infix "^^" := String.append (at level 60, right associativity).

(** ** Machine integers *)

Definition INT_MIN : Z := - 2 ^ 31.
Definition INT_MAX : Z := 2 ^ 31 - 1.

Definition int_range (z : Z) : Prop := INT_MIN <= z <= INT_MAX.

Definition in_int (z : Z) : bool := (INT_MIN <=? z) && (z <=? INT_MAX).

(** Two's complement wrap-around of a mathematical integer into [int]. *)
Definition wrap_int (z : Z) : Z := (z + 2 ^ 31) mod 2 ^ 32 - 2 ^ 31.

Definition int_add (a b : Z) : Z := wrap_int (a + b).
Definition int_sub (a b : Z) : Z := wrap_int (a - b).

(** Decimal rendering of an integer, as [operator<<] and [%d] print it. *)
Definition itostr (z : Z) : string := NilZero.string_of_int (Z.to_int z).

(** ** Byte strings, scripts, hashes *)

(** [valtype] is [std::vector<unsigned char>]; a byte string. *)
Definition valtype := string.
Definition CScript := string.
Definition uint256 := N.

Definition IsNull (h : uint256) : bool := N.eqb h 0.

Record COutPoint := mkOutPoint { hash : uint256; n : Z }.

(** The committed state of a name, and one entry of its history. *)
Record CNameData := mkNameData {
  getValue : valtype;
  getHeight : Z;
  getUpdateOutpoint : COutPoint;
  getAddress : CScript
}.

Record CTransaction := mkTx { GetHash : uint256 }.

Record CBlockIndex := mkBlockIndex {
  nHeight : Z;
  GetBlockTime : Z;
  in_active_chain : bool
}.

Inductive NameEncoding := ASCII | UTF8 | HEX.

(** Compiled regular expressions: default constructed, or compiled from a
    pattern. *)
Inductive sregex := sregex_default | sregex_of (pattern : string).

(** ** JSON values *)

(** Modelled from the spec: the [UniValue] class (src/univalue) is not among
    the sources.  A JSON value is null, an object (an ordered list of
    key/value pairs), an array, a string, a number or a boolean.  Numbers
    are the integers; [get_int] accepts those that fit an [int]. *)
#[warnings="-register-all"]
Inductive UniValue :=
| VNULL
| VOBJ (kvs : list (string * UniValue))
| VARR (vs : list UniValue)
| VSTR (s : string)
| VNUM (z : Z)
| VBOOL (b : bool).

Inductive VType := TNULL | TOBJ | TARR | TSTR | TNUM | TBOOL.

Definition VType_eqb (a b : VType) : bool :=
  match a, b with
  | TNULL, TNULL | TOBJ, TOBJ | TARR, TARR
  | TSTR, TSTR | TNUM, TNUM | TBOOL, TBOOL => true
  | _, _ => false
  end.

Definition type (v : UniValue) : VType :=
  match v with
  | VNULL => TNULL
  | VOBJ _ => TOBJ
  | VARR _ => TARR
  | VSTR _ => TSTR
  | VNUM _ => TNUM
  | VBOOL _ => TBOOL
  end.

Definition isNull (v : UniValue) : bool :=
  match v with VNULL => true | _ => false end.

Definition uvTypeName (t : VType) : string :=
  match t with
  | TNULL => "null"
  | TOBJ => "object"
  | TARR => "array"
  | TSTR => "string"
  | TNUM => "number"
  | TBOOL => "bool"
  end.

(** [findKey]: the value of the first pair with the given key. *)
Fixpoint findKey (kvs : list (string * UniValue)) (key : string)
  : option UniValue :=
  match kvs with
  | [] => None
  | (k, v) :: rest => if String.eqb k key then Some v else findKey rest key
  end.

(** [operator[]] on a key, and [find_value]: the null value when the key is
    absent or the value is no object. *)
Definition find_value (o : UniValue) (key : string) : UniValue :=
  match o with
  | VOBJ kvs => match findKey kvs key with Some v => v | None => VNULL end
  | _ => VNULL
  end.

Definition exists_ (o : UniValue) (key : string) : bool :=
  match o with
  | VOBJ kvs => match findKey kvs key with Some _ => true | None => false end
  | _ => false
  end.

Definition getKeys (o : UniValue) : list string :=
  match o with
  | VOBJ kvs => map fst kvs
  | _ => []
  end.

Fixpoint replaceKey (kvs : list (string * UniValue)) (key : string)
  (val : UniValue) : list (string * UniValue) :=
  match kvs with
  | [] => [(key, val)]
  | (k, v) :: rest =>
      if String.eqb k key then (k, val) :: rest
      else (k, v) :: replaceKey rest key val
  end.

(** [pushKV]: overwrite the first pair with this key, or append a new pair;
    no effect on a value that is no object. *)
Definition pushKV (o : UniValue) (key : string) (val : UniValue) : UniValue :=
  match o with
  | VOBJ kvs => VOBJ (replaceKey kvs key val)
  | _ => o
  end.

Definition push_back (a : UniValue) (val : UniValue) : UniValue :=
  match a with
  | VARR vs => VARR (vs ++ [val])
  | _ => a
  end.

(** ** Errors *)

Inductive RPCErrorCode :=
| RPC_MISC_ERROR
| RPC_TYPE_ERROR
| RPC_INVALID_ADDRESS_OR_KEY
| RPC_INVALID_PARAMETER
| RPC_WALLET_ERROR
| RPC_CLIENT_IN_INITIAL_DOWNLOAD
| RPC_NAME_INVALID_ENCODING.

(** The exceptions that leave an RPC handler: [JSONRPCError] objects,
    [std::runtime_error], and the error of the regular expression
    library. *)
Inductive Exception :=
| JSONRPCError (code : RPCErrorCode) (message : string)
| runtime_error (what : string)
| regex_error (pattern : string).

Definition Result (A : Type) : Type := Exception + A.

Definition get_str (v : UniValue) : Result string :=
  match v with
  | VSTR s => inr s
  | _ => inl (runtime_error "JSON value is not a string as expected")
  end.

Definition get_int (v : UniValue) : Result Z :=
  match v with
  | VNUM z =>
      if in_int z then inr z
      else inl (runtime_error "JSON integer out of range")
  | _ => inl (runtime_error "JSON value is not an integer as expected")
  end.

Definition get_bool (v : UniValue) : Result bool :=
  match v with
  | VBOOL b => inr b
  | _ => inl (runtime_error "JSON value is not a boolean as expected")
  end.

Definition get_obj (v : UniValue) : Result UniValue :=
  match v with
  | VOBJ _ => inr v
  | _ => inl (runtime_error "JSON value is not an object as expected")
  end.

(** ** The state-and-error monad *)

(** What a handler changes outside its result: the debug log, the number of
    [next] calls made on name iterators, and the files written. *)
Record World := mkWorld {
  w_log : list string;
  w_reads : nat;
  w_files : list (string * string)
}.

Definition M (A : Type) : Type := World -> Result A * World.

Definition ret {A} (a : A) : M A := fun w => (inr a, w).

Definition throw {A} (e : Exception) : M A := fun w => (inl e, w).

Definition bind {A B} (m : M A) (k : A -> M B) : M B :=
  fun w =>
    match m w with
    | (inr a, w') => k a w'
    | (inl e, w') => (inl e, w')
    end.

Definition lift {A} (r : Result A) : M A := fun w => (r, w).

Notation "x <- m ;; k" := (bind m (fun x => k))
  (at level 61, m at next level, right associativity).
Notation "m ;;; k" := (bind m (fun _ => k))
  (at level 61, right associativity).

Definition LogPrintf (line : string) : M unit :=
  fun w => (inr tt, mkWorld (w_log w ++ [line]) (w_reads w) (w_files w)).

Definition when_ (b : bool) (m : M unit) : M unit :=
  if b then m else ret tt.

(** ** The node and the libraries around the handlers *)

(** Everything the handlers read from the running node or call in code that
    lies outside [rpc/names.cpp].  The handlers hold [cs_main] while they
    read, so one value of this record describes the node during a call. *)
Record Env := mkEnv {
  (** [::ChainActive().Height()] *)
  Height : Z;
  (** [Params().GetConsensus().rules->NameExpirationDepth] *)
  NameExpirationDepth : Z -> Z;
  (** [::ChainstateActive().IsInitialBlockDownload()] *)
  IsInitialBlockDownload : bool;
  (** the name database behind [CoinsTip()], in the order in which a
      [CNameIterator] walks it, and the order [seek] compares names by *)
  names : list (valtype * CNameData);
  name_less : valtype -> valtype -> bool;
  (** [CoinsTip().GetNameHistory]: [None] when it returns false *)
  GetNameHistory : valtype -> option (list CNameData);
  fNameHistory : bool;
  (** [g_txindex]: [None] when there is no transaction index, otherwise
      what [BlockUntilSyncedToCurrentChain] returns *)
  g_txindex : option bool;
  (** [GetTransaction]: the transaction and the hash of its block *)
  GetTransaction : uint256 -> option (CTransaction * uint256);
  LookupBlockIndex : uint256 -> option CBlockIndex;
  (** the wallet of the request, if any: [CWallet::IsMine] on a script *)
  wallet : option (CScript -> Z);
  ConfiguredNameEncoding : NameEncoding;
  ConfiguredValueEncoding : NameEncoding;
  (** names/encoding: [None] stands for [InvalidNameString] *)
  EncodeName : valtype -> NameEncoding -> option string;
  DecodeName : string -> NameEncoding -> option valtype;
  EncodeNameForMessage : valtype -> string;
  (** boost::xpressive: whether a pattern compiles, and [regex_search] *)
  regex_valid : string -> bool;
  regex_search : string -> sregex -> bool;
  (** script/standard and key_io: the address of a standard script *)
  ExtractDestination : CScript -> option string;
  GetHex : uint256 -> string;
  (** core_io: the fields [TxToUniv] adds to an entry *)
  TxToUniv : CTransaction -> UniValue -> UniValue;
  (** [UniValue::write] *)
  write : UniValue -> string;
  (** whether [std::ofstream::open] succeeds on a path *)
  can_open : string -> bool;
  (** whether the device behind a path, whose file holds a content, takes
      one more write of the given data *)
  accepts : string -> string -> string -> bool
}.

Record JSONRPCRequest := mkRequest {
  fHelp : bool;
  params : list UniValue
}.

Definition param (request : JSONRPCRequest) (i : nat) : UniValue :=
  nth i (params request) VNULL.

Definition params_size (request : JSONRPCRequest) : nat :=
  List.length (params request).

(** ** Encodings by name *)

(** Modelled from the spec: [EncodingFromString] and [EncodingToString] of
    names/encoding are not among the sources.  The encodings are named
    "ascii", "utf8" and "hex"; any other string is refused
    ([std::invalid_argument], here [None]). *)
Definition EncodingFromString (str : string) : option NameEncoding :=
  if String.eqb str "ascii" then Some ASCII
  else if String.eqb str "utf8" then Some UTF8
  else if String.eqb str "hex" then Some HEX
  else None.

Definition EncodingToString (enc : NameEncoding) : string :=
  match enc with
  | ASCII => "ascii"
  | UTF8 => "utf8"
  | HEX => "hex"
  end.

(** ** Type checks of the RPC framework *)

(** The expected types are kept in a [std::map]: sorted by key, the first
    of two equal keys wins. *)
Fixpoint map_insert (k : string) (t : VType) (m : list (string * VType))
  : list (string * VType) :=
  match m with
  | [] => [(k, t)]
  | (k', t') :: rest =>
      match String.compare k k' with
      | Lt => (k, t) :: m
      | Eq => m
      | Gt => (k', t') :: map_insert k t rest
      end
  end.

Definition map_of (l : list (string * VType)) : list (string * VType) :=
  fold_left (fun m kt => map_insert (fst kt) (snd kt) m) l [].

Fixpoint check_expected (o : UniValue) (typesExpected : list (string * VType))
  (fAllowNull : bool) : Result unit :=
  match typesExpected with
  | [] => inr tt
  | (k, t) :: rest =>
      let v := find_value o k in
      if negb fAllowNull && isNull v then
        inl (JSONRPCError RPC_TYPE_ERROR ("Missing " ^^ k))
      else if negb (VType_eqb (type v) t || (fAllowNull && isNull v)) then
        inl (JSONRPCError RPC_TYPE_ERROR
               ("Expected type " ^^ uvTypeName t ^^ " for " ^^ k
                ^^ ", got " ^^ uvTypeName (type v)))
      else check_expected o rest fAllowNull
  end.

Fixpoint check_strict (keys : list string)
  (typesExpected : list (string * VType)) : Result unit :=
  match keys with
  | [] => inr tt
  | k :: rest =>
      if existsb (fun kt => String.eqb (fst kt) k) typesExpected
      then check_strict rest typesExpected
      else inl (JSONRPCError RPC_TYPE_ERROR ("Unexpected key " ^^ k))
  end.

(** Modelled from the spec: [RPCTypeCheckObj] of rpc/util is not among the
    sources.  It is the options-bag check of section 4.2: a recognized key
    whose value has the wrong type is refused, and so is, in strict mode, a
    key that is not recognized.  Its callers pass two flags: whether a
    recognized key may be missing ([fAllowNull]) and whether the check is
    strict ([fStrict]); both default to false. *)
Definition RPCTypeCheckObj (o : UniValue)
  (typesExpected : list (string * VType)) (fAllowNull fStrict : bool)
  : Result unit :=
  match check_expected o (map_of typesExpected) fAllowNull with
  | inl e => inl e
  | inr _ =>
      if fStrict then check_strict (getKeys o) (map_of typesExpected)
      else inr tt
  end.

(** Modelled from the spec: [RPCTypeCheck] of rpc/util is not among the
    sources.  It checks the positional arguments that are present against
    the expected types, in order. *)
Fixpoint RPCTypeCheck (ps : list UniValue) (typesExpected : list VType)
  (fAllowNull : bool) : Result unit :=
  match typesExpected, ps with
  | t :: ts, v :: vs =>
      if negb (fAllowNull && isNull v) && negb (VType_eqb (type v) t) then
        inl (JSONRPCError RPC_TYPE_ERROR
               ("Expected type " ^^ uvTypeName t ^^ ", got "
                ^^ uvTypeName (type v)))
      else RPCTypeCheck vs ts fAllowNull
  | _, _ => inr tt
  end.

(** Modelled from the spec: [RPCHelpMan::Check] of rpc/util is not among the
    sources.  It answers a help request, or a call with too few or too many
    arguments, with the help text; [required] counts the arguments up to the
    last one that is not optional. *)
Definition RPCHelpMan_Check (name : string) (required total : nat)
  (request : JSONRPCRequest) : Result unit :=
  if fHelp request
     || negb ((required <=? params_size request)%nat
              && (params_size request <=? total)%nat)
  then inl (runtime_error ("help: " ^^ name))
  else inr tt.

(** ** Output streams *)

Definition endl : string := String "010"%char EmptyString.
Definition dquote : string := String "034"%char EmptyString.

(** A [std::ofstream]: the path it was opened on, and whether the stream is
    good.  The stream is a local object of the handler that its output
    operations change, so every operation returns the stream it leaves.
    Output to a stream that is not good is dropped, and nothing is thrown:
    the exception mask of a stream is empty unless set. *)
Record ofstream := mkStream { of_path : string; of_good : bool }.

Fixpoint file_set (files : list (string * string)) (path content : string)
  : list (string * string) :=
  match files with
  | [] => [(path, content)]
  | (p, c) :: rest =>
      if String.eqb p path then (p, content) :: rest
      else (p, c) :: file_set rest path content
  end.

Fixpoint file_get (files : list (string * string)) (path : string)
  : option string :=
  match files with
  | [] => None
  | (p, c) :: rest => if String.eqb p path then Some c else file_get rest path
  end.

Definition put_file (path content : string) : M unit :=
  fun w => (inr tt, mkWorld (w_log w) (w_reads w)
                            (file_set (w_files w) path content)).

(** One call of [CNameIterator::next]. *)
Definition next_called : M unit :=
  fun w => (inr tt, mkWorld (w_log w) (S (w_reads w)) (w_files w)).

Section Handlers.

Variable env : Env.

(** [outfile.open (path)]: truncates the file when it can be opened; the
    stream is not good when it cannot. *)
Definition open (path : string) : M ofstream :=
  if can_open env path then
    put_file path EmptyString ;;; ret (mkStream path true)
  else ret (mkStream path false).

(** One output statement [outfile << ...] of the handler, taken as one write
    to the device.  On a stream that is not good nothing happens.  On a good
    stream the data are appended to the file when the device takes them;
    when it does not, the data are dropped and the stream is not good from
    then on.  The handler never looks at the state of the stream. *)
Definition out (f : ofstream) (s : string) : M ofstream :=
  fun w =>
    if of_good f then
      let c := match file_get (w_files w) (of_path f) with
               | Some c => c
               | None => EmptyString
               end in
      if accepts env (of_path f) c s then
        (put_file (of_path f) (c ^^ s) ;;; ret f) w
      else (inr (mkStream (of_path f) false), w)
    else (inr f, w).

(** ** Helpers of the handlers *)

Definition EncodingFromOptionsJson (options : UniValue) (field : string)
  (defaultValue : NameEncoding) : M NameEncoding :=
  lift (RPCTypeCheckObj options [(field, TSTR)] true false) ;;;
  if exists_ options field then
    str <- lift (get_str (find_value options field)) ;;
    match EncodingFromString str with
    | Some res => ret res
    | None =>
        LogPrintf ("Invalid value for " ^^ field ^^ " in options: " ^^ str
                   ^^ endl ^^ "  using default "
                   ^^ EncodingToString defaultValue ^^ endl) ;;;
        ret defaultValue
    end
  else ret defaultValue.

(** Modelled from the spec: [AddEncodedNameToUniv] of names/encoding is not
    among the sources.  Encoding for output never throws: when the bytes
    cannot be rendered in the encoding, the side-channel field [key_error]
    replaces the field [key]; [key_encoding] names the encoding. *)
Definition AddEncodedNameToUniv (obj : UniValue) (key : string)
  (data : valtype) (enc : NameEncoding) : UniValue :=
  let obj :=
    match EncodeName env data enc with
    | Some str => pushKV obj key (VSTR str)
    | None =>
        pushKV obj (key ^^ "_error")
          (VSTR ("invalid data for " ^^ EncodingToString enc))
    end in
  pushKV obj (key ^^ "_encoding") (VSTR (EncodingToString enc)).

(** [getNameInfo (options, name, value, outp, addr)] *)
Definition getNameInfo (options : UniValue) (name value : valtype)
  (outp : COutPoint) (addr : CScript) : M UniValue :=
  let obj := VOBJ [] in
  nameEnc <- EncodingFromOptionsJson options "nameEncoding"
               (ConfiguredNameEncoding env) ;;
  let obj := AddEncodedNameToUniv obj "name" name nameEnc in
  valueEnc <- EncodingFromOptionsJson options "valueEncoding"
                (ConfiguredValueEncoding env) ;;
  let obj := AddEncodedNameToUniv obj "value" value valueEnc in
  let obj := pushKV obj "txid" (VSTR (GetHex env (hash outp))) in
  let obj := pushKV obj "vout" (VNUM (wrap_int (n outp))) in
  let addrStr :=
    match ExtractDestination env addr with
    | Some dest => dest
    | None => "<nonstandard>"
    end in
  ret (pushKV obj "address" (VSTR addrStr)).

(** [addExpirationInfo (height, data)] *)
Definition addExpirationInfo (height : Z) (data : UniValue) : UniValue :=
  let curHeight := Height env in
  let expireDepth := NameExpirationDepth env curHeight in
  let expireHeight := int_add height expireDepth in
  let expiresIn := int_sub expireHeight curHeight in
  let expired := expiresIn <=? 0 in
  let data := pushKV data "height" (VNUM height) in
  let data := pushKV data "expires_in" (VNUM expiresIn) in
  pushKV data "expired" (VBOOL expired).

(** [getNameInfo (options, name, data)] *)
Definition getNameInfo_data (options : UniValue) (name : valtype)
  (data : CNameData) : M UniValue :=
  result <- getNameInfo options name (getValue data)
              (getUpdateOutpoint data) (getAddress data) ;;
  ret (addExpirationInfo (getHeight data) result).

Definition ISMINE_SPENDABLE : Z := 2.

(** [addOwnershipInfo (addr, pwallet, data)] *)
Definition addOwnershipInfo (addr : CScript) (pwallet : option (CScript -> Z))
  (data : UniValue) : UniValue :=
  match pwallet with
  | None => data
  | Some IsMine =>
      let mine := IsMine addr in
      let isMine := negb (Z.land mine ISMINE_SPENDABLE =? 0) in
      pushKV data "ismine" (VBOOL isMine)
  end.

(** [getNameInfo (options, name, data, wallet)] *)
Definition getNameInfo_wallet (options : UniValue) (name : valtype)
  (data : CNameData) (pwallet : option (CScript -> Z)) : M UniValue :=
  res <- getNameInfo_data options name data ;;
  ret (addOwnershipInfo (getAddress data) pwallet res).

Definition TxToJSON (tx : CTransaction) (hashBlock : uint256)
  (entry : UniValue) : UniValue :=
  let entry := TxToUniv env tx entry in
  if negb (IsNull hashBlock) then
    let entry := pushKV entry "blockhash" (VSTR (GetHex env hashBlock)) in
    match LookupBlockIndex env hashBlock with
    | Some pindex =>
        if in_active_chain pindex then
          let entry :=
            pushKV entry "confirmations"
              (VNUM (int_sub (int_add 1 (Height env)) (nHeight pindex))) in
          let entry := pushKV entry "time" (VNUM (GetBlockTime pindex)) in
          pushKV entry "blocktime" (VNUM (GetBlockTime pindex))
        else pushKV entry "confirmations" (VNUM 0)
    | None => entry
    end
  else entry.

Definition DecodeNameValueFromRPCOrThrow (val opt : UniValue)
  (optKey : string) (defaultEnc : NameEncoding) : M valtype :=
  enc <- EncodingFromOptionsJson opt optKey defaultEnc ;;
  str <- lift (get_str val) ;;
  match DecodeName env str enc with
  | Some res => ret res
  | None =>
      throw (JSONRPCError RPC_NAME_INVALID_ENCODING
               ("Name/value is invalid for encoding "
                ^^ EncodingToString enc))
  end.

Definition DecodeNameFromRPCOrThrow (val opt : UniValue) : M valtype :=
  DecodeNameValueFromRPCOrThrow val opt "nameEncoding"
    (ConfiguredNameEncoding env).

Definition DecodeValueFromRPCOrThrow (val opt : UniValue) : M valtype :=
  DecodeNameValueFromRPCOrThrow val opt "valueEncoding"
    (ConfiguredValueEncoding env).

Definition pushTimestampOfDataTx (entry : CNameData) (f_txindex_ready : bool)
  (resRecord : UniValue) (keyName : string) : Result UniValue :=
  match GetTransaction env (hash (getUpdateOutpoint entry)) with
  | None =>
      let errmsg :=
        match g_txindex env with
        | None =>
            "No such mempool transaction. Use -txindex or provide a block hash to enable blockchain transaction queries"
        | Some _ =>
            if negb f_txindex_ready then
              "No such mempool transaction. Blockchain transactions are still in the process of being indexed"
            else "No such mempool or blockchain transaction"
        end in
      inl (JSONRPCError RPC_INVALID_ADDRESS_OR_KEY
             (errmsg ^^ ". Use gettransaction for wallet transactions."))
  | Some (tx, hash_block) =>
      let resTx := TxToJSON tx hash_block (VOBJ []) in
      match get_int (find_value resTx "time") with
      | inl e => inl e
      | inr time => inr (pushKV resRecord keyName (VNUM time))
      end
  end.

(** [CoinsTip().GetName]: the record of a name in the database. *)
Definition GetName (name : valtype) : option CNameData :=
  match find (fun e => String.eqb (fst e) name) (names env) with
  | Some e => Some (snd e)
  | None => None
  end.

(** [iter->seek (start)]: the iterator continues at the first name that is
    not below [start]. *)
Fixpoint seek (start : valtype) (db : list (valtype * CNameData))
  : list (valtype * CNameData) :=
  match db with
  | [] => []
  | e :: rest =>
      if name_less env (fst e) start then seek start rest else db
  end.

(** ** name_show and name_history *)

Definition IBD_check : M unit :=
  when_ (IsInitialBlockDownload env)
    (throw (JSONRPCError RPC_CLIENT_IN_INITIAL_DOWNLOAD
              "Namecoin is downloading blocks...")).

(** [options = request.params[i].get_obj ()] when there are more than [i]
    arguments, the empty object otherwise. *)
Definition options_at (request : JSONRPCRequest) (i : nat) : M UniValue :=
  if (i <? params_size request)%nat then lift (get_obj (param request i))
  else ret (VOBJ []).

Definition name_not_found (name : valtype) : Exception :=
  JSONRPCError RPC_WALLET_ERROR
    ("name not found: " ^^ EncodeNameForMessage env name).

Definition name_show (request : JSONRPCRequest) : M UniValue :=
  lift (RPCHelpMan_Check "name_show" 1 2 request) ;;;
  lift (RPCTypeCheck (params request) [TSTR; TOBJ] false) ;;;
  IBD_check ;;;
  options <- options_at request 1 ;;
  name <- DecodeNameFromRPCOrThrow (param request 0) options ;;
  match GetName name with
  | None => throw (name_not_found name)
  | Some data => getNameInfo_wallet options name data (wallet env)
  end.

Fixpoint history_loop (options : UniValue) (name : valtype)
  (pwallet : option (CScript -> Z)) (history : list CNameData)
  (res : UniValue) : M UniValue :=
  match history with
  | [] => ret res
  | entry :: rest =>
      info <- getNameInfo_wallet options name entry pwallet ;;
      history_loop options name pwallet rest (push_back res info)
  end.

(** [GetNameHistory (name, history)]; when it returns false the history is
    asserted to be empty. *)
Definition history_of (name : valtype) : list CNameData :=
  match GetNameHistory env name with
  | Some history => history
  | None => []
  end.

Definition name_history (request : JSONRPCRequest) : M UniValue :=
  lift (RPCHelpMan_Check "name_history" 1 2 request) ;;;
  lift (RPCTypeCheck (params request) [TSTR; TOBJ] false) ;;;
  when_ (negb (fNameHistory env))
    (throw (runtime_error "-namehistory is not enabled")) ;;;
  IBD_check ;;;
  options <- options_at request 1 ;;
  name <- DecodeNameFromRPCOrThrow (param request 0) options ;;
  match GetName name with
  | None => throw (name_not_found name)
  | Some data =>
      let history := history_of name in
      let pwallet := wallet env in
      res <- history_loop options name pwallet history (VARR []) ;;
      info <- getNameInfo_wallet options name data pwallet ;;
      ret (push_back res info)
  end.

(** ** name_scan *)

(** The prefix test of the scan: the name is not shorter than the prefix and
    [std::equal] holds on the first bytes. *)
Definition has_prefix (prefix name : valtype) : bool :=
  if (String.length name <? String.length prefix)%nat then false
  else String.prefix prefix name.

(** The regular expression test: the UTF-8 rendering of the name matches;
    a name without UTF-8 rendering does not. *)
Definition regexp_matches (regexp : sregex) (name : valtype) : bool :=
  match EncodeName env name UTF8 with
  | Some nameStr => regex_search env nameStr regexp
  | None => false
  end.

(** The body of the [for] loop of [name_scan], on the entries left in the
    iterator. *)
Fixpoint scan_loop (options : UniValue) (pwallet : option (CScript -> Z))
  (maxHeight minHeight : Z) (prefix : valtype) (haveRegexp : bool)
  (regexp : sregex) (iter : list (valtype * CNameData)) (count : Z)
  (res : UniValue) {struct iter} : M UniValue :=
  if count >? 0 then
    next_called ;;;
    match iter with
    | [] => ret res
    | (name, data) :: iter' =>
        let continue_ :=
          scan_loop options pwallet maxHeight minHeight prefix haveRegexp
            regexp iter' in
        let height := getHeight data in
        if height >? maxHeight then continue_ count res
        else if (minHeight >=? 0) && (height <? minHeight) then
          continue_ count res
        else if negb (has_prefix prefix name) then continue_ count res
        else if haveRegexp && negb (regexp_matches regexp name) then
          continue_ count res
        else
          info <- getNameInfo_wallet options name data pwallet ;;
          continue_ (int_sub count 1) (push_back res info)
    end
  else ret res.

Definition scan_options : list (string * VType) :=
  [("minConf", TNUM); ("maxConf", TNUM); ("prefix", TSTR); ("regexp", TSTR)].

(** The filters of a scan, as the handler holds them in local variables
    once the options are interpreted; [maxConf] is -1 when there is no
    upper bound on the confirmations. *)
Record ScanFilter := mkFilter {
  minConf : Z;
  maxConf : Z;
  prefix : valtype;
  haveRegexp : bool;
  regexp : sregex
}.

(** "Parse and interpret the name_scan-specific options." *)
Definition scan_parse_options (options : UniValue) : M ScanFilter :=
  lift (RPCTypeCheckObj options scan_options true false) ;;;
  minConf <- (if exists_ options "minConf"
              then lift (get_int (find_value options "minConf"))
              else ret 1) ;;
  when_ (minConf <? 1)
    (throw (JSONRPCError RPC_INVALID_PARAMETER "minConf must be >= 1")) ;;;
  maxConf <- (if exists_ options "maxConf"
              then
                maxConf <- lift (get_int (find_value options "maxConf")) ;;
                when_ (maxConf <? 0)
                  (throw (JSONRPCError RPC_INVALID_PARAMETER
                            "maxConf must not be negative")) ;;;
                ret maxConf
              else ret (-1)) ;;
  prefix <- (if exists_ options "prefix"
             then DecodeNameFromRPCOrThrow (find_value options "prefix")
                    options
             else ret EmptyString) ;;
  re <- (if exists_ options "regexp"
         then
           pattern <- lift (get_str (find_value options "regexp")) ;;
           if regex_valid env pattern then ret (true, sregex_of pattern)
           else throw (regex_error pattern)
         else ret (false, sregex_default)) ;;
  ret (mkFilter minConf maxConf prefix (fst re) (snd re)).

Definition maxHeight_of (f : ScanFilter) : Z :=
  int_add (int_sub (Height env) (minConf f)) 1.

Definition minHeight_of (f : ScanFilter) : Z :=
  if maxConf f >=? 0 then int_add (int_sub (Height env) (maxConf f)) 1
  else -1.

(** "Iterate over names and produce the result." *)
Definition scan_names (options : UniValue) (start : valtype) (count : Z)
  (f : ScanFilter) : M UniValue :=
  let res := VARR [] in
  if count <=? 0 then ret res
  else
    let pwallet := wallet env in
    let maxHeight := maxHeight_of f in
    let minHeight := minHeight_of f in
    scan_loop options pwallet maxHeight minHeight (prefix f) (haveRegexp f)
      (regexp f) (seek start (names env)) count res.

Definition name_scan (request : JSONRPCRequest) : M UniValue :=
  lift (RPCHelpMan_Check "name_scan" 0 3 request) ;;;
  lift (RPCTypeCheck (params request) [TSTR; TNUM; TOBJ] false) ;;;
  IBD_check ;;;
  options <- options_at request 2 ;;
  start <- (if (1 <=? params_size request)%nat
            then DecodeNameFromRPCOrThrow (param request 0) options
            else ret EmptyString) ;;
  count <- (if (2 <=? params_size request)%nat
            then lift (get_int (param request 1))
            else ret 500) ;;
  f <- scan_parse_options options ;;
  scan_names options start count f.

(** ** name_export *)

Fixpoint export_history_loop (options : UniValue) (name : valtype)
  (pwallet : option (CScript -> Z)) (f_txindex_ready : bool)
  (history : list CNameData) (resHistory : UniValue) : M UniValue :=
  match history with
  | [] => ret resHistory
  | entry :: rest =>
      resRecord <- getNameInfo_wallet options name entry pwallet ;;
      resRecord <- lift (pushTimestampOfDataTx entry f_txindex_ready
                           resRecord "time") ;;
      export_history_loop options name pwallet f_txindex_ready rest
        (push_back resHistory resRecord)
  end.

(** The element written for a matching name when the history is asked
    for: the name's record with its timestamp and its history. *)
Definition export_record (options : UniValue) (pwallet : option (CScript -> Z))
  (name : valtype) (data : CNameData) : M UniValue :=
  let f_txindex_ready :=
    match g_txindex env with
    | Some synced => synced
    | None => false
    end in
  resObj <- getNameInfo_wallet options name data pwallet ;;
  resObj <- lift (pushTimestampOfDataTx data f_txindex_ready resObj
                    "last_updated") ;;
  let history := history_of name in
  resHistory <- export_history_loop options name pwallet f_txindex_ready
                  history (VARR []) ;;
  ret (pushKV resObj "history" resHistory).

(** The body of the [while] loop of [name_export], on the entries left in
    the iterator; the result is the final [count] and the stream as the
    loop leaves it. *)
Fixpoint export_loop (options : UniValue) (pwallet : option (CScript -> Z))
  (regexp : sregex) (withHistory : bool) (maxCount : Z) (outfile : ofstream)
  (iter : list (valtype * CNameData)) (count : Z) {struct iter}
  : M (Z * ofstream) :=
  next_called ;;;
  match iter with
  | [] => ret (count, outfile)
  | (name, data) :: iter' =>
      let continue_ :=
        export_loop options pwallet regexp withHistory maxCount in
      match EncodeName env name UTF8 with
      | None => continue_ outfile iter' count
      | Some nameStr =>
          if negb (regex_search env nameStr regexp)
          then continue_ outfile iter' count
          else
            outfile <-
              (if withHistory then
                 resObj <- export_record options pwallet name data ;;
                 if count =? 0 then out outfile (write env resObj)
                 else out outfile ("," ^^ write env resObj)
               else
                 let resultString := VSTR nameStr in
                 if count =? 0 then out outfile (write env resultString)
                 else out outfile ("," ^^ endl ^^ write env resultString)) ;;
            let count := int_add count 1 in
            LogPrintf ("Handling " ^^ itostr count ^^ ": '" ^^ nameStr
                       ^^ "' " ^^ endl) ;;;
            if negb (maxCount =? -1) && (count >=? maxCount)
            then ret (count, outfile)
            else continue_ outfile iter' count
      end
  end.

(** The arguments of an export, as the handler holds them once they are
    read; [maxCount] is -1 when all names are exported. *)
Record ExportArgs := mkExportArgs {
  ex_options : UniValue;
  ex_regexp : sregex;
  regexpStr : string;
  path : string;
  withHistory : bool;
  maxCount : Z
}.

Definition export_arguments (request : JSONRPCRequest) : M ExportArgs :=
  options <- options_at request 2 ;;
  re <- (if (1 <=? params_size request)%nat
         then
           regexpStr <- lift (get_str (param request 0)) ;;
           if regex_valid env regexpStr
           then ret (sregex_of regexpStr, regexpStr)
           else throw (regex_error regexpStr)
         else ret (sregex_default, EmptyString)) ;;
  path <- (if (2 <=? params_size request)%nat
           then lift (get_str (param request 1))
           else ret EmptyString) ;;
  withHistory <- (if exists_ options "withHistory"
                  then lift (get_bool (find_value options "withHistory"))
                  else ret false) ;;
  when_ (withHistory && negb (fNameHistory env))
    (throw (runtime_error "-namehistory is not enabled")) ;;;
  maxCount <- (if exists_ options "count"
               then lift (get_int (find_value options "count"))
               else ret (-1)) ;;
  ret (mkExportArgs options (fst re) (snd re) path withHistory maxCount).

Definition found_message (count : Z) (regexpStr : string) : string :=
  "Found " ^^ itostr count ^^ " names with " ^^ dquote ^^ regexpStr
  ^^ dquote ^^ " regexp".

(** The export proper: open the file, write the array, report the count. *)
Definition export_names (a : ExportArgs) : M UniValue :=
  let pwallet := wallet env in
  outfile <- open (path a) ;;
  outfile <- out outfile ("[" ^^ endl) ;;
  looped <- export_loop (ex_options a) pwallet (ex_regexp a) (withHistory a)
              (maxCount a) outfile (names env) 0 ;;
  let count := fst looped in
  let outfile := snd looped in
  out outfile (endl ^^ "]") ;;;
  let res := VSTR (found_message count (regexpStr a)) in
  LogPrintf ("Found " ^^ itostr count ^^ " names with " ^^ regexpStr a
             ^^ " regexp. Options: " ^^ write env (ex_options a) ^^ " "
             ^^ endl) ;;;
  ret res.

Definition name_export (request : JSONRPCRequest) : M UniValue :=
  lift (RPCHelpMan_Check "name_export" 2 3 request) ;;;
  IBD_check ;;;
  lift (RPCTypeCheck (params request) [TSTR; TSTR; TOBJ] false) ;;;
  IBD_check ;;;
  a <- export_arguments request ;;
  export_names a.

End Handlers.

(** ** A small node to run the handlers on *)

Module Demo.

Definition printable (c : ascii) : bool :=
  let k := nat_of_ascii c in ((32 <=? k) && (k <? 127))%nat.

Fixpoint all_printable (s : string) : bool :=
  match s with
  | EmptyString => true
  | String c rest => printable c && all_printable rest
  end.

(** Names are rendered as they are when printable; the demo node has one
    rendering for the three encodings. *)
Definition encode (data : valtype) (enc : NameEncoding) : option string :=
  if all_printable data then Some data else None.

Definition decode (str : string) (enc : NameEncoding) : option valtype :=
  if all_printable str then Some str else None.

(** The order of the demo database: shorter names first, names of one
    length in the order of their bytes. *)
Definition less (a b : valtype) : bool :=
  if (String.length a =? String.length b)%nat then String.ltb a b
  else (String.length a <? String.length b)%nat.

(** The demo matcher: a pattern matches the names that start with it. *)
Definition search (subject : string) (re : sregex) : bool :=
  match re with
  | sregex_default => false
  | sregex_of pattern => String.prefix pattern subject
  end.

Definition render (v : UniValue) : string :=
  match v with
  | VSTR s => dquote ^^ s ^^ dquote
  | VNUM z => itostr z
  | VOBJ _ => "{}"
  | _ => "null"
  end.

Definition rec (height : Z) : CNameData :=
  mkNameData "v" height (mkOutPoint 7%N 0) "script".

Definition db : list (valtype * CNameData) :=
  [("d/a", rec 100); ("d/b", rec 101); ("x/c", rec 102); ("d/abc", rec 100)].

(** The demo node opens the files under /tmp/ and no other; the device
    behind /tmp/full takes no write, as /dev/full does. *)
Definition make (keep_history : bool) : Env := {|
  Height := 105;
  NameExpirationDepth := fun _ => 50;
  IsInitialBlockDownload := false;
  names := db;
  name_less := less;
  GetNameHistory := fun _ => None;
  fNameHistory := keep_history;
  g_txindex := None;
  GetTransaction := fun _ => None;
  LookupBlockIndex := fun _ => None;
  wallet := None;
  ConfiguredNameEncoding := ASCII;
  ConfiguredValueEncoding := ASCII;
  EncodeName := encode;
  DecodeName := decode;
  EncodeNameForMessage := fun s => s;
  regex_valid := fun p => negb (String.prefix "(" p);
  regex_search := search;
  ExtractDestination := fun _ => None;
  GetHex := fun h => itostr (Z.of_N h);
  TxToUniv := fun _ entry => entry;
  write := render;
  can_open := fun p => String.prefix "/tmp/" p;
  accepts := fun p _ _ => negb (String.eqb p "/tmp/full")
|}.

Definition node : Env := make false.

(** The same node started with -namehistory. *)
Definition history_node : Env := make true.

Definition world0 : World := mkWorld [] 0 [].

End Demo.

(** ** The node in another state *)

(** The same node with another answer of [IsInitialBlockDownload]. *)
Definition set_download (syncing : bool) (env : Env) : Env :=
  mkEnv (Height env) (NameExpirationDepth env) syncing (names env)
    (name_less env) (GetNameHistory env) (fNameHistory env) (g_txindex env)
    (GetTransaction env) (LookupBlockIndex env) (wallet env)
    (ConfiguredNameEncoding env) (ConfiguredValueEncoding env)
    (EncodeName env) (DecodeName env) (EncodeNameForMessage env)
    (regex_valid env) (regex_search env) (ExtractDestination env)
    (GetHex env) (TxToUniv env) (write env) (can_open env) (accepts env).

(** The same node started with -namehistory and holding the given
    histories. *)
Definition set_history (history : valtype -> option (list CNameData))
  (env : Env) : Env :=
  mkEnv (Height env) (NameExpirationDepth env) (IsInitialBlockDownload env)
    (names env) (name_less env) history true (g_txindex env)
    (GetTransaction env) (LookupBlockIndex env) (wallet env)
    (ConfiguredNameEncoding env) (ConfiguredValueEncoding env)
    (EncodeName env) (DecodeName env) (EncodeNameForMessage env)
    (regex_valid env) (regex_search env) (ExtractDestination env)
    (GetHex env) (TxToUniv env) (write env) (can_open env) (accepts env).

(** A demo node on which the name d/a has been updated twice before. *)
Definition archive_node : Env :=
  set_history
    (fun name =>
       if String.eqb name "d/a" then Some [Demo.rec 40; Demo.rec 70]
       else None)
    Demo.node.

(** The same node holding the given transactions and block index. *)
Definition set_chain
  (transactions : uint256 -> option (CTransaction * uint256))
  (blocks : uint256 -> option CBlockIndex) (env : Env) : Env :=
  mkEnv (Height env) (NameExpirationDepth env) (IsInitialBlockDownload env)
    (names env) (name_less env) (GetNameHistory env) (fNameHistory env)
    (g_txindex env) transactions blocks (wallet env)
    (ConfiguredNameEncoding env) (ConfiguredValueEncoding env)
    (EncodeName env) (DecodeName env) (EncodeNameForMessage env)
    (regex_valid env) (regex_search env) (ExtractDestination env)
    (GetHex env) (TxToUniv env) (write env) (can_open env) (accepts env).

(** A demo node that finds transactions: transaction 7 was confirmed in
    block 9, at height 100 and time 1600000000; transaction 8 waits in the
    mempool. *)
Definition chain_node : Env :=
  set_chain
    (fun h =>
       if N.eqb h 7 then Some (mkTx 7%N, 9%N)
       else if N.eqb h 8 then Some (mkTx 8%N, 0%N)
       else None)
    (fun h =>
       if N.eqb h 9 then Some (mkBlockIndex 100 1600000000 true) else None)
    Demo.history_node.

(** The node above on which the name d/a has been updated twice before. *)
Definition chain_archive_node : Env :=
  set_history
    (fun name =>
       if String.eqb name "d/a" then Some [Demo.rec 40; Demo.rec 70]
       else None)
    chain_node.

(** * Unconfirmed name operations *)

(** Modelled from the spec: [CNameScript] of script/names is not among the
    sources.  It is the parsed form of an output script: the name operation
    the script carries ([OP_NOP] when it carries none), the name and the
    value of an update, and the address behind the name prefix.  A
    registration or an update shows its name; a bare reservation
    ([OP_NAME_NEW]) does not. *)
Inductive opcodetype :=
| OP_NOP
| OP_NAME_NEW
| OP_NAME_FIRSTUPDATE
| OP_NAME_UPDATE.

Record CNameScript := mkNameScript {
  getNameOp : opcodetype;
  getOpName : valtype;
  getOpValue : valtype;
  getOpAddress : CScript
}.

Definition isNameOp (op : CNameScript) : bool :=
  match getNameOp op with
  | OP_NAME_NEW | OP_NAME_FIRSTUPDATE | OP_NAME_UPDATE => true
  | OP_NOP => false
  end.

Definition isAnyUpdate (op : CNameScript) : bool :=
  match getNameOp op with
  | OP_NAME_FIRSTUPDATE | OP_NAME_UPDATE => true
  | _ => false
  end.

(** A transaction of the mempool, as [name_pending] reads it: its hash,
    whether it is a Namecoin transaction, and the scripts of its outputs. *)
Record CMempoolTransaction := mkMempoolTx {
  GetTxHash : uint256;
  IsNamecoin : bool;
  vout : list CScript
}.

(** The mempool: the hashes [queryHashes] reports, and the transaction
    [get] finds for a hash, if any. *)
Record CTxMemPool := mkMempool {
  queryHashes : list uint256;
  get : uint256 -> option CMempoolTransaction
}.

(** [assert (false)] ends the node; in the model the request ends with this
    exception, which nothing else throws. *)
Definition assertion_failed : Exception :=
  runtime_error "Assertion `false' failed.".

Section Pending.

Variable env : Env.
Variable mempool : CTxMemPool.

(** [CNameScript op (script)]: the parser of output scripts. *)
Variable parse : CScript -> CNameScript.

(** The loop over the outputs of one transaction, from output [n] on. *)
Fixpoint pending_outputs (options : UniValue)
  (pwallet : option (CScript -> Z)) (hasNameFilter : bool)
  (nameFilter : valtype) (tx : CMempoolTransaction) (outputs : list CScript)
  (n : nat) (arr : UniValue) {struct outputs} : M UniValue :=
  match outputs with
  | [] => ret arr
  | scriptPubKey :: rest =>
      let continue_ :=
        pending_outputs options pwallet hasNameFilter nameFilter tx rest
          (S n) in
      let op := parse scriptPubKey in
      if negb (isNameOp op) || negb (isAnyUpdate op) then continue_ arr
      else if hasNameFilter && negb (String.eqb (getOpName op) nameFilter)
      then continue_ arr
      else
        obj <- getNameInfo env options (getOpName op) (getOpValue op)
                 (mkOutPoint (GetTxHash tx) (Z.of_nat n mod 2 ^ 32))
                 (getOpAddress op) ;;
        let obj := addOwnershipInfo (getOpAddress op) pwallet obj in
        match getNameOp op with
        | OP_NAME_FIRSTUPDATE =>
            continue_
              (push_back arr (pushKV obj "op" (VSTR "name_firstupdate")))
        | OP_NAME_UPDATE =>
            continue_ (push_back arr (pushKV obj "op" (VSTR "name_update")))
        | _ => throw assertion_failed
        end
  end.

(** The loop over the hashes of the mempool. *)
Fixpoint pending_loop (options : UniValue) (pwallet : option (CScript -> Z))
  (hasNameFilter : bool) (nameFilter : valtype) (txHashes : list uint256)
  (arr : UniValue) {struct txHashes} : M UniValue :=
  match txHashes with
  | [] => ret arr
  | txHash :: rest =>
      let continue_ :=
        pending_loop options pwallet hasNameFilter nameFilter rest in
      match get mempool txHash with
      | None => continue_ arr
      | Some tx =>
          if negb (IsNamecoin tx) then continue_ arr
          else
            arr <- pending_outputs options pwallet hasNameFilter nameFilter
                     tx (vout tx) 0 arr ;;
            continue_ arr
      end
  end.

Definition name_pending (request : JSONRPCRequest) : M UniValue :=
  lift (RPCHelpMan_Check "name_pending" 0 2 request) ;;;
  lift (RPCTypeCheck (params request) [TSTR; TOBJ] true) ;;;
  let pwallet := wallet env in
  options <- options_at request 1 ;;
  let txHashes := queryHashes mempool in
  let hasNameFilter := negb (isNull (param request 0)) in
  nameFilter <- (if hasNameFilter
                 then DecodeNameFromRPCOrThrow env (param request 0) options
                 else ret EmptyString) ;;
  pending_loop options pwallet hasNameFilter nameFilter txHashes (VARR []).

End Pending.

(** A mempool for the demo node: transaction 21 reserves a name and
    registers d/new; transaction 22 is no Namecoin transaction; transaction
    23 updates d/a behind a plain output; hash 24 is gone from the pool. *)
Definition demo_parse (script : CScript) : CNameScript :=
  if String.eqb script "new"
  then mkNameScript OP_NAME_NEW EmptyString EmptyString "addr1"
  else if String.eqb script "first"
  then mkNameScript OP_NAME_FIRSTUPDATE "d/new" "hello" "addr2"
  else if String.eqb script "update"
  then mkNameScript OP_NAME_UPDATE "d/a" "v2" "addr3"
  else mkNameScript OP_NOP EmptyString EmptyString script.

Definition demo_mempool : CTxMemPool :=
  mkMempool [21%N; 22%N; 23%N; 24%N]
    (fun h =>
       if N.eqb h 21 then Some (mkMempoolTx 21%N true ["new"; "first"])
       else if N.eqb h 22 then Some (mkMempoolTx 22%N false ["update"])
       else if N.eqb h 23 then Some (mkMempoolTx 23%N true ["pay"; "update"])
       else None).

(** * Help texts *)

(** Modelled from the spec: [RPCResult] of rpc/util is not among the
    sources.  The description of a result: its type, its key, a text, and
    the descriptions of its parts. *)
Inductive RPCResultType :=
| Type_OBJ
| Type_ARR
| Type_STR
| Type_NUM
| Type_BOOL
| Type_STR_HEX.

#[warnings="-register-all"]
Inductive RPCResult :=
| mkRPCResult (m_type : RPCResultType) (m_key_name m_description : string)
    (m_inner : list RPCResult).

Definition result_type (r : RPCResult) : RPCResultType :=
  match r with mkRPCResult t _ _ _ => t end.

Definition result_key (r : RPCResult) : string :=
  match r with mkRPCResult _ key _ _ => key end.

Definition result_inner (r : RPCResult) : list RPCResult :=
  match r with mkRPCResult _ _ _ inner => inner end.

(** The builder [NameInfoHelp]: the result fields added so far. *)
Record NameInfoHelp := mkNameInfoHelp { fields : list RPCResult }.

Definition withField (h : NameInfoHelp) (field : RPCResult) : NameInfoHelp :=
  mkNameInfoHelp (fields h ++ [field]).

Definition finish (h : NameInfoHelp) : RPCResult :=
  mkRPCResult Type_OBJ EmptyString EmptyString (fields h).

(** [NameInfoHelp::NameInfoHelp ()], built with wallet support. *)
Definition NameInfoHelp_new : NameInfoHelp :=
  let h := mkNameInfoHelp [] in
  let h := withField h (mkRPCResult Type_STR "name" "the requested name" []) in
  let h := withField h (mkRPCResult Type_STR "name_encoding"
                          ("the encoding of " ^^ dquote ^^ "name" ^^ dquote)
                          []) in
  let h := withField h (mkRPCResult Type_STR "name_error"
                          ("replaces " ^^ dquote ^^ "name" ^^ dquote
                           ^^ " in case there is an error") []) in
  let h := withField h (mkRPCResult Type_STR "value"
                          "the name's current value" []) in
  let h := withField h (mkRPCResult Type_STR "value_encoding"
                          ("the encoding of " ^^ dquote ^^ "value" ^^ dquote)
                          []) in
  let h := withField h (mkRPCResult Type_STR "value_error"
                          ("replaces " ^^ dquote ^^ "value" ^^ dquote
                           ^^ " in case there is an error") []) in
  let h := withField h (mkRPCResult Type_STR_HEX "txid"
                          "the name's last update tx" []) in
  let h := withField h (mkRPCResult Type_NUM "vout"
                          "the index of the name output in the last update"
                          []) in
  let h := withField h (mkRPCResult Type_STR "address"
                          "the address holding the name" []) in
  withField h (mkRPCResult Type_BOOL "ismine"
                 "whether the name is owned by the wallet" []).

Definition withExpiration (h : NameInfoHelp) : NameInfoHelp :=
  let h := withField h (mkRPCResult Type_NUM "height"
                          "the name's last update height" []) in
  let h := withField h (mkRPCResult Type_NUM "expires_in"
                          "expire counter for the name" []) in
  withField h (mkRPCResult Type_BOOL "expired"
                 "whether the name is expired" []).

(** The result described in the help of [name_show], and the element of
    the arrays described for [name_history] and [name_scan]. *)
Definition name_info_result : RPCResult :=
  finish (withExpiration NameInfoHelp_new).

(** The element of the array described in the help of [name_pending]. *)
Definition name_pending_result : RPCResult :=
  finish (withExpiration
            (withField NameInfoHelp_new
               (mkRPCResult Type_STR "op" "the operation being performed"
                  []))).

(** * Vocabulary of the properties *)

(** ** Computations *)

(** A computation whose result does not depend on the world it starts
    in. *)
Definition pure_result {A} (m : M A) : Prop :=
  forall w1 w2, fst (m w1) = fst (m w2).

(** A computation that calls [next] on no iterator and writes no file: of
    the world it changes the log at most. *)
Definition only_logs {A} (m : M A) : Prop :=
  forall w,
    w_reads (snd (m w)) = w_reads w /\ w_files (snd (m w)) = w_files w.

Definition fails {A} (m : M A) : Prop :=
  forall w, exists e w', m w = (inl e, w').

(** A computation that fails in every world, without a call of [next]. *)
Definition fails_unread {A} (m : M A) : Prop :=
  forall w, exists e w', m w = (inl e, w') /\ w_reads w' = w_reads w.

Definition initial_world : World := mkWorld [] 0 [].

(** ** Options of a scan *)

(** Decoding a name or value argument in a given encoding. *)
Definition decode_with (env : Env) (val : UniValue) (enc : NameEncoding)
  : Result valtype :=
  match get_str val with
  | inl e => inl e
  | inr str =>
      match DecodeName env str enc with
      | Some res => inr res
      | None =>
          inl (JSONRPCError RPC_NAME_INVALID_ENCODING
                 ("Name/value is invalid for encoding "
                  ^^ EncodingToString enc))
      end
  end.

Definition scan_keys : list string :=
  ["nameEncoding"; "minConf"; "maxConf"; "prefix"; "regexp"].

Definition options_keys : list string := "valueEncoding" :: scan_keys.

(** Two bags that hold the same under the keys a scan reads. *)
Definition same_on (keys : list string) (o1 o2 : UniValue) : Prop :=
  forall k, In k keys ->
    find_value o1 k = find_value o2 k /\ exists_ o1 k = exists_ o2 k.

Definition minConf_accepted (options : UniValue) : Prop :=
  exists_ options "minConf" = false
  \/ exists m, find_value options "minConf" = VNUM m
               /\ int_range m /\ 1 <= m.

Definition maxConf_accepted (options : UniValue) : Prop :=
  exists_ options "maxConf" = false
  \/ exists m, find_value options "maxConf" = VNUM m
               /\ int_range m /\ 0 <= m.

Definition prefix_accepted (env : Env) (options : UniValue) : Prop :=
  exists_ options "prefix" = false
  \/ forall w, exists r w',
       DecodeNameFromRPCOrThrow env (find_value options "prefix") options w
       = (inr r, w').

Definition number_or (options : UniValue) (key : string) (default : Z) : Z :=
  match find_value options key with
  | VNUM m => m
  | _ => default
  end.

(** The first part of C3 as it is stated, for a scan request: a key of the
    options that is not a recognized one makes the request fail. *)
Definition unknown_keys_rejected (env : Env) (request : JSONRPCRequest)
  (w : World) : Prop :=
  forall key,
    In key (getKeys (param request 2)) -> ~ In key options_keys ->
    exists e, fst (name_scan env request w) = inl e.

(** The third part of C7 as it is stated, for a scan request: an invalid
    pattern under regexp is answered with an invalid-parameter error. *)
Definition invalid_regexp_is_invalid_parameter (env : Env)
  (request : JSONRPCRequest) (w : World) : Prop :=
  forall pattern,
    find_value (param request 2) "regexp" = VSTR pattern ->
    regex_valid env pattern = false ->
    exists msg,
      fst (name_scan env request w)
      = inl (JSONRPCError RPC_INVALID_PARAMETER msg).

(** ** Entries listed by a scan *)

(** The record of an entry, and the test an entry passes to be listed. *)
Definition info (env : Env) (options : UniValue) (e : valtype * CNameData)
  : Result UniValue :=
  fst (getNameInfo_wallet env options (fst e) (snd e) (wallet env)
         initial_world).

Definition passes (env : Env) (f : ScanFilter) (e : valtype * CNameData)
  : bool :=
  negb (getHeight (snd e) >? maxHeight_of env f)
  && negb ((minHeight_of env f >=? 0)
           && (getHeight (snd e) <? minHeight_of env f))
  && has_prefix (prefix f) (fst e)
  && negb (haveRegexp f && negb (regexp_matches env (regexp f) (fst e))).

(** The entries a scan lists: the first [count] that pass, from [start]
    on. *)
Definition selected (env : Env) (f : ScanFilter) (start : valtype)
  (count : Z) : list (valtype * CNameData) :=
  firstn (Z.to_nat count) (filter (passes env f) (seek env start (names env))).

Fixpoint collect (infos : list (Result UniValue)) (res : list UniValue)
  : Result (list UniValue) :=
  match infos with
  | [] => inr res
  | inl e :: _ => inl e
  | inr o :: rest => collect rest (res ++ [o])
  end.

Definition array_of (r : Result (list UniValue)) : Result UniValue :=
  match r with
  | inl e => inl e
  | inr res => inr (VARR res)
  end.

(** The database is sorted for [seek]: no name is below itself, and every
    name is below the names behind it. *)
Fixpoint sorted_names (env : Env) (db : list (valtype * CNameData)) : bool :=
  match db with
  | [] => true
  | e :: rest =>
      negb (name_less env (fst e) (fst e))
      && forallb (fun e' => name_less env (fst e) (fst e')) rest
      && sorted_names env rest
  end.

(** The encoding of names a request asks for. *)
Definition name_encoding (env : Env) (options : UniValue)
  : Result NameEncoding :=
  fst (EncodingFromOptionsJson options "nameEncoding"
         (ConfiguredNameEncoding env) initial_world).

Definition scan_request (start : string) (count : Z) (options : UniValue)
  : JSONRPCRequest :=
  mkRequest false [VSTR start; VNUM count; options].

(** The second part of C2 as it is stated: a scan of N names, followed by a
    scan of M names from the last name listed with its first element
    dropped, is the scan of N + M names. *)
Definition pagination_as_stated (env : Env) (X : string) (N M : Z)
  (options : UniValue) (w : World) : Prop :=
  forall r1 r2 r12 o s,
    fst (name_scan env (scan_request X N options) w) = inr (VARR r1) ->
    r1 <> [] -> last r1 VNULL = o -> find_value o "name" = VSTR s ->
    fst (name_scan env (scan_request s M options) w) = inr (VARR r2) ->
    fst (name_scan env (scan_request X (N + M) options) w) = inr (VARR r12) ->
    r1 ++ tl r2 = r12.

(** ** Text written by an export *)

(** The UTF-8 renderings of the names that match, in the order of the
    database. *)
Definition matching (env : Env) (regexp : sregex)
  (iter : list (valtype * CNameData)) : list string :=
  flat_map (fun e =>
              match EncodeName env (fst e) UTF8 with
              | Some nameStr =>
                  if regex_search env nameStr regexp then [nameStr] else []
              | None => []
              end) iter.

(** What an export without history writes for the matching names, from a
    given count on, and the count it ends with. *)
Fixpoint emit (env : Env) (maxCount : Z) (ms : list string) (count : Z)
  : string * Z :=
  match ms with
  | [] => (EmptyString, count)
  | nameStr :: ms' =>
      let piece :=
        if count =? 0 then write env (VSTR nameStr)
        else "," ^^ endl ^^ write env (VSTR nameStr) in
      let count' := int_add count 1 in
      if negb (maxCount =? -1) && (count' >=? maxCount) then (piece, count')
      else
        let r := emit env maxCount ms' count' in
        (piece ^^ fst r, snd r)
  end.

Definition separator (withHistory : bool) : string :=
  if withHistory then "," else "," ^^ endl.

(** The elements of an array after the first one, each behind its
    separator; and the whole array text between the brackets. *)
Fixpoint tail_pieces (sep : string) (elems : list string) : string :=
  match elems with
  | [] => EmptyString
  | e :: rest => sep ^^ e ^^ tail_pieces sep rest
  end.

Definition join (sep : string) (elems : list string) : string :=
  match elems with
  | [] => EmptyString
  | e :: rest => e ^^ tail_pieces sep rest
  end.

Definition pieces (sep : string) (count : Z) (elems : list string) : string :=
  if count =? 0 then join sep elems else tail_pieces sep elems.

(** A destination whose device takes every write. *)
Definition takes_all (env : Env) (path : string) : Prop :=
  forall content data, accepts env path content data = true.

(** The second part of C4 as it is stated: when the destination cannot be
    opened for writing, the export request ends in an error. *)
Definition io_failure_surfaced (env : Env) (request : JSONRPCRequest)
  (w : World) : Prop :=
  forall p,
    param request 1 = VSTR p -> can_open env p = false ->
    exists e, fst (name_export env request w) = inl e.

(** C6 as it is stated: an export without history, over a database in
    which exactly three names match, leaves the array of the three names in
    the destination. *)
Definition three_names_written (env : Env) (request : JSONRPCRequest)
  (w : World) : Prop :=
  forall a w1 s1 s2 s3,
    export_arguments env request w = (inr a, w1) ->
    withHistory a = false ->
    matching env (ex_regexp a) (names env) = [s1; s2; s3] ->
    file_get (w_files (snd (name_export env request w))) (path a)
    = Some ("[" ^^ endl
            ^^ write env (VSTR s1) ^^ "," ^^ endl
            ^^ write env (VSTR s2) ^^ "," ^^ endl
            ^^ write env (VSTR s3) ^^ endl ^^ "]").

(** C10 as it is stated: an export whose count is neither -1 nor positive,
    over a database with a matching name, leaves an array of exactly one
    element in the destination. *)
Definition one_element_written (env : Env) (request : JSONRPCRequest)
  (w : World) : Prop :=
  forall a w1 nameStr ms,
    export_arguments env request w = (inr a, w1) ->
    maxCount a <> -1 -> maxCount a <= 0 ->
    matching env (ex_regexp a) (names env) = nameStr :: ms ->
    exists v,
      file_get (w_files (snd (name_export env request w))) (path a)
      = Some ("[" ^^ endl ^^ write env v ^^ endl ^^ "]").

(** A record whose originating transaction gives no timestamp. *)
Definition unresolved (env : Env) (entry : CNameData) : Prop :=
  forall ready resRecord keyName,
    exists e, pushTimestampOfDataTx env entry ready resRecord keyName = inl e.

(** ** Requests to the demo node *)

Definition bogus_request : JSONRPCRequest :=
  mkRequest false [VSTR "d/a"; VNUM 1; VOBJ [("bogus", VNUM 1)]].

Definition bad_regexp_request : JSONRPCRequest :=
  mkRequest false [VSTR "d/a"; VNUM 1; VOBJ [("regexp", VSTR "(")]].

Definition window_filter : ScanFilter :=
  mkFilter 5 (-1) EmptyString false sregex_default.

Definition capped_request : JSONRPCRequest :=
  mkRequest false [VSTR "d/"; VSTR "/tmp/names.json";
                   VOBJ [("count", VNUM 0)]].

Definition capped_args : ExportArgs :=
  mkExportArgs (VOBJ [("count", VNUM 0)]) (sregex_of "d/") "d/"
    "/tmp/names.json" false 0.

Definition three_request : JSONRPCRequest :=
  mkRequest false [VSTR "d/"; VSTR "/tmp/names.json";
                   VOBJ [("withHistory", VBOOL false)]].

Definition three_args : ExportArgs :=
  mkExportArgs (VOBJ [("withHistory", VBOOL false)]) (sregex_of "d/") "d/"
    "/tmp/names.json" false (-1).

Definition unwritable_request : JSONRPCRequest :=
  mkRequest false [VSTR "d/"; VSTR "/etc/names.json"].

Definition unwritable_args : ExportArgs :=
  mkExportArgs (VOBJ []) (sregex_of "d/") "d/" "/etc/names.json" false (-1).

Definition unwritable_capped_request : JSONRPCRequest :=
  mkRequest false [VSTR "d/"; VSTR "/etc/names.json";
                   VOBJ [("count", VNUM 0)]].

Definition full_request : JSONRPCRequest :=
  mkRequest false [VSTR "d/"; VSTR "/tmp/full"].

Definition full_args : ExportArgs :=
  mkExportArgs (VOBJ []) (sregex_of "d/") "d/" "/tmp/full" false (-1).

Definition history_request : JSONRPCRequest :=
  mkRequest false [VSTR "d/"; VSTR "/tmp/names.json";
                   VOBJ [("withHistory", VBOOL true)]].

Definition history_args : ExportArgs :=
  mkExportArgs (VOBJ [("withHistory", VBOOL true)]) (sregex_of "d/") "d/"
    "/tmp/names.json" true (-1).

(** ** Answers of the handlers *)

Definition downloading : Exception :=
  JSONRPCError RPC_CLIENT_IN_INITIAL_DOWNLOAD
    "Namecoin is downloading blocks...".

Definition history_disabled : Exception :=
  runtime_error "-namehistory is not enabled".

(** A computation that calls [next] on no iterator and, when it returns,
    returns the empty array. *)
Definition lists_nothing (m : M UniValue) : Prop :=
  forall w,
    w_reads (snd (m w)) = w_reads w
    /\ forall r, fst (m w) = inr r -> r = VARR [].

(** The filter of a scan without options. *)
Definition no_filter : ScanFilter :=
  mkFilter 1 (-1) EmptyString false sregex_default.

(** ** Records *)

(** An encoding option that [EncodingFromOptionsJson] accepts: absent, or a
    string. *)
Definition encoding_option_ok (options : UniValue) (field : string) : Prop :=
  exists_ options field = false
  \/ exists str, find_value options field = VSTR str.

(** ** Timestamps *)

(** A transaction that is found, but not in a block of the active chain: it
    waits in the mempool, or its block is unknown or was abandoned. *)
Definition outside_chain (env : Env) (hash_block : uint256) : Prop :=
  IsNull hash_block = true
  \/ LookupBlockIndex env hash_block = None
  \/ exists pindex,
       LookupBlockIndex env hash_block = Some pindex
       /\ in_active_chain pindex = false.

(** ** Exports *)

(** The names an export writes: the matching names in the order of the
    database, all of them when the count is -1, else as many as the count
    says, and one when the count is below one. *)
Definition exported (env : Env) (a : ExportArgs) : list string :=
  let ms := matching env (ex_regexp a) (names env) in
  if maxCount a =? -1 then ms
  else firstn (Z.to_nat (Z.max 1 (maxCount a))) ms.

Definition two_request : JSONRPCRequest :=
  mkRequest false [VSTR "d/"; VSTR "/tmp/names.json";
                   VOBJ [("count", VNUM 2)]].

Definition two_args : ExportArgs :=
  mkExportArgs (VOBJ [("count", VNUM 2)]) (sregex_of "d/") "d/"
    "/tmp/names.json" false 2.

(** An export request with all three arguments. *)
Definition export_request (regexpStr path : string)
  (options : list (string * UniValue)) : JSONRPCRequest :=
  mkRequest false [VSTR regexpStr; VSTR path; VOBJ options].

(** The entries an export with history writes a record for, and the record
    of an entry. *)
Definition exported_entries (env : Env) (a : ExportArgs)
  : list (valtype * CNameData) :=
  let ms := filter (fun e => regexp_matches env (ex_regexp a) (fst e))
              (names env) in
  if maxCount a =? -1 then ms
  else firstn (Z.to_nat (Z.max 1 (maxCount a))) ms.

Definition export_element (env : Env) (options : UniValue)
  (e : valtype * CNameData) : Result UniValue :=
  fst (export_record env options (wallet env) (fst e) (snd e) initial_world).

(** ** Unconfirmed operations *)

(** A registration or update that waits in the mempool: its transaction,
    the number of its output, and the operation. *)
Definition PendingUpdate : Type := CMempoolTransaction * nat * CNameScript.

Definition update_tx (u : PendingUpdate) : CMempoolTransaction := fst (fst u).
Definition update_output (u : PendingUpdate) : nat := snd (fst u).
Definition update_op (u : PendingUpdate) : CNameScript := snd u.

(** The registrations and updates among the outputs of a transaction, from
    output [n] on; and those of the whole mempool, in the order of its
    hashes. *)
Fixpoint updates_from (parse : CScript -> CNameScript)
  (tx : CMempoolTransaction) (outputs : list CScript) (n : nat)
  : list PendingUpdate :=
  match outputs with
  | [] => []
  | scriptPubKey :: rest =>
      if isNameOp (parse scriptPubKey) && isAnyUpdate (parse scriptPubKey)
      then (tx, n, parse scriptPubKey) :: updates_from parse tx rest (S n)
      else updates_from parse tx rest (S n)
  end.

Definition pending_updates (mempool : CTxMemPool)
  (parse : CScript -> CNameScript) : list PendingUpdate :=
  flat_map (fun txHash =>
              match get mempool txHash with
              | Some tx =>
                  if IsNamecoin tx then updates_from parse tx (vout tx) 0
                  else []
              | None => []
              end) (queryHashes mempool).

(** The operations a request asks for: all of them, or those on one name. *)
Definition wanted (hasNameFilter : bool) (nameFilter : valtype)
  (u : PendingUpdate) : bool :=
  negb hasNameFilter || String.eqb (getOpName (update_op u)) nameFilter.

Definition op_label (op : CNameScript) : string :=
  match getNameOp op with
  | OP_NAME_FIRSTUPDATE => "name_firstupdate"
  | _ => "name_update"
  end.

(** The record of an unconfirmed operation. *)
Definition pending_record (env : Env) (options : UniValue)
  (u : PendingUpdate) : Result UniValue :=
  match fst (getNameInfo env options (getOpName (update_op u))
               (getOpValue (update_op u))
               (mkOutPoint (GetTxHash (update_tx u))
                  (Z.of_nat (update_output u) mod 2 ^ 32))
               (getOpAddress (update_op u)) initial_world) with
  | inl e => inl e
  | inr obj =>
      inr (pushKV (addOwnershipInfo (getOpAddress (update_op u))
                     (wallet env) obj)
             "op" (VSTR (op_label (update_op u))))
  end.

(** What the record of an unconfirmed operation tells: the kind of the
    operation, and the transaction and output that carry it; it has no
    height and no expiration. *)
Definition describes (env : Env) (u : PendingUpdate) (r : UniValue) : Prop :=
  (getNameOp (update_op u) = OP_NAME_FIRSTUPDATE
   /\ find_value r "op" = VSTR "name_firstupdate"
   \/ getNameOp (update_op u) = OP_NAME_UPDATE
      /\ find_value r "op" = VSTR "name_update")
  /\ find_value r "txid" = VSTR (GetHex env (GetTxHash (update_tx u)))
  /\ find_value r "vout"
     = VNUM (wrap_int (Z.of_nat (update_output u) mod 2 ^ 32))
  /\ exists_ r "height" = false
  /\ exists_ r "expires_in" = false
  /\ exists_ r "expired" = false.

(** The name a request of [name_pending] asks for, if any. *)
Definition pending_filter (env : Env) (request : JSONRPCRequest)
  (options : UniValue) : M valtype :=
  if negb (isNull (param request 0))
  then DecodeNameFromRPCOrThrow env (param request 0) options
  else ret EmptyString.

(** ** Arguments *)

(** The encoding a request chooses with an option: the node's default when
    the option is absent, the encoding the option names otherwise. *)
Definition chosen_encoding (options : UniValue) (field : string)
  (defaultValue enc : NameEncoding) : Prop :=
  exists_ options field = false /\ enc = defaultValue
  \/ exists str,
       find_value options field = VSTR str
       /\ EncodingFromString str = Some enc.

(** ** Help texts *)

(** A JSON value of the type a result description announces. *)
Definition has_result_type (t : RPCResultType) (v : UniValue) : bool :=
  match t, v with
  | Type_OBJ, VOBJ _ => true
  | Type_ARR, VARR _ => true
  | (Type_STR | Type_STR_HEX), VSTR _ => true
  | Type_NUM, VNUM _ => true
  | Type_BOOL, VBOOL _ => true
  | _, _ => false
  end.

(** A description that covers an object: every key of the object is the key
    of a described part, whose type the value under the key has. *)
Definition documents (help : RPCResult) (r : UniValue) : Prop :=
  forall key,
    exists_ r key = true ->
    exists field,
      In field (result_inner help)
      /\ result_key field = key
      /\ has_result_type (result_type field) (find_value r key) = true.

(** * Properties *)

(** ** Integers and JSON objects *)

Lemma wrap_int_id (z : Z) : int_range z -> wrap_int z = z.
Proof.
  unfold int_range, wrap_int, INT_MIN, INT_MAX.
  intros H. rewrite Z.mod_small; lia.
Qed.

Lemma in_int_true (z : Z) : in_int z = true <-> int_range z.
Proof.
  unfold in_int, int_range. rewrite andb_true_iff, !Z.leb_le. tauto.
Qed.

Lemma findKey_replaceKey_same kvs key val :
  findKey (replaceKey kvs key val) key = Some val.
Proof.
  induction kvs as [|[k v] rest IH]; simpl.
  - now rewrite String.eqb_refl.
  - destruct (String.eqb k key) eqn:E; simpl; now rewrite E.
Qed.

Lemma findKey_replaceKey_other kvs key val key' :
  key <> key' ->
  findKey (replaceKey kvs key val) key' = findKey kvs key'.
Proof.
  intros Hne. induction kvs as [|[k v] rest IH]; simpl.
  - destruct (String.eqb_spec key key'); congruence.
  - destruct (String.eqb_spec k key) as [->|Hk]; simpl.
    + destruct (String.eqb_spec key key'); congruence.
    + now rewrite IH.
Qed.

Lemma find_value_pushKV_same kvs key val :
  find_value (pushKV (VOBJ kvs) key val) key = val.
Proof. simpl. now rewrite findKey_replaceKey_same. Qed.

Lemma find_value_pushKV_other o key val key' :
  key <> key' -> find_value (pushKV o key val) key' = find_value o key'.
Proof.
  intros Hne. destruct o; simpl; trivial.
  now rewrite findKey_replaceKey_other.
Qed.

(** ** The monad *)

Lemma bind_inr {A B} (m : M A) (k : A -> M B) w a w1 :
  m w = (inr a, w1) -> bind m k w = k a w1.
Proof. unfold bind. now intros ->. Qed.

Lemma bind_inl {A B} (m : M A) (k : A -> M B) w e w1 :
  m w = (inl e, w1) -> bind m k w = (inl e, w1).
Proof. unfold bind. now intros ->. Qed.

Lemma bind_inv {A B} (m : M A) (k : A -> M B) w b w' :
  bind m k w = (inr b, w') ->
  exists a w1, m w = (inr a, w1) /\ k a w1 = (inr b, w').
Proof.
  unfold bind. destruct (m w) as [[e|a] w1]; intros H.
  - discriminate.
  - now exists a, w1.
Qed.

Lemma bind_lift {A B} (r : Result A) (k : A -> M B) w :
  bind (lift r) k w
  = match r with inr a => k a w | inl e => (inl e, w) end.
Proof. unfold bind, lift. now destruct r. Qed.

Lemma pure_ret {A} (a : A) : pure_result (ret a).
Proof. now intros w1 w2. Qed.

Lemma pure_throw {A} e : pure_result (@throw A e).
Proof. now intros w1 w2. Qed.

Lemma pure_lift {A} (r : Result A) : pure_result (lift r).
Proof. now intros w1 w2. Qed.

Lemma pure_LogPrintf line : pure_result (LogPrintf line).
Proof. now intros w1 w2. Qed.

Lemma pure_next_called : pure_result next_called.
Proof. now intros w1 w2. Qed.

Lemma pure_bind {A B} (m : M A) (k : A -> M B) :
  pure_result m -> (forall a, pure_result (k a)) -> pure_result (bind m k).
Proof.
  intros Hm Hk w1 w2. unfold bind.
  specialize (Hm w1 w2).
  destruct (m w1) as [[e1|a1] w1'], (m w2) as [[e2|a2] w2']; simpl in Hm;
    try discriminate.
  - now injection Hm as ->.
  - injection Hm as ->. apply Hk.
Qed.

Lemma pure_when b (m : M unit) : pure_result m -> pure_result (when_ b m).
Proof. destruct b; simpl; auto using pure_ret. Qed.

Lemma pure_if {A} (b : bool) (m1 m2 : M A) :
  pure_result m1 -> pure_result m2 -> pure_result (if b then m1 else m2).
Proof. now destruct b. Qed.

Create HintDb pure.

#[local] Hint Resolve pure_ret pure_throw pure_lift pure_LogPrintf
  pure_next_called pure_when pure_if : pure.

(** The result of a bind between computations of that kind. *)
Lemma fst_bind {A B} (m : M A) (k : A -> M B) w :
  (forall a, pure_result (k a)) ->
  fst (bind m k w)
  = match fst (m w) with inl e => inl e | inr a => fst (k a w) end.
Proof.
  intros Hk. unfold bind. destruct (m w) as [[e|a] w1]; simpl; trivial.
  apply Hk.
Qed.

(** ** Options: encodings *)

Lemma map_of_single field t : map_of [(field, t)] = [(field, t)].
Proof. reflexivity. Qed.

Lemma find_value_exists o key :
  find_value o key <> VNULL -> exists_ o key = true.
Proof.
  destruct o; simpl; try congruence.
  destruct (findKey kvs key); congruence.
Qed.

Lemma EncodingFromString_None str :
  str <> "ascii" -> str <> "utf8" -> str <> "hex" ->
  EncodingFromString str = None.
Proof.
  intros H1 H2 H3. unfold EncodingFromString.
  destruct (String.eqb_spec str "ascii"); [congruence|].
  destruct (String.eqb_spec str "utf8"); [congruence|].
  destruct (String.eqb_spec str "hex"); [congruence|].
  reflexivity.
Qed.

Lemma EncodingFromOptionsJson_absent options field defaultValue w :
  exists_ options field = false ->
  EncodingFromOptionsJson options field defaultValue w
  = (inr defaultValue, w).
Proof.
  intros Hex. unfold EncodingFromOptionsJson.
  assert (Hnull : find_value options field = VNULL).
  { destruct options; simpl in *; trivial.
    destruct (findKey kvs field); congruence. }
  rewrite bind_lift. unfold RPCTypeCheckObj. rewrite map_of_single.
  simpl. rewrite Hnull. simpl. now rewrite Hex.
Qed.

Lemma pure_EncodingFromOptionsJson options field defaultValue :
  pure_result (EncodingFromOptionsJson options field defaultValue).
Proof.
  unfold EncodingFromOptionsJson.
  apply pure_bind; auto with pure. intros _.
  apply pure_if; auto with pure.
  apply pure_bind; auto with pure. intros str.
  destruct (EncodingFromString str); auto with pure.
  apply pure_bind; auto with pure.
Qed.

Lemma EncodingFromOptionsJson_falls_back
  (options : UniValue) (field : string) (defaultValue : NameEncoding)
  (str : string) (w : World) :
  find_value options field = VSTR str ->
  str <> "ascii" -> str <> "utf8" -> str <> "hex" ->
  exists line,
    EncodingFromOptionsJson options field defaultValue w
    = (inr defaultValue, mkWorld (w_log w ++ [line]) (w_reads w) (w_files w)).
Proof.
  intros Hv H1 H2 H3. unfold EncodingFromOptionsJson.
  rewrite bind_lift. unfold RPCTypeCheckObj. rewrite map_of_single.
  simpl. rewrite Hv. simpl.
  rewrite find_value_exists by (rewrite Hv; discriminate).
  rewrite bind_lift. simpl.
  rewrite (EncodingFromString_None str H1 H2 H3).
  eexists. unfold bind, LogPrintf, ret. reflexivity.
Qed.

Lemma DecodeNameValueFromRPCOrThrow_with env val opt optKey defaultEnc w w1 :
  EncodingFromOptionsJson opt optKey defaultEnc w = (inr defaultEnc, w1) ->
  fst (DecodeNameValueFromRPCOrThrow env val opt optKey defaultEnc w)
  = decode_with env val defaultEnc.
Proof.
  intros H. unfold DecodeNameValueFromRPCOrThrow, decode_with.
  rewrite (bind_inr _ _ _ _ _ H), bind_lift.
  destruct (get_str val) as [e|s]; trivial.
  now destruct (DecodeName env s defaultEnc).
Qed.

(** C9: when an encoding option holds a string other than "ascii", "utf8"
    and "hex", [EncodingFromOptionsJson] raises no error: it returns the
    default it was given and adds one line to the log, leaving the rest of
    the world as it was.  The callers give the configured encoding of the
    field: names and values of the request are then decoded with it, and the
    records built by [getNameInfo] are encoded with it. *)
Theorem EncodingFromOptionsJson_invalid_string (env : Env)
  (options : UniValue) (field str : string) :
  find_value options field = VSTR str ->
  str <> "ascii" -> str <> "utf8" -> str <> "hex" ->
  (forall defaultValue w,
     exists line,
       EncodingFromOptionsJson options field defaultValue w
       = (inr defaultValue,
          mkWorld (w_log w ++ [line]) (w_reads w) (w_files w))) /\
  (field = "nameEncoding" ->
   forall val w,
     fst (DecodeNameFromRPCOrThrow env val options w)
     = decode_with env val (ConfiguredNameEncoding env)) /\
  (field = "valueEncoding" ->
   forall val w,
     fst (DecodeValueFromRPCOrThrow env val options w)
     = decode_with env val (ConfiguredValueEncoding env)) /\
  (forall name value outp addr w result w',
     getNameInfo env options name value outp addr w = (inr result, w') ->
     (field = "nameEncoding" ->
      find_value result "name_encoding"
      = VSTR (EncodingToString (ConfiguredNameEncoding env))) /\
     (field = "valueEncoding" ->
      find_value result "value_encoding"
      = VSTR (EncodingToString (ConfiguredValueEncoding env)))).
Proof.
  intros Hv H1 H2 H3.
  assert (Hback : forall defaultValue w,
             exists line,
               EncodingFromOptionsJson options field defaultValue w
               = (inr defaultValue,
                  mkWorld (w_log w ++ [line]) (w_reads w) (w_files w))).
  { intros d w. now apply (EncodingFromOptionsJson_falls_back _ _ _ str). }
  split; [exact Hback|split; [|split]].
  - intros -> val w.
    destruct (Hback (ConfiguredNameEncoding env) w) as [line Hline].
    unfold DecodeNameFromRPCOrThrow.
    exact (DecodeNameValueFromRPCOrThrow_with _ _ _ _ _ _ _ Hline).
  - intros -> val w.
    destruct (Hback (ConfiguredValueEncoding env) w) as [line Hline].
    unfold DecodeValueFromRPCOrThrow.
    exact (DecodeNameValueFromRPCOrThrow_with _ _ _ _ _ _ _ Hline).
  - intros name value outp addr w result w' H. unfold getNameInfo in H.
    apply bind_inv in H as (nameEnc & w1 & Hname & H).
    apply bind_inv in H as (valueEnc & w2 & Hvalue & H).
    injection H as <- _. unfold AddEncodedNameToUniv.
    split; intros ->.
    + destruct (Hback (ConfiguredNameEncoding env) w) as [line Hline].
      rewrite Hline in Hname. injection Hname as <- _.
      destruct (EncodeName env name _), (EncodeName env value _); reflexivity.
    + destruct (Hback (ConfiguredValueEncoding env) w1) as [line Hline].
      rewrite Hline in Hvalue. injection Hvalue as <- _.
      destruct (EncodeName env name _), (EncodeName env value _); reflexivity.
Qed.

Lemma EncodingFromOptionsJson_invalid_string_witness :
  exists line,
    EncodingFromOptionsJson (VOBJ [("nameEncoding", VSTR "latin1")])
      "nameEncoding" (ConfiguredNameEncoding Demo.node) Demo.world0
    = (inr ASCII, mkWorld [line] 0 []).
Proof.
  apply (proj1 (EncodingFromOptionsJson_invalid_string Demo.node
                  (VOBJ [("nameEncoding", VSTR "latin1")]) "nameEncoding"
                  "latin1" eq_refl ltac:(discriminate) ltac:(discriminate)
                  ltac:(discriminate))
           ASCII Demo.world0).
Defined.

(** ** Expiration *)

Lemma addExpirationInfo_fields (env : Env) (height : Z)
  (kvs : list (string * UniValue)) :
  let expiresIn := height + NameExpirationDepth env (Height env) - Height env in
  int_range (height + NameExpirationDepth env (Height env)) ->
  int_range expiresIn ->
  let result := addExpirationInfo env height (VOBJ kvs) in
  find_value result "height" = VNUM height /\
  find_value result "expires_in" = VNUM expiresIn /\
  find_value result "expired" = VBOOL (expiresIn <=? 0).
Proof.
  intros expiresIn Hh Hin result.
  unfold result, addExpirationInfo, int_sub, int_add.
  rewrite (wrap_int_id _ Hh). fold expiresIn.
  rewrite (wrap_int_id expiresIn Hin).
  split; [|split].
  - rewrite !find_value_pushKV_other by discriminate.
    apply find_value_pushKV_same.
  - rewrite find_value_pushKV_other by discriminate.
    cbn [pushKV]. apply find_value_pushKV_same.
  - cbn [pushKV]. apply find_value_pushKV_same.
Qed.

(** The record [getNameInfo] builds is an object. *)
Lemma getNameInfo_object env options name value outp addr w r w' :
  getNameInfo env options name value outp addr w = (inr r, w') ->
  exists kvs, r = VOBJ kvs.
Proof.
  unfold getNameInfo. intros H.
  apply bind_inv in H as (nameEnc & w1 & _ & H).
  apply bind_inv in H as (valueEnc & w2 & _ & H).
  injection H as <- _. unfold AddEncodedNameToUniv.
  destruct (EncodeName env name nameEnc), (EncodeName env value valueEnc);
    simpl; now eexists.
Qed.

(** C1: expiration info reports the height it was given, expires_in =
    height + NameExpirationDepth (current height) - current height, and
    expired = (expires_in <= 0), where the current height is the chain height
    of the node at the call: so does [addExpirationInfo] on an object, and so
    does the record that [getNameInfo] builds for name data of that height.
    A record of height 100 at chain height 105 with expiration depth 50 is
    reported with expires_in 45 and not expired. *)
Theorem addExpirationInfo_spec (env : Env) (height : Z) :
  let curHeight := Height env in
  let expireHeight := height + NameExpirationDepth env curHeight in
  let expiresIn := expireHeight - curHeight in
  int_range expireHeight ->
  int_range expiresIn ->
  let reported result :=
    find_value result "height" = VNUM height /\
    find_value result "expires_in" = VNUM expiresIn /\
    find_value result "expired" = VBOOL (expiresIn <=? 0) in
  (forall kvs, reported (addExpirationInfo env height (VOBJ kvs))) /\
  (forall options name data w result w',
     getHeight data = height ->
     getNameInfo_data env options name data w = (inr result, w') ->
     reported result) /\
  (height = 100 -> curHeight = 105 -> NameExpirationDepth env 105 = 50 ->
   forall kvs,
     let result := addExpirationInfo env height (VOBJ kvs) in
     find_value result "expires_in" = VNUM 45 /\
     find_value result "expired" = VBOOL false).
Proof.
  intros curHeight expireHeight expiresIn Hh Hin reported.
  split; [|split].
  - intros kvs. now apply addExpirationInfo_fields.
  - intros options name data w result w' Hheight H.
    unfold getNameInfo_data in H.
    apply bind_inv in H as (r0 & w1 & Hinfo & H).
    injection H as <- _.
    apply getNameInfo_object in Hinfo as [kvs ->].
    rewrite Hheight. now apply addExpirationInfo_fields.
  - intros H100 H105 H50 kvs result.
    destruct (addExpirationInfo_fields env height kvs Hh Hin)
      as (_ & Hin45 & Hexpired).
    fold result in Hin45, Hexpired. rewrite Hin45, Hexpired.
    unfold curHeight in H105. rewrite H105, H50, H100.
    split; reflexivity.
Qed.

Lemma addExpirationInfo_spec_witness :
  let result := addExpirationInfo Demo.node 100 (VOBJ []) in
  find_value result "height" = VNUM 100 /\
  find_value result "expires_in" = VNUM 45 /\
  find_value result "expired" = VBOOL false.
Proof.
  apply (proj1 (addExpirationInfo_spec Demo.node 100
                  ltac:(unfold int_range, INT_MIN, INT_MAX; simpl; lia)
                  ltac:(unfold int_range, INT_MIN, INT_MAX; simpl; lia))
           []).
Defined.

(** ** Options: the bag of name_scan *)

Lemma check_expected_ext o1 o2 typesExpected fAllowNull :
  (forall k t, In (k, t) typesExpected -> find_value o1 k = find_value o2 k) ->
  check_expected o1 typesExpected fAllowNull
  = check_expected o2 typesExpected fAllowNull.
Proof.
  induction typesExpected as [|[k t] rest IH]; intros H; simpl; trivial.
  rewrite (H k t) by now left.
  rewrite IH; trivial.
  intros k' t' Hin. apply (H k' t'). now right.
Qed.

Lemma check_expected_wrong o typesExpected fAllowNull k t :
  In (k, t) typesExpected ->
  isNull (find_value o k) = false ->
  VType_eqb (type (find_value o k)) t = false ->
  exists msg,
    check_expected o typesExpected fAllowNull
    = inl (JSONRPCError RPC_TYPE_ERROR msg).
Proof.
  intros Hin Hnull Hty.
  induction typesExpected as [|[k' t'] rest IH]; simpl; [contradiction|].
  destruct (negb fAllowNull && isNull (find_value o k')); [eauto|].
  destruct (negb (VType_eqb (type (find_value o k')) t'
                  || fAllowNull && isNull (find_value o k'))) eqn:E;
    [eauto|].
  destruct Hin as [Heq|Hin]; [|now apply IH].
  injection Heq as -> ->.
  rewrite Hty, Hnull, andb_false_r in E. discriminate.
Qed.

Lemma check_expected_ok o typesExpected :
  (forall k t, In (k, t) typesExpected ->
     isNull (find_value o k) || VType_eqb (type (find_value o k)) t = true) ->
  check_expected o typesExpected true = inr tt.
Proof.
  induction typesExpected as [|[k t] rest IH]; intros H; simpl; trivial.
  specialize (H k t (or_introl eq_refl)) as Hk.
  rewrite orb_comm in Hk. rewrite Hk. simpl.
  apply IH. intros k' t' Hin. apply H. now right.
Qed.

Lemma EncodingFromOptionsJson_ext o1 o2 field defaultValue :
  find_value o1 field = find_value o2 field ->
  exists_ o1 field = exists_ o2 field ->
  EncodingFromOptionsJson o1 field defaultValue
  = EncodingFromOptionsJson o2 field defaultValue.
Proof.
  intros Hv He. unfold EncodingFromOptionsJson, RPCTypeCheckObj.
  rewrite map_of_single. simpl. now rewrite Hv, He.
Qed.

Lemma scan_parse_options_ext env o1 o2 :
  same_on scan_keys o1 o2 ->
  scan_parse_options env o1 = scan_parse_options env o2.
Proof.
  intros H.
  assert (HT : RPCTypeCheckObj o1 scan_options true false
               = RPCTypeCheckObj o2 scan_options true false).
  { unfold RPCTypeCheckObj.
    rewrite (check_expected_ext o1 o2); trivial.
    intros k t Hin. apply H. simpl in Hin. unfold scan_keys.
    repeat (destruct Hin as [Hin|Hin];
            [injection Hin as <- <-; simpl; tauto|]).
    contradiction. }
  assert (HE : forall d, EncodingFromOptionsJson o1 "nameEncoding" d
                         = EncodingFromOptionsJson o2 "nameEncoding" d).
  { intros d. apply EncodingFromOptionsJson_ext; apply H; simpl; tauto. }
  destruct (H "minConf") as [Hv1 He1]; [simpl; tauto|].
  destruct (H "maxConf") as [Hv2 He2]; [simpl; tauto|].
  destruct (H "prefix") as [Hv3 He3]; [simpl; tauto|].
  destruct (H "regexp") as [Hv4 He4]; [simpl; tauto|].
  unfold scan_parse_options, DecodeNameFromRPCOrThrow,
    DecodeNameValueFromRPCOrThrow.
  now rewrite HT, HE, Hv1, He1, Hv2, He2, Hv3, He3, Hv4, He4.
Qed.

Lemma getNameInfo_wallet_ext env o1 o2 name data pwallet :
  same_on ["nameEncoding"; "valueEncoding"] o1 o2 ->
  getNameInfo_wallet env o1 name data pwallet
  = getNameInfo_wallet env o2 name data pwallet.
Proof.
  intros H.
  unfold getNameInfo_wallet, getNameInfo_data, getNameInfo.
  rewrite (EncodingFromOptionsJson_ext o1 o2 "nameEncoding")
    by (apply H; simpl; tauto).
  rewrite (EncodingFromOptionsJson_ext o1 o2 "valueEncoding")
    by (apply H; simpl; tauto).
  reflexivity.
Qed.

Lemma scan_loop_ext env o1 o2 pwallet maxHeight minHeight prefix haveRegexp
  regexp iter :
  (forall name data,
     getNameInfo_wallet env o1 name data pwallet
     = getNameInfo_wallet env o2 name data pwallet) ->
  forall count res w,
    scan_loop env o1 pwallet maxHeight minHeight prefix haveRegexp regexp
      iter count res w
    = scan_loop env o2 pwallet maxHeight minHeight prefix haveRegexp regexp
        iter count res w.
Proof.
  intros H. induction iter as [|[name data] iter' IH]; intros count res w;
    simpl; trivial.
  destruct (count >? 0); trivial.
  unfold bind at 1 3. simpl.
  repeat match goal with
         | |- context [if ?b then _ else _] => destruct b; [apply IH|]
         end.
  rewrite H. unfold bind.
  destruct (getNameInfo_wallet env o2 name data pwallet _) as [[e|info] w1];
    trivial.
Qed.

Lemma bind_ret {A B} (a : A) (k : A -> M B) w : bind (ret a) k w = k a w.
Proof. reflexivity. Qed.

Lemma bind_throw {A B} e (k : A -> M B) w :
  bind (throw e) k w = (inl e, w).
Proof. reflexivity. Qed.

Lemma name_scan_ext env fHelp start count kvs1 kvs2 w :
  same_on options_keys (VOBJ kvs1) (VOBJ kvs2) ->
  name_scan env (mkRequest fHelp [start; count; VOBJ kvs1]) w
  = name_scan env (mkRequest fHelp [start; count; VOBJ kvs2]) w.
Proof.
  intros H.
  assert (Hs : same_on scan_keys (VOBJ kvs1) (VOBJ kvs2)).
  { intros k Hin. apply H. now right. }
  assert (He : same_on ["nameEncoding"; "valueEncoding"]
                 (VOBJ kvs1) (VOBJ kvs2)).
  { intros k Hin. apply H. unfold options_keys, scan_keys.
    simpl in *. tauto. }
  unfold name_scan, options_at, params_size, param.
  cbn [params nth List.length Nat.ltb Nat.leb]. unfold get_obj.
  change (RPCHelpMan_Check "name_scan" 0 3 (mkRequest fHelp [start; count; VOBJ kvs1]))
    with (RPCHelpMan_Check "name_scan" 0 3 (mkRequest fHelp [start; count; VOBJ kvs2])).
  change (RPCTypeCheck [start; count; VOBJ kvs1] [TSTR; TNUM; TOBJ] false)
    with (RPCTypeCheck [start; count; VOBJ kvs2] [TSTR; TNUM; TOBJ] false).
  rewrite ?bind_lift.
  destruct (RPCHelpMan_Check _ _ _ _); trivial.
  rewrite ?bind_lift.
  destruct (RPCTypeCheck _ _ _); trivial.
  unfold IBD_check, when_.
  destruct (IsInitialBlockDownload env); [reflexivity|].
  rewrite !bind_ret, !bind_lift.
  unfold DecodeNameFromRPCOrThrow, DecodeNameValueFromRPCOrThrow.
  rewrite (EncodingFromOptionsJson_ext (VOBJ kvs1) (VOBJ kvs2) "nameEncoding")
    by (apply He; simpl; tauto).
  rewrite (scan_parse_options_ext env _ _ Hs).
  unfold bind.
  repeat match goal with
         | |- context [match ?m ?w0 with (_, _) => _ end] =>
             destruct (m w0) as [[?|?] ?]; trivial
         end.
  unfold scan_names.
  destruct (_ <=? 0); trivial.
  apply scan_loop_ext. intros name data.
  now apply getNameInfo_wallet_ext.
Qed.

Lemma VType_eqb_eq a b : VType_eqb a b = true <-> a = b.
Proof. destruct a, b; simpl; split; congruence. Qed.

Lemma VType_eqb_neq a b : a <> b -> VType_eqb a b = false.
Proof.
  intros H. destruct (VType_eqb a b) eqn:E; trivial.
  apply VType_eqb_eq in E. contradiction.
Qed.

Lemma same_on_cons keys key val kvs :
  ~ In key keys -> same_on keys (VOBJ ((key, val) :: kvs)) (VOBJ kvs).
Proof.
  intros Hnotin k Hin. simpl.
  destruct (String.eqb_spec key k) as [->|Hne]; [contradiction|].
  split; reflexivity.
Qed.

Lemma scan_parse_options_type_error env options k t w :
  In (k, t) scan_options ->
  isNull (find_value options k) = false ->
  type (find_value options k) <> t ->
  exists msg,
    scan_parse_options env options w
    = (inl (JSONRPCError RPC_TYPE_ERROR msg), w).
Proof.
  intros Hin Hnull Hty.
  destruct (check_expected_wrong options (map_of scan_options) true k t)
    as [msg Hmsg]; trivial.
  - simpl in *. tauto.
  - now apply VType_eqb_neq.
  - exists msg. unfold scan_parse_options, RPCTypeCheckObj.
    rewrite Hmsg. reflexivity.
Qed.

Lemma EncodingFromOptionsJson_type_error options field d w :
  isNull (find_value options field) = false ->
  type (find_value options field) <> TSTR ->
  exists msg,
    EncodingFromOptionsJson options field d w
    = (inl (JSONRPCError RPC_TYPE_ERROR msg), w).
Proof.
  intros Hnull Hty.
  destruct (check_expected_wrong options (map_of [(field, TSTR)]) true
              field TSTR) as [msg Hmsg]; trivial.
  - now left.
  - now apply VType_eqb_neq.
  - exists msg. unfold EncodingFromOptionsJson, RPCTypeCheckObj.
    rewrite Hmsg. reflexivity.
Qed.

Lemma scan_parse_options_defaults env options w f w' :
  scan_parse_options env options w = (inr f, w') ->
  (exists_ options "minConf" = false -> minConf f = 1) /\
  (exists_ options "maxConf" = false -> maxConf f = -1) /\
  (exists_ options "prefix" = false -> prefix f = EmptyString) /\
  (exists_ options "regexp" = false -> haveRegexp f = false).
Proof.
  unfold scan_parse_options. intros H.
  apply bind_inv in H as (_ & w1 & _ & H).
  apply bind_inv in H as (minC & w2 & HminC & H).
  apply bind_inv in H as (_ & w3 & _ & H).
  apply bind_inv in H as (maxC & w4 & HmaxC & H).
  apply bind_inv in H as (pre & w5 & Hpre & H).
  apply bind_inv in H as (re & w6 & Hre & H).
  injection H as <- _. simpl.
  repeat split; intros Hex.
  - rewrite Hex in HminC. now injection HminC as <- _.
  - rewrite Hex in HmaxC. now injection HmaxC as <- _.
  - rewrite Hex in Hpre. now injection Hpre as <- _.
  - rewrite Hex in Hre. now injection Hre as <- _.
Qed.

(** C3, amended: [name_scan] does not look at the keys of its options other
    than nameEncoding, valueEncoding, minConf, maxConf, prefix and regexp
    (two bags that agree on these give the same run); a value that is
    neither null nor of the expected type under minConf, maxConf, prefix or
    regexp, or under the key [EncodingFromOptionsJson] reads, is refused
    with a type error; the keys that are missing stand for minConf 1, no
    maxConf, the empty prefix, no regexp and the default encoding. *)
Theorem name_scan_options_bag (env : Env) :
  (forall fHelp start count kvs1 kvs2 w,
     same_on options_keys (VOBJ kvs1) (VOBJ kvs2) ->
     name_scan env (mkRequest fHelp [start; count; VOBJ kvs1]) w
     = name_scan env (mkRequest fHelp [start; count; VOBJ kvs2]) w) /\
  (forall options k t w,
     In (k, t) scan_options ->
     isNull (find_value options k) = false ->
     type (find_value options k) <> t ->
     exists msg,
       scan_parse_options env options w
       = (inl (JSONRPCError RPC_TYPE_ERROR msg), w)) /\
  (forall options field defaultValue w,
     isNull (find_value options field) = false ->
     type (find_value options field) <> TSTR ->
     exists msg,
       EncodingFromOptionsJson options field defaultValue w
       = (inl (JSONRPCError RPC_TYPE_ERROR msg), w)) /\
  (forall options w f w',
     scan_parse_options env options w = (inr f, w') ->
     (exists_ options "minConf" = false -> minConf f = 1) /\
     (exists_ options "maxConf" = false -> maxConf f = -1) /\
     (exists_ options "prefix" = false -> prefix f = EmptyString) /\
     (exists_ options "regexp" = false -> haveRegexp f = false)) /\
  (forall options field defaultValue w,
     exists_ options field = false ->
     EncodingFromOptionsJson options field defaultValue w
     = (inr defaultValue, w)).
Proof.
  split; [|split; [|split; [|split]]].
  - intros. now apply name_scan_ext.
  - intros options k t w. apply scan_parse_options_type_error.
  - intros options field d w. apply EncodingFromOptionsJson_type_error.
  - intros options w f w'. apply scan_parse_options_defaults.
  - intros. now apply EncodingFromOptionsJson_absent.
Qed.

Lemma name_scan_options_bag_witness :
  name_scan Demo.node bogus_request Demo.world0
  = name_scan Demo.node (mkRequest false [VSTR "d/a"; VNUM 1; VOBJ []])
      Demo.world0.
Proof.
  apply (proj1 (name_scan_options_bag Demo.node)).
  apply same_on_cons. unfold options_keys, scan_keys. simpl.
  intros H. repeat (destruct H as [H|H]; [discriminate|]). exact H.
Defined.

Lemma unknown_keys_rejected_counterexample :
  ~ unknown_keys_rejected Demo.node bogus_request Demo.world0.
Proof.
  intros H. destruct (H "bogus") as [e He].
  - simpl. now left.
  - unfold options_keys, scan_keys. simpl.
    intros Hin. repeat (destruct Hin as [Hin|Hin]; [discriminate|]).
    exact Hin.
  - vm_compute in He. discriminate.
Qed.

(** ** Initial checks of a scan *)

Lemma only_logs_ret {A} (a : A) : only_logs (ret a).
Proof. now intros w. Qed.

Lemma only_logs_throw {A} e : only_logs (@throw A e).
Proof. now intros w. Qed.

Lemma only_logs_lift {A} (r : Result A) : only_logs (lift r).
Proof. now intros w. Qed.

Lemma only_logs_LogPrintf line : only_logs (LogPrintf line).
Proof. now intros w. Qed.

Lemma only_logs_bind {A B} (m : M A) (k : A -> M B) :
  only_logs m -> (forall a, only_logs (k a)) -> only_logs (bind m k).
Proof.
  intros Hm Hk w. unfold bind. specialize (Hm w).
  destruct (m w) as [[e|a] w1]; simpl in *; trivial.
  destruct Hm as [<- <-]. apply Hk.
Qed.

Lemma only_logs_when b (m : M unit) : only_logs m -> only_logs (when_ b m).
Proof. destruct b; simpl; auto using only_logs_ret. Qed.

Lemma only_logs_if {A} (b : bool) (m1 m2 : M A) :
  only_logs m1 -> only_logs m2 -> only_logs (if b then m1 else m2).
Proof. now destruct b. Qed.

Create HintDb logs.

#[local] Hint Resolve only_logs_ret only_logs_throw only_logs_lift
  only_logs_LogPrintf only_logs_when only_logs_if : logs.

Ltac only_logs_step :=
  repeat first
    [ solve [auto with logs]
    | apply only_logs_bind; [|intros ?]
    | match goal with
      | |- only_logs (match ?x with _ => _ end) => destruct x
      end ].

Lemma only_logs_EncodingFromOptionsJson options field defaultValue :
  only_logs (EncodingFromOptionsJson options field defaultValue).
Proof.
  unfold EncodingFromOptionsJson. only_logs_step.
Qed.

#[local] Hint Resolve only_logs_EncodingFromOptionsJson : logs.

Lemma only_logs_DecodeNameFromRPCOrThrow env val opt :
  only_logs (DecodeNameFromRPCOrThrow env val opt).
Proof.
  unfold DecodeNameFromRPCOrThrow, DecodeNameValueFromRPCOrThrow.
  only_logs_step.
Qed.

#[local] Hint Resolve only_logs_DecodeNameFromRPCOrThrow : logs.

Lemma only_logs_scan_parse_options env options :
  only_logs (scan_parse_options env options).
Proof.
  unfold scan_parse_options. only_logs_step.
Qed.

Lemma fails_unread_bind {A B} (m : M A) (k : A -> M B) :
  only_logs m ->
  (forall w a w1, m w = (inr a, w1) -> fails_unread (k a)) ->
  fails_unread (bind m k).
Proof.
  intros Hm Hk w. unfold bind. destruct (Hm w) as [Hm' _].
  specialize (Hk w).
  destruct (m w) as [[e|a] w1]; simpl in *.
  - now exists e, w1.
  - destruct (Hk a w1 eq_refl w1) as (e & w' & -> & Hr).
    exists e, w'. split; [reflexivity|congruence].
Qed.

Lemma fails_unread_first {A B} (m : M A) (k : A -> M B) :
  fails_unread m -> fails_unread (bind m k).
Proof.
  intros Hm w. destruct (Hm w) as (e & w' & Hw & Hr).
  exists e, w'. split; trivial. unfold bind. now rewrite Hw.
Qed.

Lemma param_beyond request i :
  (i <? params_size request)%nat = false -> param request i = VNULL.
Proof.
  unfold param, params_size. intros H. apply Nat.ltb_ge in H.
  now apply nth_overflow.
Qed.

(** A scan whose options do not pass the initial checks fails before the
    first call of [next]. *)
Lemma name_scan_fails_unread env request :
  fails_unread (scan_parse_options env (param request 2)) ->
  find_value (param request 2) "minConf" <> VNULL
  \/ find_value (param request 2) "maxConf" <> VNULL
  \/ find_value (param request 2) "regexp" <> VNULL ->
  fails_unread (name_scan env request).
Proof.
  intros Hfail Hopt. unfold name_scan.
  apply fails_unread_bind; [auto with logs|intros _ _ _ _].
  apply fails_unread_bind; [auto with logs|intros _ _ _ _].
  apply fails_unread_bind;
    [unfold IBD_check; only_logs_step|intros _ _ _ _].
  apply fails_unread_bind.
  { unfold options_at. only_logs_step. }
  intros w options w1 Hoptions.
  assert (options = param request 2) as ->.
  { unfold options_at in Hoptions.
    destruct (2 <? params_size request)%nat eqn:E.
    - unfold lift, get_obj in Hoptions.
      destruct (param request 2); try discriminate.
      now injection Hoptions as <- _.
    - rewrite (param_beyond _ _ E) in Hopt. simpl in Hopt. tauto. }
  apply fails_unread_bind; [only_logs_step|intros _ start _ _].
  apply fails_unread_bind; [only_logs_step|intros _ count _ _].
  now apply fails_unread_first.
Qed.

Lemma get_int_VNUM z : int_range z -> get_int (VNUM z) = inr z.
Proof. intros H. simpl. now rewrite (proj2 (in_int_true z) H). Qed.

Lemma get_int_inv v z : get_int v = inr z -> v = VNUM z.
Proof.
  destruct v; simpl; try discriminate.
  destruct (in_int z0); congruence.
Qed.

Lemma lift_inv {A} (r : Result A) w a w' :
  lift r w = (inr a, w') -> r = inr a /\ w' = w.
Proof. unfold lift. intros H. now injection H as -> ->. Qed.

(** What the options satisfy when they pass the initial checks. *)
Lemma scan_parse_options_accepts env options w f w' :
  scan_parse_options env options w = (inr f, w') ->
  (forall z, find_value options "minConf" = VNUM z -> 1 <= z) /\
  (forall z, find_value options "maxConf" = VNUM z -> 0 <= z) /\
  (forall p, find_value options "regexp" = VSTR p ->
             regex_valid env p = true).
Proof.
  unfold scan_parse_options. intros H.
  apply bind_inv in H as (_ & w1 & _ & H).
  apply bind_inv in H as (minC & w2 & HminC & H).
  apply bind_inv in H as (u & w3 & Hmin1 & H).
  apply bind_inv in H as (maxC & w4 & HmaxC & H).
  apply bind_inv in H as (pre & w5 & _ & H).
  apply bind_inv in H as (re & w6 & Hre & _).
  repeat split.
  - intros z Hz.
    rewrite find_value_exists in HminC by (rewrite Hz; discriminate).
    apply lift_inv in HminC as [HminC _].
    apply get_int_inv in HminC. rewrite Hz in HminC.
    injection HminC as Heq. subst minC.
    destruct (Z.ltb_spec z 1); [discriminate|lia].
  - intros z Hz.
    rewrite find_value_exists in HmaxC by (rewrite Hz; discriminate).
    apply bind_inv in HmaxC as (z' & w7 & Hz' & HmaxC).
    apply lift_inv in Hz' as [Hz' _].
    apply get_int_inv in Hz'. rewrite Hz in Hz'.
    injection Hz' as Heq. subst z'.
    apply bind_inv in HmaxC as (u' & w8 & HmaxC & _).
    destruct (Z.ltb_spec z 0); [discriminate|lia].
  - intros p Hp.
    rewrite find_value_exists in Hre by (rewrite Hp; discriminate).
    rewrite Hp in Hre. rewrite bind_lift in Hre. simpl in Hre.
    destruct (regex_valid env p); [reflexivity|discriminate].
Qed.

Lemma scan_parse_options_fails env options :
  (forall w f w', scan_parse_options env options w <> (inr f, w')) ->
  fails_unread (scan_parse_options env options).
Proof.
  intros H w.
  destruct (only_logs_scan_parse_options env options w) as [Hr _].
  destruct (scan_parse_options env options w) as [[e|f] w'] eqn:E.
  - now exists e, w'.
  - now destruct (H w f w').
Qed.

Lemma minConf_step options (k : Z -> M ScanFilter) w :
  minConf_accepted options ->
  bind (if exists_ options "minConf"
        then lift (get_int (find_value options "minConf"))
        else ret 1)
    (fun minConf =>
       when_ (minConf <? 1)
         (throw (JSONRPCError RPC_INVALID_PARAMETER
                   "minConf must be >= 1")) ;;; k minConf) w
  = k (number_or options "minConf" 1) w.
Proof.
  unfold number_or. intros [Habs|(m & Hm & Hr & H1)].
  - rewrite Habs.
    assert (find_value options "minConf" = VNULL) as ->; [|reflexivity].
    destruct options; simpl in *; trivial.
    destruct (findKey kvs "minConf"); congruence.
  - rewrite find_value_exists by (rewrite Hm; discriminate).
    rewrite Hm, bind_lift, (get_int_VNUM m Hr).
    destruct (Z.ltb_spec m 1); [lia|]. reflexivity.
Qed.

Lemma maxConf_step options (k : Z -> M ScanFilter) w :
  maxConf_accepted options ->
  bind (if exists_ options "maxConf"
        then
          maxConf <- lift (get_int (find_value options "maxConf")) ;;
          when_ (maxConf <? 0)
            (throw (JSONRPCError RPC_INVALID_PARAMETER
                      "maxConf must not be negative")) ;;;
          ret maxConf
        else ret (-1)) k w
  = k (number_or options "maxConf" (-1)) w.
Proof.
  unfold number_or. intros [Habs|(m & Hm & Hr & H1)].
  - rewrite Habs.
    assert (find_value options "maxConf" = VNULL) as ->; [|reflexivity].
    destruct options; simpl in *; trivial.
    destruct (findKey kvs "maxConf"); congruence.
  - rewrite find_value_exists by (rewrite Hm; discriminate).
    rewrite Hm. unfold bind at 1. rewrite bind_lift, (get_int_VNUM m Hr).
    destruct (Z.ltb_spec m 0); [lia|]. reflexivity.
Qed.

Lemma scan_parse_options_ints env options w f w' :
  scan_parse_options env options w = (inr f, w') ->
  (forall z, find_value options "minConf" = VNUM z -> int_range z) /\
  (forall z, find_value options "maxConf" = VNUM z -> int_range z).
Proof.
  unfold scan_parse_options. intros H.
  apply bind_inv in H as (_ & w1 & _ & H).
  apply bind_inv in H as (minC & w2 & HminC & H).
  apply bind_inv in H as (u & w3 & Hmin1 & H).
  apply bind_inv in H as (maxC & w4 & HmaxC & _).
  assert (Hget : forall z z', get_int (VNUM z) = inr z' -> int_range z).
  { intros z z' Hg. simpl in Hg. destruct (in_int z) eqn:E; [|discriminate].
    now apply in_int_true. }
  split; intros z Hz.
  - rewrite find_value_exists in HminC by (rewrite Hz; discriminate).
    apply lift_inv in HminC as [HminC _]. rewrite Hz in HminC.
    exact (Hget z minC HminC).
  - rewrite find_value_exists in HmaxC by (rewrite Hz; discriminate).
    apply bind_inv in HmaxC as (z' & w7 & Hz' & _).
    apply lift_inv in Hz' as [Hz' _]. rewrite Hz in Hz'.
    exact (Hget z z' Hz').
Qed.

Lemma get_int_out_of_range z :
  ~ int_range z ->
  get_int (VNUM z) = inl (runtime_error "JSON integer out of range").
Proof.
  intros Hout. simpl. destruct (in_int z) eqn:E; [|reflexivity].
  apply in_int_true in E. contradiction.
Qed.

(** C7, amended: the options of a scan that pass the type check are checked
    in the order minConf, maxConf, prefix, regexp, and the first check that
    fails gives the error.  A minConf that fits an int and is below 1 is
    refused with an invalid-parameter error, and so is, when minConf is
    accepted, a maxConf that fits an int and is negative; a minConf or
    maxConf that does not fit an int is refused with the out-of-range error
    of the JSON reader instead.  A prefix that does not decode is refused,
    when minConf and maxConf are accepted, with the error of its decoding.
    A regexp whose pattern does not compile is refused, when the checks
    before it pass, with the error of the regular expression library, which
    is no invalid-parameter error.  In each of these cases the scan request
    as a whole fails before [next] is called on the iterator. *)
Theorem name_scan_initial_checks (env : Env) :
  (forall options z w,
     RPCTypeCheckObj options scan_options true false = inr tt ->
     find_value options "minConf" = VNUM z -> int_range z -> z < 1 ->
     scan_parse_options env options w
     = (inl (JSONRPCError RPC_INVALID_PARAMETER "minConf must be >= 1"), w)) /\
  (forall options z w,
     RPCTypeCheckObj options scan_options true false = inr tt ->
     find_value options "minConf" = VNUM z -> ~ int_range z ->
     scan_parse_options env options w
     = (inl (runtime_error "JSON integer out of range"), w)) /\
  (forall options z w,
     RPCTypeCheckObj options scan_options true false = inr tt ->
     minConf_accepted options ->
     find_value options "maxConf" = VNUM z -> int_range z -> z < 0 ->
     scan_parse_options env options w
     = (inl (JSONRPCError RPC_INVALID_PARAMETER
               "maxConf must not be negative"), w)) /\
  (forall options z w,
     RPCTypeCheckObj options scan_options true false = inr tt ->
     minConf_accepted options ->
     find_value options "maxConf" = VNUM z -> ~ int_range z ->
     scan_parse_options env options w
     = (inl (runtime_error "JSON integer out of range"), w)) /\
  (forall options w e w',
     RPCTypeCheckObj options scan_options true false = inr tt ->
     minConf_accepted options -> maxConf_accepted options ->
     exists_ options "prefix" = true ->
     DecodeNameFromRPCOrThrow env (find_value options "prefix") options w
     = (inl e, w') ->
     scan_parse_options env options w = (inl e, w')) /\
  (forall options pattern w,
     RPCTypeCheckObj options scan_options true false = inr tt ->
     minConf_accepted options -> maxConf_accepted options ->
     prefix_accepted env options ->
     find_value options "regexp" = VSTR pattern ->
     regex_valid env pattern = false ->
     exists w',
       scan_parse_options env options w = (inl (regex_error pattern), w')) /\
  (forall request,
     (exists z, find_value (param request 2) "minConf" = VNUM z
                /\ (z < 1 \/ ~ int_range z))
     \/ (exists z, find_value (param request 2) "maxConf" = VNUM z
                   /\ (z < 0 \/ ~ int_range z))
     \/ (exists pattern,
           find_value (param request 2) "regexp" = VSTR pattern
           /\ regex_valid env pattern = false) ->
     forall w, exists e w',
       name_scan env request w = (inl e, w') /\ w_reads w' = w_reads w).
Proof.
  split; [|split; [|split; [|split; [|split; [|split]]]]].
  - intros options z w HT Hz Hr Hlt. unfold scan_parse_options.
    rewrite HT, bind_lift.
    rewrite find_value_exists by (rewrite Hz; discriminate).
    rewrite Hz, bind_lift, (get_int_VNUM z Hr).
    destruct (Z.ltb_spec z 1); [reflexivity|lia].
  - intros options z w HT Hz Hout. unfold scan_parse_options.
    rewrite HT, bind_lift.
    rewrite find_value_exists by (rewrite Hz; discriminate).
    now rewrite Hz, bind_lift, (get_int_out_of_range z Hout).
  - intros options z w HT Hmin Hz Hr Hlt. unfold scan_parse_options.
    rewrite HT, bind_lift.
    rewrite minConf_step by assumption.
    rewrite find_value_exists by (rewrite Hz; discriminate).
    rewrite Hz. unfold bind at 1. rewrite bind_lift, (get_int_VNUM z Hr).
    destruct (Z.ltb_spec z 0); [reflexivity|lia].
  - intros options z w HT Hmin Hz Hout. unfold scan_parse_options.
    rewrite HT, bind_lift.
    rewrite minConf_step by assumption.
    rewrite find_value_exists by (rewrite Hz; discriminate).
    rewrite Hz. unfold bind at 1.
    now rewrite bind_lift, (get_int_out_of_range z Hout).
  - intros options w e w' HT Hmin Hmax Hpre Hdec.
    unfold scan_parse_options. rewrite HT, bind_lift.
    rewrite minConf_step by assumption.
    rewrite maxConf_step by assumption.
    rewrite Hpre. now rewrite (bind_inl _ _ _ _ _ Hdec).
  - intros options pattern w HT Hmin Hmax Hpre Hp Hinv.
    unfold scan_parse_options. rewrite HT, bind_lift.
    rewrite minConf_step by assumption.
    rewrite maxConf_step by assumption.
    rewrite (find_value_exists options "regexp")
      by (rewrite Hp; discriminate).
    rewrite Hp.
    destruct Hpre as [Habs|Hdec].
    + rewrite Habs. exists w. rewrite bind_ret. unfold bind at 1.
      rewrite bind_lift. simpl. now rewrite Hinv.
    + destruct (exists_ options "prefix").
      * destruct (Hdec w) as (r & w' & Hw'). exists w'.
        rewrite (bind_inr _ _ _ _ _ Hw'). unfold bind at 1.
        rewrite bind_lift. simpl. now rewrite Hinv.
      * exists w. rewrite bind_ret. unfold bind at 1.
        rewrite bind_lift. simpl. now rewrite Hinv.
  - intros request Hcase. apply name_scan_fails_unread.
    + apply scan_parse_options_fails. intros w f w' Hok.
      pose proof (scan_parse_options_ints env _ w f w' Hok) as [Imin Imax].
      apply scan_parse_options_accepts in Hok as (Hmin & Hmax & Hre).
      destruct Hcase as [(z & Hz & Hlt)|[(z & Hz & Hlt)|(p & Hp & Hinv)]].
      * specialize (Hmin z Hz). specialize (Imin z Hz).
        destruct Hlt as [Hlt|Hout]; [lia|contradiction].
      * specialize (Hmax z Hz). specialize (Imax z Hz).
        destruct Hlt as [Hlt|Hout]; [lia|contradiction].
      * specialize (Hre p Hp). congruence.
    + destruct Hcase as [(z & Hz & _)|[(z & Hz & _)|(p & Hp & _)]].
      * left. rewrite Hz. discriminate.
      * right. left. rewrite Hz. discriminate.
      * right. right. rewrite Hp. discriminate.
Qed.

Lemma name_scan_initial_checks_witness :
  exists e w',
    name_scan Demo.node bad_regexp_request Demo.world0 = (inl e, w')
    /\ w_reads w' = w_reads Demo.world0.
Proof.
  apply (proj2 (proj2 (proj2 (proj2 (proj2 (proj2
           (name_scan_initial_checks Demo.node))))))).
  right. right. exists "(". split; reflexivity.
Defined.

Lemma invalid_regexp_counterexample :
  ~ invalid_regexp_is_invalid_parameter Demo.node bad_regexp_request
      Demo.world0.
Proof.
  intros H. destruct (H "(") as [msg Hmsg]; try reflexivity.
  vm_compute in Hmsg. discriminate.
Qed.

(** ** The height window of a scan *)

Lemma seek_incl env start db e : In e (seek env start db) -> In e db.
Proof.
  induction db as [|e' rest IH]; simpl; trivial.
  destruct (name_less env (fst e') start); auto.
Qed.

Lemma bind_next_called {A} (k : unit -> M A) w :
  bind next_called k w = k tt (snd (next_called w)).
Proof. reflexivity. Qed.

(** What the loop adds to the result: the records of entries that passed
    the filters. *)
Lemma scan_loop_added env options pwallet maxHeight minHeight prefix
  haveRegexp regexp iter :
  forall count res0 w r w',
    scan_loop env options pwallet maxHeight minHeight prefix haveRegexp
      regexp iter count (VARR res0) w = (inr r, w') ->
    exists added,
      r = VARR (res0 ++ added) /\
      Forall (fun info =>
                exists name data w1 w2,
                  In (name, data) iter /\
                  getNameInfo_wallet env options name data pwallet w1
                  = (inr info, w2) /\
                  getHeight data <= maxHeight /\
                  (0 <= minHeight -> minHeight <= getHeight data) /\
                  has_prefix prefix name = true /\
                  (haveRegexp = true ->
                   regexp_matches env regexp name = true)) added.
Proof.
  induction iter as [|[name data] iter' IH]; intros count res0 w r w' H;
    simpl in H.
  - exists []. rewrite app_nil_r. split; [|constructor].
    destruct (count >? 0); [rewrite bind_next_called in H|];
      unfold ret in H; congruence.
  - destruct (count >? 0).
    2:{ exists []. rewrite app_nil_r. split; [|constructor].
        unfold ret in H; congruence. }
    rewrite bind_next_called in H.
    assert (Hweak : forall count res0 w r w',
               scan_loop env options pwallet maxHeight minHeight prefix
                 haveRegexp regexp iter' count (VARR res0) w = (inr r, w') ->
               exists added,
                 r = VARR (res0 ++ added) /\
                 Forall (fun info =>
                   exists name0 data0 w1 w2,
                     In (name0, data0) ((name, data) :: iter') /\
                     getNameInfo_wallet env options name0 data0 pwallet w1
                     = (inr info, w2) /\
                     getHeight data0 <= maxHeight /\
                     (0 <= minHeight -> minHeight <= getHeight data0) /\
                     has_prefix prefix name0 = true /\
                     (haveRegexp = true ->
                      regexp_matches env regexp name0 = true)) added).
    { intros c r0 w0 r1 w1 H1.
      destruct (IH c r0 w0 r1 w1 H1) as (added & -> & Hall).
      exists added. split; trivial.
      eapply Forall_impl; [|exact Hall].
      intros info (n0 & d0 & wa & wb & Hin & Hrest).
      exists n0, d0, wa, wb. split; [now right|exact Hrest]. }
    destruct (Z.gtb_spec (getHeight data) maxHeight) as [Hgt|Hle];
      [now apply Hweak in H|].
    destruct ((minHeight >=? 0) && (getHeight data <? minHeight)) eqn:Emin;
      [now apply Hweak in H|].
    destruct (has_prefix prefix name) eqn:Epre; simpl in H;
      [|now apply Hweak in H].
    destruct (haveRegexp && negb (regexp_matches env regexp name)) eqn:Ere;
      [now apply Hweak in H|].
    apply bind_inv in H as (info & w1 & Hinfo & H).
    simpl in H. apply Hweak in H as (added & -> & Hall).
    exists (info :: added). rewrite <- app_assoc. split; trivial.
    constructor; trivial.
    exists name, data, (snd (next_called w)), w1.
    repeat split; trivial.
    + now left.
    + intros Hpos.
      destruct (Z.geb_spec minHeight 0),
        (Z.ltb_spec (getHeight data) minHeight);
        simpl in Emin; try discriminate; lia.
    + intros ->. simpl in Ere. now apply negb_false_iff in Ere.
Qed.

Lemma scan_loop_skip env options pwallet maxHeight minHeight prefix
  haveRegexp regexp name data iter count res w :
  0 < count ->
  maxHeight < getHeight data
  \/ (0 <= minHeight /\ getHeight data < minHeight) ->
  scan_loop env options pwallet maxHeight minHeight prefix haveRegexp regexp
    ((name, data) :: iter) count res w
  = scan_loop env options pwallet maxHeight minHeight prefix haveRegexp
      regexp iter count res (snd (next_called w)).
Proof.
  intros Hc Hout. simpl.
  destruct (Z.gtb_spec count 0); [|lia].
  rewrite bind_next_called.
  destruct (Z.gtb_spec (getHeight data) maxHeight); trivial.
  destruct Hout as [Hout|[Hmin Hout]]; [lia|].
  destruct (Z.geb_spec minHeight 0); [|lia].
  destruct (Z.ltb_spec (getHeight data) minHeight); [|lia].
  reflexivity.
Qed.

(** The filter that the option parser returns holds confirmations that fit
    an [int]. *)
Lemma scan_parse_options_range env options w f w' :
  scan_parse_options env options w = (inr f, w') ->
  1 <= minConf f <= INT_MAX /\ -1 <= maxConf f <= INT_MAX.
Proof.
  unfold scan_parse_options. intros H.
  apply bind_inv in H as (_ & w1 & _ & H).
  apply bind_inv in H as (minC & w2 & HminC & H).
  apply bind_inv in H as (u & w3 & Hmin1 & H).
  apply bind_inv in H as (maxC & w4 & HmaxC & H).
  apply bind_inv in H as (pre & w5 & _ & H).
  apply bind_inv in H as (re & w6 & Hre & H).
  injection H as <- _. simpl.
  assert (Hget : forall v z w0 w0',
             lift (get_int v) w0 = (inr z, w0') -> int_range z).
  { intros v z w0 w0' Hl. apply lift_inv in Hl as [Hl _].
    destruct v; simpl in Hl; try discriminate.
    destruct (in_int z0) eqn:E; [|discriminate].
    injection Hl as <-. now apply in_int_true. }
  split.
  - destruct (Z.ltb_spec minC 1); [discriminate|].
    destruct (exists_ options "minConf").
    + apply Hget in HminC. unfold int_range in HminC. lia.
    + injection HminC as <- _. unfold INT_MAX. lia.
  - destruct (exists_ options "maxConf").
    + apply bind_inv in HmaxC as (z & w7 & Hz & HmaxC).
      apply bind_inv in HmaxC as (u' & w8 & Hz0 & HmaxC).
      injection HmaxC as <- _.
      apply Hget in Hz. unfold int_range in Hz.
      destruct (Z.ltb_spec z 0); [discriminate|lia].
    + injection HmaxC as <- _. unfold INT_MAX. lia.
Qed.

Lemma maxHeight_of_exact env f :
  -1 <= Height env < INT_MAX -> 1 <= minConf f <= INT_MAX ->
  maxHeight_of env f = Height env - minConf f + 1.
Proof.
  intros HH Hm. unfold maxHeight_of, int_add, int_sub.
  rewrite (wrap_int_id (Height env - minConf f));
    [apply wrap_int_id|]; unfold int_range, INT_MIN, INT_MAX in *; lia.
Qed.

Lemma minHeight_of_exact env f :
  -1 <= Height env < INT_MAX -> 0 <= maxConf f <= INT_MAX ->
  minHeight_of env f = Height env - maxConf f + 1.
Proof.
  intros HH Hm. unfold minHeight_of, int_add, int_sub.
  destruct (Z.geb_spec (maxConf f) 0); [|lia].
  rewrite (wrap_int_id (Height env - maxConf f));
    [apply wrap_int_id|]; unfold int_range, INT_MIN, INT_MAX in *; lia.
Qed.

(** C8: in a scan whose options were accepted, every record of the result
    is the record of an entry of the database whose height h satisfies
    h <= Height - minConf + 1 and, when maxConf is given (it is then
    at least 0), h >= Height - maxConf + 1; an entry outside this window
    makes the loop go on with the next entry, the count and the result as
    they were.  Heights of records are block heights, hence not negative. *)
Theorem name_scan_height_window (env : Env) (options : UniValue)
  (start : valtype) (count : Z) (f : ScanFilter) (w0 w1 : World) :
  (forall name data, In (name, data) (names env) -> 0 <= getHeight data) ->
  -1 <= Height env < INT_MAX ->
  scan_parse_options env options w0 = (inr f, w1) ->
  let in_window h :=
    h <= Height env - minConf f + 1
    /\ (0 <= maxConf f -> Height env - maxConf f + 1 <= h) in
  (forall res w',
     scan_names env options start count f w1 = (inr (VARR res), w') ->
     Forall (fun info =>
               exists name data wa wb,
                 In (name, data) (names env) /\
                 getNameInfo_wallet env options name data (wallet env) wa
                 = (inr info, wb) /\
                 in_window (getHeight data)) res) /\
  (forall name data iter n res w,
     0 < n -> 0 <= getHeight data -> ~ in_window (getHeight data) ->
     scan_loop env options (wallet env) (maxHeight_of env f)
       (minHeight_of env f) (prefix f) (haveRegexp f) (regexp f)
       ((name, data) :: iter) n res w
     = scan_loop env options (wallet env) (maxHeight_of env f)
         (minHeight_of env f) (prefix f) (haveRegexp f) (regexp f)
         iter n res (snd (next_called w))).
Proof.
  intros Hheights HH Hparse in_window.
  destruct (scan_parse_options_range _ _ _ _ _ Hparse) as [Hmin Hmax].
  pose proof (maxHeight_of_exact env f HH Hmin) as EmaxH.
  split.
  - intros res w' Hscan. unfold scan_names in Hscan.
    destruct (count <=? 0).
    { injection Hscan as <- _. constructor. }
    apply scan_loop_added in Hscan as (added & Hres & Hall).
    injection Hres as ->. simpl.
    eapply Forall_impl; [|exact Hall].
    intros info (name & data & wa & wb & Hin & Hinfo & Hle & Hge & _).
    exists name, data, wa, wb.
    apply seek_incl in Hin.
    split; [exact Hin|split; [exact Hinfo|]].
    unfold in_window. split; [lia|].
    intros Hgiven.
    rewrite minHeight_of_exact in Hge by lia.
    specialize (Hheights name data Hin).
    destruct (Z.le_gt_cases 0 (Height env - maxConf f + 1)); lia.
  - intros name data iter n res w Hn Hh Hout.
    apply scan_loop_skip; trivial.
    unfold in_window in Hout. rewrite EmaxH.
    destruct (Z.lt_ge_cases (Height env - minConf f + 1) (getHeight data))
      as [Hlt|Hge]; [now left|right].
    destruct (Z.le_gt_cases 0 (maxConf f)) as [Hgiven|Hnot]; [|lia].
    rewrite minHeight_of_exact by lia. lia.
Qed.

Lemma name_scan_height_window_witness :
  exists res w',
    scan_names Demo.node (VOBJ [("minConf", VNUM 5)]) "d/a" 3 window_filter
      Demo.world0 = (inr (VARR res), w')
    /\ Forall (fun info =>
                 exists name data wa wb,
                   In (name, data) Demo.db /\
                   getNameInfo_wallet Demo.node (VOBJ [("minConf", VNUM 5)])
                     name data None wa = (inr info, wb) /\
                   getHeight data <= 105 - 5 + 1 /\
                   (0 <= -1 -> 105 - -1 + 1 <= getHeight data)) res.
Proof.
  eexists. eexists. split; [vm_compute; reflexivity|].
  eapply (proj1 (name_scan_height_window Demo.node
                   (VOBJ [("minConf", VNUM 5)]) "d/a" 3 window_filter
                   Demo.world0 Demo.world0 _ _ _)).
  vm_compute. reflexivity.
  Unshelve.
  - intros name data Hin. simpl in Hin.
    repeat (destruct Hin as [Hin|Hin];
            [injection Hin as <- <-; simpl; lia|]).
    contradiction.
  - unfold INT_MAX. simpl. lia.
  - reflexivity.
Defined.

(** ** Export: files *)

Lemma append_assoc (s1 s2 s3 : string) : (s1 ^^ s2) ^^ s3 = s1 ^^ s2 ^^ s3.
Proof. induction s1; simpl; congruence. Qed.

Lemma append_empty_r (s : string) : s ^^ EmptyString = s.
Proof. induction s; simpl; congruence. Qed.

Lemma file_get_set files path content :
  file_get (file_set files path content) path = Some content.
Proof.
  induction files as [|[p c] rest IH]; simpl.
  - now rewrite String.eqb_refl.
  - destruct (String.eqb p path) eqn:E; simpl; now rewrite E.
Qed.

(** A write that the device takes lands behind what the file holds, and
    leaves the stream good. *)
Lemma out_good env path s w c :
  accepts env path c s = true ->
  file_get (w_files w) path = Some c ->
  exists w',
    out env (mkStream path true) s w = (inr (mkStream path true), w')
    /\ file_get (w_files w') path = Some (c ^^ s).
Proof.
  intros Htake Hc. unfold out. cbn [of_good of_path]. rewrite Hc, Htake.
  eexists. split; [reflexivity|]. simpl. apply file_get_set.
Qed.

(** A write that the device refuses is dropped, and the stream is not good
    from then on. *)
Lemma out_refused env path s w c :
  accepts env path c s = false ->
  file_get (w_files w) path = Some c ->
  out env (mkStream path true) s w = (inr (mkStream path false), w).
Proof.
  intros Htake Hc. unfold out. cbn [of_good of_path]. now rewrite Hc, Htake.
Qed.

Lemma out_bad env path s w :
  out env (mkStream path false) s w = (inr (mkStream path false), w).
Proof. reflexivity. Qed.

(** Output never throws. *)
Lemma out_returns env f s w : exists f' w', out env f s w = (inr f', w').
Proof.
  unfold out. destruct (of_good f); [|now eexists; eexists].
  destruct (accepts env (of_path f) _ s); now eexists; eexists.
Qed.

Lemma open_good env path w :
  can_open env path = true ->
  exists w',
    open env path w = (inr (mkStream path true), w')
    /\ file_get (w_files w') path = Some EmptyString.
Proof.
  intros Hc. unfold open. rewrite Hc.
  eexists. split; [reflexivity|]. simpl. apply file_get_set.
Qed.

Lemma open_bad env path w :
  can_open env path = false ->
  open env path w = (inr (mkStream path false), w).
Proof. intros Hc. unfold open. now rewrite Hc. Qed.

(** ** Export: names only *)

Lemma export_loop_names env options pwallet regexp maxCount path iter :
  takes_all env path ->
  forall count w c,
    file_get (w_files w) path = Some c ->
    exists w',
      export_loop env options pwallet regexp false maxCount
        (mkStream path true) iter count w
      = (inr (snd (emit env maxCount (matching env regexp iter) count),
              mkStream path true), w')
      /\ file_get (w_files w') path
         = Some (c ^^ fst (emit env maxCount (matching env regexp iter)
                             count)).
Proof.
  intros Htake.
  induction iter as [|[name data] iter' IH]; intros count w c Hc; simpl.
  - rewrite bind_next_called. eexists. split; [reflexivity|].
    simpl. now rewrite append_empty_r.
  - rewrite bind_next_called.
    destruct (EncodeName env name UTF8) as [nameStr|]; [|now apply IH].
    destruct (regex_search env nameStr regexp); simpl; [|now apply IH].
    set (piece := if count =? 0 then write env (VSTR nameStr)
                  else "," ^^ endl ^^ write env (VSTR nameStr)).
    destruct (out_good env path piece (snd (next_called w)) c (Htake c piece)
                Hc) as (w1 & Hout & Hc1).
    assert (Hstep :
      (if count =? 0
       then out env (mkStream path true) (write env (VSTR nameStr))
       else out env (mkStream path true)
              ("," ^^ endl ^^ write env (VSTR nameStr)))
        (snd (next_called w)) = (inr (mkStream path true), w1)).
    { unfold piece in Hout. now destruct (count =? 0). }
    rewrite (bind_inr _ _ _ _ _ Hstep).
    unfold bind at 1, LogPrintf at 1.
    destruct (negb (maxCount =? -1) && (int_add count 1 >=? maxCount)).
    + eexists. split; [reflexivity|]. exact Hc1.
    + match goal with
      | |- context [export_loop _ _ _ _ _ _ _ _ _ ?w2] =>
          destruct (IH (int_add count 1) w2 (c ^^ piece) Hc1)
            as (w' & Hloop & Hc')
      end.
      exists w'. split; [exact Hloop|].
      simpl. now rewrite <- append_assoc.
Qed.

(** The handler proper runs once the request passed the argument checks. *)
Lemma name_export_accepted env request w a w1 :
  RPCHelpMan_Check "name_export" 2 3 request = inr tt ->
  RPCTypeCheck (params request) [TSTR; TSTR; TOBJ] false = inr tt ->
  IsInitialBlockDownload env = false ->
  export_arguments env request w = (inr a, w1) ->
  name_export env request w = export_names env a w1.
Proof.
  intros HC HT HI Ha. unfold name_export, IBD_check.
  rewrite HC, HT, HI. simpl when_.
  rewrite bind_lift, bind_ret, bind_lift, bind_ret.
  now rewrite (bind_inr _ _ _ _ _ Ha).
Qed.

Lemma export_names_plain env a w :
  withHistory a = false ->
  can_open env (path a) = true ->
  takes_all env (path a) ->
  let r := emit env (maxCount a) (matching env (ex_regexp a) (names env)) 0 in
  exists w',
    export_names env a w
    = (inr (VSTR (found_message (snd r) (regexpStr a))), w')
    /\ file_get (w_files w') (path a)
       = Some ("[" ^^ endl ^^ fst r ^^ endl ^^ "]").
Proof.
  intros Hh Hopen Htake r. unfold export_names.
  destruct (open_good env (path a) w Hopen) as (w1 & Hw1 & Hc1).
  rewrite (bind_inr _ _ _ _ _ Hw1).
  destruct (out_good env (path a) ("[" ^^ endl) w1 _ (Htake _ _) Hc1)
    as (w2 & Hw2 & Hc2).
  rewrite (bind_inr _ _ _ _ _ Hw2).
  destruct (export_loop_names env (ex_options a) (wallet env) (ex_regexp a)
              (maxCount a) (path a) (names env) Htake 0 w2 _ Hc2)
    as (w3 & Hw3 & Hc3).
  rewrite Hh. rewrite (bind_inr _ _ _ _ _ Hw3). cbn [fst snd].
  destruct (out_good env (path a) (endl ^^ "]") w3 _ (Htake _ _) Hc3)
    as (w4 & Hw4 & Hc4).
  rewrite (bind_inr _ _ _ _ _ Hw4).
  eexists. split; [reflexivity|].
  simpl w_files. rewrite Hc4. reflexivity.
Qed.

(** ** Export: the array written *)

Lemma only_logs_getNameInfo_wallet env options name data pwallet :
  only_logs (getNameInfo_wallet env options name data pwallet).
Proof.
  unfold getNameInfo_wallet, getNameInfo_data, getNameInfo. only_logs_step.
Qed.

#[local] Hint Resolve only_logs_getNameInfo_wallet : logs.

Lemma only_logs_export_history_loop env options name pwallet ready history :
  forall resHistory,
    only_logs (export_history_loop env options name pwallet ready history
                 resHistory).
Proof.
  induction history as [|entry rest IH]; intros resHistory; simpl;
    only_logs_step.
Qed.

#[local] Hint Resolve only_logs_export_history_loop : logs.

Lemma only_logs_export_record env options pwallet name data :
  only_logs (export_record env options pwallet name data).
Proof. unfold export_record. only_logs_step. Qed.

Lemma int_add_1 count : 0 <= count < INT_MAX -> int_add count 1 = count + 1.
Proof.
  intros H. apply wrap_int_id. unfold int_range, INT_MIN, INT_MAX in *. lia.
Qed.

(** What the loop leaves in an open file whose device takes every write:
    one more element for each name it counted, each the rendering of a JSON
    value. *)
Lemma export_loop_written env options pwallet regexp withHistory maxCount
  path iter :
  takes_all env path ->
  forall count w c n f w',
    file_get (w_files w) path = Some c ->
    0 <= count -> count + Z.of_nat (List.length iter) <= INT_MAX ->
    export_loop env options pwallet regexp withHistory maxCount
      (mkStream path true) iter count w = (inr (n, f), w') ->
    exists elems,
      n = count + Z.of_nat (List.length elems)
      /\ f = mkStream path true
      /\ file_get (w_files w') path
         = Some (c ^^ pieces (separator withHistory) count elems)
      /\ Forall (fun e => exists v, e = write env v) elems.
Proof.
  intros Htake.
  induction iter as [|[name data] iter' IH];
    intros count w c n f w' Hc H0 Hmax H; simpl in H;
    rewrite bind_next_called in H.
  - injection H as <- <- <-. exists []. simpl.
    split; [lia|split; [reflexivity|split; [|constructor]]].
    unfold pieces. simpl. destruct (count =? 0); now rewrite append_empty_r.
  - assert (Hlen : count + Z.of_nat (List.length iter') <= INT_MAX).
    { simpl List.length in Hmax. lia. }
    destruct (EncodeName env name UTF8) as [nameStr|];
      [|exact (IH count (snd (next_called w)) c n f w' Hc H0 Hlen H)].
    destruct (regex_search env nameStr regexp); simpl in H;
      [|exact (IH count (snd (next_called w)) c n f w' Hc H0 Hlen H)].
    apply bind_inv in H as (f1 & w1 & Hwrite & H).
    assert (Hpiece : f1 = mkStream path true /\ exists v,
               file_get (w_files w1) path
               = Some (c ^^ (if count =? 0 then write env v
                             else separator withHistory ^^ write env v))).
    { destruct withHistory.
      - apply bind_inv in Hwrite as (resObj & w0 & Hrec & Hwrite).
        match type of Hrec with
        | _ ?w00 = _ =>
            destruct (only_logs_export_record env options pwallet name data
                        w00) as [_ Hfiles]
        end.
        rewrite Hrec in Hfiles. simpl in Hfiles.
        assert (Hc0 : file_get (w_files w0) path = Some c)
          by now rewrite Hfiles.
        destruct (count =? 0);
          match type of Hwrite with
          | out _ _ ?s _ = _ =>
              destruct (out_good env path s w0 c (Htake c s) Hc0)
                as (w2 & Hout & Hc2)
          end;
          rewrite Hout in Hwrite; injection Hwrite as <- <-;
          (split; [reflexivity|exists resObj; exact Hc2]).
      - destruct (count =? 0);
          match type of Hwrite with
          | out _ _ ?s ?w0 = _ =>
              destruct (out_good env path s w0 c (Htake c s) Hc)
                as (w2 & Hout & Hc2)
          end;
          rewrite Hout in Hwrite; injection Hwrite as <- <-;
          (split; [reflexivity|exists (VSTR nameStr); exact Hc2]). }
    destruct Hpiece as (-> & v & Hc1).
    unfold bind at 1, LogPrintf at 1 in H.
    assert (Hcount : int_add count 1 = count + 1).
    { apply int_add_1. simpl List.length in Hmax. lia. }
    rewrite !Hcount in H.
    assert (Hone : forall rest,
               (c ^^ (if count =? 0 then write env v
                      else separator withHistory ^^ write env v))
               ^^ tail_pieces (separator withHistory) rest
               = c ^^ pieces (separator withHistory) count
                        (write env v :: rest)).
    { intros rest. unfold pieces. rewrite append_assoc.
      destruct (count =? 0); simpl; trivial. now rewrite append_assoc. }
    destruct (negb (maxCount =? -1) && (count + 1 >=? maxCount)).
    + injection H as <- <- <-. exists [write env v]. simpl List.length.
      split; [lia|split; [reflexivity
                         |split; [|repeat constructor; now exists v]]].
      simpl w_files. rewrite Hc1, <- (Hone []). simpl.
      now rewrite append_empty_r.
    + eapply IH in H as (elems & Hn & Hf & Hc' & Hall);
        try (simpl; exact Hc1).
      * exists (write env v :: elems). simpl List.length.
        split; [lia|split; [exact Hf
                           |split; [|constructor; [now exists v|exact Hall]]]].
        rewrite Hc'. f_equal. rewrite <- Hone. f_equal.
        unfold pieces. destruct (Z.eqb_spec (count + 1) 0); [lia|trivial].
      * lia.
      * simpl List.length in Hmax. lia.
Qed.

(** On a stream that is not good the loop leaves the files alone, and the
    stream as it is. *)
Lemma export_loop_bad env options pwallet regexp withHistory maxCount path
  iter :
  forall count w,
    let run := export_loop env options pwallet regexp withHistory maxCount
                 (mkStream path false) iter count w in
    w_files (snd run) = w_files w
    /\ forall n f, fst run = inr (n, f) -> f = mkStream path false.
Proof.
  induction iter as [|[name data] iter' IH]; intros count w; cbn zeta;
    cbn [export_loop]; rewrite bind_next_called.
  - split; [reflexivity|]. intros n f H. now injection H as _ <-.
  - destruct (EncodeName env name UTF8) as [nameStr|];
      [|exact (IH count (snd (next_called w)))].
    destruct (regex_search env nameStr regexp); cbn [negb];
      [|exact (IH count (snd (next_called w)))].
    assert (Hrest : forall w0,
              let run :=
                (LogPrintf ("Handling " ^^ itostr (int_add count 1) ^^ ": '"
                            ^^ nameStr ^^ "' " ^^ endl) ;;;
                 if negb (maxCount =? -1) && (int_add count 1 >=? maxCount)
                 then ret (int_add count 1, mkStream path false)
                 else export_loop env options pwallet regexp withHistory
                        maxCount (mkStream path false) iter'
                        (int_add count 1)) w0 in
              w_files (snd run) = w_files w0
              /\ forall n f, fst run = inr (n, f) -> f = mkStream path false).
    { intros w0. cbn zeta. unfold bind at 1, LogPrintf at 1.
      destruct (negb (maxCount =? -1) && (int_add count 1 >=? maxCount)).
      - split; [reflexivity|]. intros n f H. now injection H as _ <-.
      - match goal with
        | |- context [export_loop _ _ _ _ _ _ _ _ _ ?w2] =>
            destruct (IH (int_add count 1) w2) as [Hfiles Hstream]
        end.
        split; [now rewrite Hfiles|exact Hstream]. }
    destruct withHistory.
    + destruct (only_logs_export_record env options pwallet name data
                  (snd (next_called w))) as [_ Hfiles].
      destruct (export_record env options pwallet name data
                  (snd (next_called w))) as [[e|resObj] w0] eqn:Hrec;
        cbn [snd w_files next_called] in Hfiles.
      * rewrite (bind_inl _ _ _ _ _ (bind_inl _ _ _ _ _ Hrec)).
        split; [exact Hfiles|]. intros n f H. discriminate H.
      * assert (Hstep :
          (resObj <- export_record env options pwallet name data ;;
           if count =? 0
           then out env (mkStream path false) (write env resObj)
           else out env (mkStream path false) ("," ^^ write env resObj))
            (snd (next_called w)) = (inr (mkStream path false), w0)).
        { rewrite (bind_inr _ _ _ _ _ Hrec).
          destruct (count =? 0); apply out_bad. }
        rewrite (bind_inr _ _ _ _ _ Hstep).
        destruct (Hrest w0) as [Hfiles' Hstream].
        split; [now rewrite Hfiles'|exact Hstream].
    + assert (Hstep :
        (if count =? 0
         then out env (mkStream path false) (write env (VSTR nameStr))
         else out env (mkStream path false)
                ("," ^^ endl ^^ write env (VSTR nameStr)))
          (snd (next_called w)) = (inr (mkStream path false),
                                   snd (next_called w))).
      { destruct (count =? 0); apply out_bad. }
      rewrite (bind_inr _ _ _ _ _ Hstep).
      exact (Hrest (snd (next_called w))).
Qed.

(** Without history the loop never fails, and counts as [emit] does,
    whatever becomes of its output. *)
Lemma export_loop_names_result env options pwallet regexp maxCount iter :
  forall stream count w,
    exists f,
      fst (export_loop env options pwallet regexp false maxCount stream iter
             count w)
      = inr (snd (emit env maxCount (matching env regexp iter) count), f).
Proof.
  induction iter as [|[name data] iter' IH]; intros stream count w; simpl;
    rewrite ?bind_next_called; [now eexists|].
  destruct (EncodeName env name UTF8) as [nameStr|]; [|apply IH].
  destruct (regex_search env nameStr regexp); simpl; [|apply IH].
  unfold bind at 1.
  destruct (count =? 0);
    match goal with
    | |- context [out env stream ?s ?w0] =>
        destruct (out_returns env stream s w0) as (f1 & w1 & ->)
    end;
    unfold bind at 1, LogPrintf at 1;
    (destruct (negb (maxCount =? -1) && (int_add count 1 >=? maxCount));
     [now eexists|apply IH]).
Qed.

Lemma open_returns env path w : exists f w', open env path w = (inr f, w').
Proof.
  unfold open. destruct (can_open env path); now eexists; eexists.
Qed.

(** The answer of an export without history does not depend on what
    becomes of its output. *)
Lemma export_names_answer env a w :
  withHistory a = false ->
  fst (export_names env a w)
  = inr (VSTR (found_message
                 (snd (emit env (maxCount a)
                         (matching env (ex_regexp a) (names env)) 0))
                 (regexpStr a))).
Proof.
  intros Hh. unfold export_names. rewrite Hh.
  destruct (open_returns env (path a) w) as (f0 & w0 & H0).
  rewrite (bind_inr _ _ _ _ _ H0).
  destruct (out_returns env f0 ("[" ^^ endl) w0) as (f1 & w1 & H1).
  rewrite (bind_inr _ _ _ _ _ H1).
  destruct (export_loop_names_result env (ex_options a) (wallet env)
              (ex_regexp a) (maxCount a) (names env) f1 0 w1) as (f2 & H2).
  destruct (export_loop env (ex_options a) (wallet env) (ex_regexp a) false
              (maxCount a) f1 (names env) 0 w1) as [r w2] eqn:E.
  cbn [fst] in H2. subst r.
  rewrite (bind_inr _ _ _ _ _ E). cbn [fst snd].
  destruct (out_returns env f2 (endl ^^ "]") w2) as (f3 & w3 & H3).
  rewrite (bind_inr _ _ _ _ _ H3).
  reflexivity.
Qed.

(** What is left of an export once its stream is not good: no file
    changes. *)
Lemma export_names_rest_bad env a w :
  w_files
    (snd ((looped <- export_loop env (ex_options a) (wallet env)
                       (ex_regexp a) (withHistory a) (maxCount a)
                       (mkStream (path a) false) (names env) 0 ;;
           out env (snd looped) (endl ^^ "]") ;;;
           LogPrintf ("Found " ^^ itostr (fst looped) ^^ " names with "
                      ^^ regexpStr a ^^ " regexp. Options: "
                      ^^ write env (ex_options a) ^^ " " ^^ endl) ;;;
           ret (VSTR (found_message (fst looped) (regexpStr a)))) w))
  = w_files w.
Proof.
  destruct (export_loop_bad env (ex_options a) (wallet env) (ex_regexp a)
              (withHistory a) (maxCount a) (path a) (names env) 0 w)
    as [Hfiles Hstream].
  destruct (export_loop env (ex_options a) (wallet env) (ex_regexp a)
              (withHistory a) (maxCount a) (mkStream (path a) false)
              (names env) 0 w) as [[e|[n f]] w3] eqn:E;
    cbn [fst snd] in Hfiles, Hstream.
  - rewrite (bind_inl _ _ _ _ _ E). exact Hfiles.
  - rewrite (bind_inr _ _ _ _ _ E). cbn [fst snd].
    rewrite (Hstream n f eq_refl).
    rewrite (bind_inr _ _ _ _ _ (out_bad env (path a) _ w3)).
    exact Hfiles.
Qed.

(** A destination that cannot be opened: no file changes. *)
Lemma export_names_unopened env a w :
  can_open env (path a) = false ->
  w_files (snd (export_names env a w)) = w_files w.
Proof.
  intros Hopen. unfold export_names.
  rewrite (bind_inr _ _ _ _ _ (open_bad env (path a) w Hopen)).
  rewrite (bind_inr _ _ _ _ _ (out_bad env (path a) _ w)).
  apply export_names_rest_bad.
Qed.

(** A destination that opens and whose device refuses the first write: the
    file is left empty. *)
Lemma export_names_refused env a w :
  can_open env (path a) = true ->
  accepts env (path a) EmptyString ("[" ^^ endl) = false ->
  file_get (w_files (snd (export_names env a w))) (path a)
  = Some EmptyString.
Proof.
  intros Hopen Hrefuse. unfold export_names.
  destruct (open_good env (path a) w Hopen) as (w1 & Hw1 & Hc1).
  rewrite (bind_inr _ _ _ _ _ Hw1).
  rewrite (bind_inr _ _ _ _ _
             (out_refused env (path a) _ w1 _ Hrefuse Hc1)).
  now rewrite export_names_rest_bad.
Qed.

Lemma export_names_inv env a w res w' :
  can_open env (path a) = true ->
  takes_all env (path a) ->
  export_names env a w = (inr res, w') ->
  exists w2 n f w3,
    file_get (w_files w2) (path a) = Some ("[" ^^ endl)
    /\ export_loop env (ex_options a) (wallet env) (ex_regexp a)
         (withHistory a) (maxCount a) (mkStream (path a) true) (names env)
         0 w2 = (inr (n, f), w3)
    /\ res = VSTR (found_message n (regexpStr a))
    /\ (f = mkStream (path a) true ->
        forall c, file_get (w_files w3) (path a) = Some c ->
                  file_get (w_files w') (path a) = Some (c ^^ endl ^^ "]")).
Proof.
  intros Hopen Htake H. unfold export_names in H.
  destruct (open_good env (path a) w Hopen) as (w1 & Hw1 & Hc1).
  rewrite (bind_inr _ _ _ _ _ Hw1) in H.
  destruct (out_good env (path a) ("[" ^^ endl) w1 _ (Htake _ _) Hc1)
    as (w2 & Hw2 & Hc2).
  rewrite (bind_inr _ _ _ _ _ Hw2) in H.
  apply bind_inv in H as ([n f] & w3 & Hloop & H).
  exists w2, n, f, w3. split; [exact Hc2|split; [exact Hloop|]].
  cbn [fst snd] in H.
  apply bind_inv in H as (f4 & w4 & Hw4 & H).
  injection H as <- <-. split; trivial.
  intros -> c Hc3.
  destruct (out_good env (path a) (endl ^^ "]") w3 c (Htake _ _) Hc3)
    as (w5 & Hw5 & Hc5).
  rewrite Hw5 in Hw4. injection Hw4 as _ <-. exact Hc5.
Qed.

(** ** Export: records with history *)

Lemma pure_getNameInfo_wallet env options name data pwallet :
  pure_result (getNameInfo_wallet env options name data pwallet).
Proof.
  unfold getNameInfo_wallet, getNameInfo_data, getNameInfo.
  repeat (apply pure_bind; [auto using pure_EncodingFromOptionsJson with pure
                           |intros ?]);
    auto with pure.
Qed.

Lemma pure_export_history_loop env options name pwallet ready history :
  forall res,
    pure_result (export_history_loop env options name pwallet ready history
                   res).
Proof.
  induction history as [|entry rest IH]; intros res; simpl;
    auto with pure.
  apply pure_bind; [apply pure_getNameInfo_wallet|intros rec].
  apply pure_bind; auto with pure.
Qed.

Lemma pure_export_record env options pwallet name data :
  pure_result (export_record env options pwallet name data).
Proof.
  unfold export_record.
  apply pure_bind; [apply pure_getNameInfo_wallet|intros resObj].
  apply pure_bind; auto with pure. intros resObj'.
  apply pure_bind; [apply pure_export_history_loop|intros resHistory].
  auto with pure.
Qed.

Lemma export_record_run env options name data w r :
  export_element env options (name, data) = r ->
  exists w',
    export_record env options (wallet env) name data w = (r, w')
    /\ w_files w' = w_files w.
Proof.
  unfold export_element. cbn [fst snd]. intros H.
  rewrite (pure_export_record env options (wallet env) name data
             initial_world w) in H.
  pose proof (proj2 (only_logs_export_record env options (wallet env) name
                       data w)) as Hf.
  destruct (export_record env options (wallet env) name data w) as [res w'].
  simpl in *. subst res. now exists w'.
Qed.

(** With history, into an open file whose device takes every write: the
    loop writes the records of the matching entries, up to the count, when
    each of them can be built. *)
Lemma export_loop_records env options regexp maxCount path iter :
  takes_all env path ->
  forall count w c records,
    file_get (w_files w) path = Some c ->
    0 <= count -> count + Z.of_nat (List.length iter) <= INT_MAX ->
    map (export_element env options)
      (let ms := filter (fun e => regexp_matches env regexp (fst e)) iter in
       if maxCount =? -1 then ms
       else firstn (Z.to_nat (Z.max 1 (maxCount - count))) ms)
    = map inr records ->
    exists w',
      export_loop env options (wallet env) regexp true maxCount
        (mkStream path true) iter count w
      = (inr (count + Z.of_nat (List.length records), mkStream path true),
         w')
      /\ file_get (w_files w') path
         = Some (c ^^ pieces "," count (map (write env) records)).
Proof.
  intros Htake.
  induction iter as [|[name data] iter IH];
    intros count w c records Hc H0 Hlen Hrec; cbn [export_loop];
    rewrite bind_next_called.
  - assert (records = []) as ->.
    { cbn in Hrec. destruct (maxCount =? -1); [|rewrite firstn_nil in Hrec];
        now destruct records. }
    exists (snd (next_called w)). split.
    + unfold ret. do 3 f_equal. simpl. lia.
    + unfold pieces. simpl. destruct (count =? 0); now rewrite append_empty_r.
  - simpl List.length in Hlen. cbn [filter fst] in Hrec.
    change (regexp_matches env regexp name)
      with (match EncodeName env name UTF8 with
            | Some nameStr => regex_search env nameStr regexp
            | None => false
            end) in Hrec.
    destruct (EncodeName env name UTF8) as [nameStr|]; cbv iota in Hrec;
      [|apply IH; [exact Hc|lia|lia|exact Hrec]].
    destruct (regex_search env nameStr regexp); cbn [negb]; cbv iota in Hrec;
      [|apply IH; [exact Hc|lia|lia|exact Hrec]].
    destruct records as [|r records].
    { exfalso. destruct (maxCount =? -1); [discriminate Hrec|].
      replace (Z.to_nat (Z.max 1 (maxCount - count)))
        with (S (Z.to_nat (Z.max 1 (maxCount - count)) - 1)) in Hrec by lia.
      discriminate Hrec. }
    assert (Hfirst : export_element env options (name, data) = inr r).
    { destruct (maxCount =? -1); [now injection Hrec|].
      replace (Z.to_nat (Z.max 1 (maxCount - count)))
        with (S (Z.to_nat (Z.max 1 (maxCount - count)) - 1)) in Hrec by lia.
      now injection Hrec. }
    destruct (export_record_run env options name data (snd (next_called w))
                (inr r) Hfirst) as (w1 & Hrun & Hfiles).
    set (piece := if count =? 0 then write env r else "," ^^ write env r).
    assert (Hc1 : file_get (w_files w1) path = Some c)
      by now rewrite Hfiles.
    destruct (out_good env path piece w1 c (Htake _ _) Hc1)
      as (w2 & Hout & Hc2).
    assert (Hstep :
      (resObj <- export_record env options (wallet env) name data ;;
       if count =? 0 then out env (mkStream path true) (write env resObj)
       else out env (mkStream path true) ("," ^^ write env resObj))
        (snd (next_called w)) = (inr (mkStream path true), w2)).
    { rewrite (bind_inr _ _ _ _ _ Hrun). unfold piece in Hout.
      now destruct (count =? 0). }
    rewrite (bind_inr _ _ _ _ _ Hstep).
    unfold bind at 1, LogPrintf at 1.
    rewrite int_add_1 by lia.
    assert (Hnext : (count + 1 =? 0) = false) by (apply Z.eqb_neq; lia).
    assert (Hpiece : forall rest,
              c ^^ pieces "," count (write env r :: rest)
              = (c ^^ piece) ^^ tail_pieces "," rest).
    { intros rest. unfold pieces, piece.
      destruct (count =? 0); cbn [join tail_pieces];
        now rewrite !append_assoc. }
    destruct (Z.eqb_spec maxCount (-1)) as [Hall|Hcap]; cbn [negb andb].
    + match goal with
      | |- context [export_loop _ _ _ _ _ _ _ _ _ ?w3] =>
          destruct (IH (count + 1) w3 (c ^^ piece) records Hc2
                      ltac:(lia) ltac:(lia)) as (w' & Hloop & Hc')
      end.
      { subst maxCount. cbn [Z.eqb] in *. now injection Hrec. }
      exists w'. split.
      * rewrite Hloop. do 3 f_equal. simpl List.length. lia.
      * rewrite Hc'. unfold pieces at 1. rewrite Hnext.
        cbn [map]. now rewrite Hpiece.
    + destruct (Z.geb_spec (count + 1) maxCount) as [Hstop|Hgo].
      * replace (Z.to_nat (Z.max 1 (maxCount - count))) with 1%nat
          in Hrec by lia.
        cbn [firstn map] in Hrec.
        assert (records = []) as -> by (now destruct records).
        eexists. split; [reflexivity|].
        cbn [w_files]. rewrite Hc2. cbn [map]. rewrite Hpiece.
        cbn [tail_pieces]. now rewrite append_empty_r.
      * match goal with
        | |- context [export_loop _ _ _ _ _ _ _ _ _ ?w3] =>
            destruct (IH (count + 1) w3 (c ^^ piece) records Hc2
                        ltac:(lia) ltac:(lia)) as (w' & Hloop & Hc')
        end.
        { replace (Z.to_nat (Z.max 1 (maxCount - count)))
            with (S (Z.to_nat (Z.max 1 (maxCount - (count + 1)))))
            in Hrec by lia.
          cbn [firstn map] in Hrec. now injection Hrec. }
        exists w'. split.
        -- rewrite Hloop. do 3 f_equal. simpl List.length. lia.
        -- rewrite Hc'. unfold pieces at 1. rewrite Hnext.
           cbn [map]. now rewrite Hpiece.
Qed.

Lemma export_names_records env a w records :
  withHistory a = true ->
  can_open env (path a) = true ->
  takes_all env (path a) ->
  Z.of_nat (List.length (names env)) <= INT_MAX ->
  map (export_element env (ex_options a)) (exported_entries env a)
  = map inr records ->
  exists w',
    export_names env a w
    = (inr (VSTR (found_message (Z.of_nat (List.length records))
                    (regexpStr a))), w')
    /\ file_get (w_files w') (path a)
       = Some ("[" ^^ endl ^^ join "," (map (write env) records)
               ^^ endl ^^ "]").
Proof.
  intros Hh Hopen Htake Hlen Hrec. unfold export_names.
  destruct (open_good env (path a) w Hopen) as (w1 & Hw1 & Hc1).
  rewrite (bind_inr _ _ _ _ _ Hw1).
  destruct (out_good env (path a) ("[" ^^ endl) w1 _ (Htake _ _) Hc1)
    as (w2 & Hw2 & Hc2).
  rewrite (bind_inr _ _ _ _ _ Hw2).
  destruct (export_loop_records env (ex_options a) (ex_regexp a) (maxCount a)
              (path a) (names env) Htake 0 w2 _ records Hc2 (Z.le_refl 0)
              Hlen)
    as (w3 & Hw3 & Hc3).
  { rewrite Z.sub_0_r. exact Hrec. }
  rewrite Hh. rewrite (bind_inr _ _ _ _ _ Hw3). cbn [fst snd].
  destruct (out_good env (path a) (endl ^^ "]") w3 _ (Htake _ _) Hc3)
    as (w4 & Hw4 & Hc4).
  rewrite (bind_inr _ _ _ _ _ Hw4).
  eexists. split; [reflexivity|].
  simpl w_files. rewrite Hc4. unfold pieces. cbn [Z.eqb].
  now rewrite !append_assoc.
Qed.

(** With history the loop stops with the error of the first matching entry
    whose record cannot be built, when no element was written before: the
    files stay as they were. *)
Lemma export_loop_first_fails env options regexp maxCount stream iter :
  forall count w e rest err,
    filter (fun e => regexp_matches env regexp (fst e)) iter = e :: rest ->
    export_element env options e = inl err ->
    exists w',
      export_loop env options (wallet env) regexp true maxCount stream iter
        count w = (inl err, w')
      /\ w_files w' = w_files w.
Proof.
  induction iter as [|[name data] iter IH]; intros count w e rest err Hm He;
    [discriminate Hm|].
  cbn [export_loop]. rewrite bind_next_called.
  cbn [filter fst] in Hm.
  change (regexp_matches env regexp name)
    with (match EncodeName env name UTF8 with
          | Some nameStr => regex_search env nameStr regexp
          | None => false
          end) in Hm.
  destruct (EncodeName env name UTF8) as [nameStr|]; cbv iota in Hm;
    [|exact (IH count (snd (next_called w)) e rest err Hm He)].
  destruct (regex_search env nameStr regexp); cbn [negb]; cbv iota in Hm;
    [|exact (IH count (snd (next_called w)) e rest err Hm He)].
  injection Hm as <- _.
  destruct (export_record_run env options name data (snd (next_called w))
              (inl err) He) as (w1 & Hrun & Hfiles).
  exists w1. split; [|exact Hfiles].
  now rewrite (bind_inl _ _ _ _ _ (bind_inl _ _ _ _ _ Hrun)).
Qed.

(** With a cap below 1 and history, the loop writes the record of the
    first matching entry and stops. *)
Lemma export_loop_one_record env options regexp maxCount path iter :
  takes_all env path ->
  maxCount <> -1 -> maxCount <= 0 ->
  forall w c e rest r,
    filter (fun e => regexp_matches env regexp (fst e)) iter = e :: rest ->
    export_element env options e = inr r ->
    file_get (w_files w) path = Some c ->
    exists w',
      export_loop env options (wallet env) regexp true maxCount
        (mkStream path true) iter 0 w
      = (inr (1, mkStream path true), w')
      /\ file_get (w_files w') path = Some (c ^^ write env r).
Proof.
  intros Htake Hne Hle.
  induction iter as [|[name data] iter IH]; intros w c e rest r Hm He Hc;
    [discriminate Hm|].
  cbn [export_loop]. rewrite bind_next_called.
  cbn [filter fst] in Hm.
  change (regexp_matches env regexp name)
    with (match EncodeName env name UTF8 with
          | Some nameStr => regex_search env nameStr regexp
          | None => false
          end) in Hm.
  destruct (EncodeName env name UTF8) as [nameStr|]; cbv iota in Hm;
    [|exact (IH (snd (next_called w)) c e rest r Hm He Hc)].
  destruct (regex_search env nameStr regexp); cbn [negb]; cbv iota in Hm;
    [|exact (IH (snd (next_called w)) c e rest r Hm He Hc)].
  injection Hm as <- _.
  destruct (export_record_run env options name data (snd (next_called w))
              (inr r) He) as (w1 & Hrun & Hfiles).
  assert (Hc1 : file_get (w_files w1) path = Some c) by now rewrite Hfiles.
  destruct (out_good env path (write env r) w1 c (Htake _ _) Hc1)
    as (w2 & Hout & Hc2).
  assert (Hstep :
    (resObj <- export_record env options (wallet env) name data ;;
     if 0 =? 0 then out env (mkStream path true) (write env resObj)
     else out env (mkStream path true) ("," ^^ write env resObj))
      (snd (next_called w)) = (inr (mkStream path true), w2)).
  { now rewrite (bind_inr _ _ _ _ _ Hrun). }
  rewrite (bind_inr _ _ _ _ _ Hstep).
  unfold bind at 1, LogPrintf at 1.
  change (int_add 0 1) with 1.
  destruct (Z.eqb_spec maxCount (-1)); [contradiction|].
  destruct (Z.geb_spec 1 maxCount); [|lia].
  cbn [negb andb]. eexists. split; [reflexivity|exact Hc2].
Qed.

Lemma emit_capped env maxCount nameStr ms :
  maxCount <> -1 -> maxCount <= 0 ->
  emit env maxCount (nameStr :: ms) 0 = (write env (VSTR nameStr), 1).
Proof.
  intros Hne Hle. simpl. change (int_add 0 1) with 1.
  destruct (Z.eqb_spec maxCount (-1)); [contradiction|].
  destruct (Z.geb_spec 1 maxCount); [|lia]. reflexivity.
Qed.

Lemma emit_three env maxCount s1 s2 s3 :
  maxCount = -1 \/ 3 <= maxCount ->
  emit env maxCount [s1; s2; s3] 0
  = (write env (VSTR s1) ^^ "," ^^ endl ^^ write env (VSTR s2)
     ^^ "," ^^ endl ^^ write env (VSTR s3), 3).
Proof.
  intros Hcap. simpl.
  change (int_add 0 1) with 1. change (int_add 1 1) with 2.
  change (int_add 2 1) with 3.
  assert (Hno : forall k, k < 3 ->
             negb (maxCount =? -1) && (k >=? maxCount) = false).
  { intros k Hk. destruct Hcap as [->|Hcap]; [reflexivity|].
    destruct (Z.geb_spec k maxCount); [lia|]. apply andb_false_r. }
  rewrite (Hno 1), (Hno 2) by lia. simpl.
  destruct (negb (maxCount =? -1) && (3 >=? maxCount));
    simpl; now rewrite ?append_empty_r.
Qed.

Lemma only_logs_export_arguments env request :
  only_logs (export_arguments env request).
Proof. unfold export_arguments, options_at. only_logs_step. Qed.

Lemma export_arguments_files env request w a w1 :
  export_arguments env request w = (inr a, w1) -> w_files w1 = w_files w.
Proof.
  intros Ha. destruct (only_logs_export_arguments env request w) as [_ H].
  now rewrite Ha in H.
Qed.

(** C10, amended: in an export whose count option is not -1 and not
    positive, over a database with at least one matching name, the cap is
    tested behind the first element.  Without history one name is counted
    and reported, whatever becomes of the output.  The element itself is
    written, between the brackets and alone, when the destination can be
    opened and its device takes every write: without history the first
    matching name; with history the record of the first matching entry when
    this record can be built, while the call ends in the error of the record
    and leaves the opening bracket alone in the file when it cannot.  When
    the destination cannot be opened, no file is changed. *)
Theorem name_export_count_not_positive (env : Env) (request : JSONRPCRequest)
  (w w1 : World) (a : ExportArgs) (nameStr : string) (ms : list string) :
  RPCHelpMan_Check "name_export" 2 3 request = inr tt ->
  RPCTypeCheck (params request) [TSTR; TSTR; TOBJ] false = inr tt ->
  IsInitialBlockDownload env = false ->
  export_arguments env request w = (inr a, w1) ->
  maxCount a <> -1 -> maxCount a <= 0 ->
  matching env (ex_regexp a) (names env) = nameStr :: ms ->
  (withHistory a = false ->
   fst (name_export env request w)
   = inr (VSTR (found_message 1 (regexpStr a)))) /\
  (can_open env (path a) = true -> takes_all env (path a) ->
   withHistory a = false ->
   exists w',
     name_export env request w
     = (inr (VSTR (found_message 1 (regexpStr a))), w')
     /\ file_get (w_files w') (path a)
        = Some ("[" ^^ endl ^^ write env (VSTR nameStr) ^^ endl ^^ "]")) /\
  (can_open env (path a) = true -> takes_all env (path a) ->
   withHistory a = true ->
   forall e rest,
     filter (fun e => regexp_matches env (ex_regexp a) (fst e)) (names env)
     = e :: rest ->
     match export_element env (ex_options a) e with
     | inr r =>
         exists w',
           name_export env request w
           = (inr (VSTR (found_message 1 (regexpStr a))), w')
           /\ file_get (w_files w') (path a)
              = Some ("[" ^^ endl ^^ write env r ^^ endl ^^ "]")
     | inl err =>
         exists w',
           name_export env request w = (inl err, w')
           /\ file_get (w_files w') (path a) = Some ("[" ^^ endl)
     end) /\
  (can_open env (path a) = false ->
   w_files (snd (name_export env request w)) = w_files w).
Proof.
  intros HC HT HI Ha Hne Hle Hmatch.
  rewrite (name_export_accepted env request w a w1 HC HT HI Ha).
  split; [|split; [|split]].
  - intros Hh.
    rewrite (export_names_answer env a w1 Hh), Hmatch.
    now rewrite (emit_capped env _ nameStr ms Hne Hle).
  - intros Hopen Htake Hh.
    destruct (export_names_plain env a w1 Hh Hopen Htake)
      as (w' & Hrun & Hfile).
    rewrite Hmatch, (emit_capped env _ nameStr ms Hne Hle) in Hrun, Hfile.
    exists w'. split; [exact Hrun|exact Hfile].
  - intros Hopen Htake Hh e rest Hfirst. unfold export_names. rewrite Hh.
    destruct (open_good env (path a) w1 Hopen) as (w2 & Hw2 & Hc2).
    rewrite (bind_inr _ _ _ _ _ Hw2).
    destruct (out_good env (path a) ("[" ^^ endl) w2 _ (Htake _ _) Hc2)
      as (w3 & Hw3 & Hc3).
    rewrite (bind_inr _ _ _ _ _ Hw3).
    destruct (export_element env (ex_options a) e) as [err|r] eqn:He.
    + destruct (export_loop_first_fails env (ex_options a) (ex_regexp a)
                  (maxCount a) (mkStream (path a) true) (names env) 0 w3 e
                  rest err Hfirst He) as (w4 & Hloop & Hfiles).
      exists w4. rewrite (bind_inl _ _ _ _ _ Hloop).
      split; [reflexivity|]. now rewrite Hfiles.
    + destruct (export_loop_one_record env (ex_options a) (ex_regexp a)
                  (maxCount a) (path a) (names env) Htake Hne Hle w3 _ e
                  rest r Hfirst He Hc3) as (w4 & Hloop & Hc4).
      rewrite (bind_inr _ _ _ _ _ Hloop). cbn [fst snd].
      destruct (out_good env (path a) (endl ^^ "]") w4 _ (Htake _ _) Hc4)
        as (w5 & Hw5 & Hc5).
      rewrite (bind_inr _ _ _ _ _ Hw5).
      eexists. split; [reflexivity|].
      simpl w_files. rewrite Hc5. now rewrite !append_assoc.
  - intros Hopen.
    rewrite (export_names_unopened env a w1 Hopen).
    exact (export_arguments_files env request w a w1 Ha).
Qed.

Lemma name_export_count_not_positive_witness :
  exists w',
    name_export Demo.node capped_request Demo.world0
    = (inr (VSTR (found_message 1 "d/")), w')
    /\ file_get (w_files w') "/tmp/names.json"
       = Some ("[" ^^ endl ^^ write Demo.node (VSTR "d/a") ^^ endl ^^ "]").
Proof.
  apply (proj1 (proj2 (name_export_count_not_positive Demo.node
                         capped_request Demo.world0 Demo.world0 capped_args
                         "d/a" ["d/b"; "d/abc"]
                         eq_refl eq_refl eq_refl eq_refl
                         ltac:(discriminate) ltac:(simpl; lia) eq_refl)));
    [reflexivity|intros content data; reflexivity|reflexivity].
Defined.

Lemma one_element_written_counterexample :
  ~ one_element_written Demo.node unwritable_capped_request Demo.world0.
Proof.
  intros H.
  destruct (H (mkExportArgs (VOBJ [("count", VNUM 0)]) (sregex_of "d/")
                 "d/" "/etc/names.json" false 0)
              Demo.world0 "d/a" ["d/b"; "d/abc"] eq_refl
              ltac:(discriminate) ltac:(simpl; lia) eq_refl) as [v Hv].
  vm_compute in Hv. discriminate Hv.
Qed.

(** C6, amended: an export without history, with no count cap below 3 and
    into a destination that can be opened and whose device takes every
    write, over a database in which exactly three names match, reports
    three names and leaves in the file an opening bracket, the three names
    as JSON strings with a comma and a line break between two of them and
    none behind the last, and the closing bracket. *)
Theorem name_export_three_names (env : Env) (request : JSONRPCRequest)
  (w w1 : World) (a : ExportArgs) (s1 s2 s3 : string) :
  RPCHelpMan_Check "name_export" 2 3 request = inr tt ->
  RPCTypeCheck (params request) [TSTR; TSTR; TOBJ] false = inr tt ->
  IsInitialBlockDownload env = false ->
  export_arguments env request w = (inr a, w1) ->
  withHistory a = false ->
  maxCount a = -1 \/ 3 <= maxCount a ->
  can_open env (path a) = true ->
  takes_all env (path a) ->
  matching env (ex_regexp a) (names env) = [s1; s2; s3] ->
  exists w',
    name_export env request w
    = (inr (VSTR (found_message 3 (regexpStr a))), w')
    /\ file_get (w_files w') (path a)
       = Some ("[" ^^ endl
               ^^ write env (VSTR s1) ^^ "," ^^ endl
               ^^ write env (VSTR s2) ^^ "," ^^ endl
               ^^ write env (VSTR s3) ^^ endl ^^ "]").
Proof.
  intros HC HT HI Ha Hh Hcap Hopen Htake Hmatch.
  rewrite (name_export_accepted env request w a w1 HC HT HI Ha).
  destruct (export_names_plain env a w1 Hh Hopen Htake)
    as (w' & Hrun & Hfile).
  rewrite Hmatch, (emit_three env _ s1 s2 s3 Hcap) in Hrun, Hfile.
  exists w'. split; [exact Hrun|].
  rewrite Hfile. cbn [fst]. now rewrite !append_assoc.
Qed.

Lemma name_export_three_names_witness :
  exists w',
    name_export Demo.node three_request Demo.world0
    = (inr (VSTR (found_message 3 "d/")), w')
    /\ file_get (w_files w') "/tmp/names.json"
       = Some ("[" ^^ endl
               ^^ write Demo.node (VSTR "d/a") ^^ "," ^^ endl
               ^^ write Demo.node (VSTR "d/b") ^^ "," ^^ endl
               ^^ write Demo.node (VSTR "d/abc") ^^ endl ^^ "]").
Proof.
  apply (name_export_three_names Demo.node three_request Demo.world0
           Demo.world0 three_args "d/a" "d/b" "d/abc"
           eq_refl eq_refl eq_refl eq_refl eq_refl (or_introl eq_refl)
           eq_refl (fun _ _ => eq_refl) eq_refl).
Defined.

Lemma three_names_written_counterexample :
  ~ three_names_written Demo.node two_request Demo.world0.
Proof.
  intros H.
  pose proof (H two_args Demo.world0 "d/a" "d/b" "d/abc" eq_refl eq_refl
                eq_refl) as Hfile.
  vm_compute in Hfile. discriminate Hfile.
Qed.

(** C4, amended: [name_export] never looks at the state of its stream.
    When the destination can be opened and its device takes every write, an
    export that returns normally leaves in it an opening bracket, the
    elements it counted (each the rendering of a JSON value) with a comma
    between two of them, and the closing bracket.  A failure of the output
    raises no error.  When the destination cannot be opened, no file is
    changed; when it is opened and its device refuses the first write, the
    file is left empty, without a bracket.  An export without history
    returns its count of names whatever becomes of the output. *)
Theorem name_export_destination (env : Env) (request : JSONRPCRequest)
  (w w1 : World) (a : ExportArgs) :
  RPCHelpMan_Check "name_export" 2 3 request = inr tt ->
  RPCTypeCheck (params request) [TSTR; TSTR; TOBJ] false = inr tt ->
  IsInitialBlockDownload env = false ->
  export_arguments env request w = (inr a, w1) ->
  Z.of_nat (List.length (names env)) <= INT_MAX ->
  (can_open env (path a) = true -> takes_all env (path a) ->
   forall res w',
     name_export env request w = (inr res, w') ->
     exists elems,
       res = VSTR (found_message (Z.of_nat (List.length elems)) (regexpStr a))
       /\ file_get (w_files w') (path a)
          = Some ("[" ^^ endl ^^ join (separator (withHistory a)) elems
                  ^^ endl ^^ "]")
       /\ Forall (fun e => exists v, e = write env v) elems) /\
  (can_open env (path a) = false ->
   w_files (snd (name_export env request w)) = w_files w) /\
  (can_open env (path a) = true ->
   accepts env (path a) EmptyString ("[" ^^ endl) = false ->
   file_get (w_files (snd (name_export env request w))) (path a)
   = Some EmptyString) /\
  (withHistory a = false ->
   exists count,
     fst (name_export env request w)
     = inr (VSTR (found_message count (regexpStr a)))).
Proof.
  intros HC HT HI Ha Hlen.
  rewrite (name_export_accepted env request w a w1 HC HT HI Ha).
  split; [|split; [|split]].
  - intros Hopen Htake res w' Hrun.
    apply export_names_inv in Hrun
      as (w2 & n & f & w3 & Hc2 & Hloop & -> & Hend); trivial.
    apply export_loop_written with (c := "[" ^^ endl) in Hloop
      as (elems & -> & Hf & Hc3 & Hall); trivial; try lia.
    exists elems. split; [reflexivity|split; [|exact Hall]].
    rewrite (Hend Hf _ Hc3). unfold pieces. simpl (0 =? 0).
    cbv iota. now rewrite !append_assoc.
  - intros Hopen.
    rewrite (export_names_unopened env a w1 Hopen).
    exact (export_arguments_files env request w a w1 Ha).
  - intros Hopen Hrefuse. now apply export_names_refused.
  - intros Hh. rewrite (export_names_answer env a w1 Hh). now eexists.
Qed.

Lemma name_export_destination_witness :
  file_get (w_files (snd (name_export Demo.node full_request Demo.world0)))
    "/tmp/full" = Some EmptyString
  /\ exists count,
       fst (name_export Demo.node full_request Demo.world0)
       = inr (VSTR (found_message count "d/")).
Proof.
  destruct (name_export_destination Demo.node full_request
              Demo.world0 Demo.world0 full_args
              eq_refl eq_refl eq_refl eq_refl)
    as (_ & _ & Hfull & Hanswer).
  - unfold INT_MAX. simpl. lia.
  - split; [exact (Hfull eq_refl eq_refl)|exact (Hanswer eq_refl)].
Defined.

Lemma io_failure_surfaced_counterexample :
  ~ io_failure_surfaced Demo.node unwritable_request Demo.world0.
Proof.
  intros H. destruct (H "/etc/names.json") as [e He]; try reflexivity.
  vm_compute in He. discriminate.
Qed.

(** ** Export: timestamps *)

Lemma unresolved_not_found env entry :
  GetTransaction env (hash (getUpdateOutpoint entry)) = None ->
  unresolved env entry.
Proof.
  intros H ready resRecord keyName. unfold pushTimestampOfDataTx.
  rewrite H. now eexists.
Qed.

Lemma unresolved_no_time env entry tx hash_block :
  GetTransaction env (hash (getUpdateOutpoint entry)) = Some (tx, hash_block) ->
  find_value (TxToJSON env tx hash_block (VOBJ [])) "time" = VNULL ->
  unresolved env entry.
Proof.
  intros H Htime ready resRecord keyName. unfold pushTimestampOfDataTx.
  rewrite H, Htime. now eexists.
Qed.

Lemma fails_bind {A B} (m : M A) (k : A -> M B) :
  (forall a, fails (k a)) -> fails (bind m k).
Proof.
  intros Hk w. unfold bind. destruct (m w) as [[e|a] w1].
  - now exists e, w1.
  - apply Hk.
Qed.

Lemma fails_lift_unresolved {B} env entry ready resRecord keyName
  (k : UniValue -> M B) :
  unresolved env entry ->
  fails (bind (lift (pushTimestampOfDataTx env entry ready resRecord keyName))
           k).
Proof.
  intros Hu w. destruct (Hu ready resRecord keyName) as [e He].
  rewrite bind_lift, He. now exists e, w.
Qed.

Lemma export_history_loop_fails env options name pwallet ready history :
  (exists entry, In entry history /\ unresolved env entry) ->
  forall resHistory,
    fails (export_history_loop env options name pwallet ready history
             resHistory).
Proof.
  intros (entry & Hin & Hu).
  induction history as [|entry' rest IH]; intros resHistory; simpl;
    [contradiction|].
  apply fails_bind. intros resRecord.
  destruct Hin as [->|Hin].
  - now apply fails_lift_unresolved.
  - apply fails_bind. intros resRecord'. now apply IH.
Qed.

Lemma export_record_fails env options pwallet name data :
  unresolved env data
  \/ (exists entry, In entry (history_of env name) /\ unresolved env entry) ->
  fails (export_record env options pwallet name data).
Proof.
  intros Hu. unfold export_record.
  apply fails_bind. intros resObj.
  destruct Hu as [Hu|Hu].
  - now apply fails_lift_unresolved.
  - apply fails_bind. intros resObj'. intros w.
    match goal with
    | |- context [export_history_loop env options name pwallet ?ready
                    ?history ?res] =>
        destruct (export_history_loop_fails env options name pwallet ready
                    history Hu res w) as (e & w' & He)
    end.
    exists e, w'. now rewrite (bind_inl _ _ _ _ _ He).
Qed.

Lemma fails_first {A B} (m : M A) (k : A -> M B) :
  fails m -> fails (bind m k).
Proof.
  intros Hm w. destruct (Hm w) as (e & w' & He).
  exists e, w'. now rewrite (bind_inl _ _ _ _ _ He).
Qed.

(** The loop fails at a matching entry without timestamp, when the count
    cap does not stop it before. *)
Lemma export_loop_unresolved env options pwallet regexp maxCount name data
  post :
  regexp_matches env regexp name = true ->
  fails (export_record env options pwallet name data) ->
  forall pre count stream,
    0 <= count -> count + Z.of_nat (List.length pre) < INT_MAX ->
    maxCount = -1 \/ matching env regexp pre = []
    \/ count + Z.of_nat (List.length (matching env regexp pre)) < maxCount ->
    fails (export_loop env options pwallet regexp true maxCount stream
             (pre ++ (name, data) :: post) count).
Proof.
  intros Hmatch Hrec.
  induction pre as [|[name0 data0] pre' IH];
    intros count stream H0 Hlen Hreach w; simpl; rewrite bind_next_called.
  - unfold regexp_matches in Hmatch.
    destruct (EncodeName env name UTF8) as [nameStr|]; [|discriminate].
    rewrite Hmatch. simpl.
    apply fails_first. now apply fails_first.
  - simpl List.length in Hlen. unfold matching in Hreach. simpl in Hreach.
    fold (matching env regexp pre') in Hreach.
    destruct (EncodeName env name0 UTF8) as [nameStr|];
      [|apply IH; trivial; lia].
    destruct (regex_search env nameStr regexp); simpl;
      [|apply IH; trivial; lia].
    apply fails_bind. intros stream'. apply fails_bind. intros _.
    assert (Hcount : int_add count 1 = count + 1).
    { apply int_add_1. lia. }
    rewrite Hcount. simpl in Hreach.
    assert (Hgo : negb (maxCount =? -1) && (count + 1 >=? maxCount) = false).
    { destruct Hreach as [->|[Hnil|Hlt]]; [reflexivity|discriminate|].
      destruct (Z.geb_spec (count + 1) maxCount); [lia|].
      apply andb_false_r. }
    rewrite Hgo. apply IH; try lia.
    destruct Hreach as [->|[Hnil|Hlt]]; [now left|discriminate|].
    right. right. lia.
Qed.

(** C5: in an export with history, when the loop reaches a matching name
    (the count cap has not stopped it before) and the originating transaction
    of its record, or of one entry of its history, gives no timestamp, the
    whole request ends in an error. *)
Theorem name_export_unresolved_timestamp (env : Env)
  (request : JSONRPCRequest) (w w1 : World) (a : ExportArgs)
  (pre post : list (valtype * CNameData)) (name : valtype)
  (data : CNameData) :
  RPCHelpMan_Check "name_export" 2 3 request = inr tt ->
  RPCTypeCheck (params request) [TSTR; TSTR; TOBJ] false = inr tt ->
  IsInitialBlockDownload env = false ->
  export_arguments env request w = (inr a, w1) ->
  withHistory a = true ->
  names env = pre ++ (name, data) :: post ->
  Z.of_nat (List.length (names env)) <= INT_MAX ->
  regexp_matches env (ex_regexp a) name = true ->
  maxCount a = -1
  \/ Z.of_nat (List.length (matching env (ex_regexp a) pre))
     < Z.max 1 (maxCount a) ->
  unresolved env data
  \/ (exists entry, In entry (history_of env name) /\ unresolved env entry) ->
  exists e w', name_export env request w = (inl e, w').
Proof.
  intros HC HT HI Ha Hh Hnames Hlen Hmatch Hreach Hu.
  rewrite (name_export_accepted env request w a w1 HC HT HI Ha).
  unfold export_names. rewrite Hh, Hnames.
  apply fails_bind. intros outfile. apply fails_bind. intros outfile'.
  apply fails_first.
  rewrite Hnames, length_app in Hlen. simpl List.length in Hlen.
  apply export_loop_unresolved; trivial; try lia.
  - now apply export_record_fails.
  - destruct Hreach as [Hall|Hlt]; [now left|right].
    destruct (matching env (ex_regexp a) pre); [now left|right].
    simpl List.length in *. lia.
Qed.

Lemma name_export_unresolved_timestamp_witness :
  exists e w',
    name_export Demo.history_node history_request Demo.world0 = (inl e, w').
Proof.
  apply (name_export_unresolved_timestamp Demo.history_node history_request
           Demo.world0 Demo.world0 history_args
           [] [("d/b", Demo.rec 101); ("x/c", Demo.rec 102);
               ("d/abc", Demo.rec 100)] "d/a" (Demo.rec 100)
           eq_refl eq_refl eq_refl eq_refl eq_refl eq_refl).
  - unfold INT_MAX. simpl. lia.
  - reflexivity.
  - now left.
  - left. now apply unresolved_not_found.
Defined.

(** ** Pagination of a scan *)

Lemma pure_DecodeNameFromRPCOrThrow env val opt :
  pure_result (DecodeNameFromRPCOrThrow env val opt).
Proof.
  unfold DecodeNameFromRPCOrThrow, DecodeNameValueFromRPCOrThrow.
  apply pure_bind; [apply pure_EncodingFromOptionsJson|intros enc].
  apply pure_bind; [auto with pure|intros str].
  destruct (DecodeName env str enc); auto with pure.
Qed.

Lemma pure_scan_parse_options env options :
  pure_result (scan_parse_options env options).
Proof.
  unfold scan_parse_options.
  repeat first
    [ solve [auto using pure_DecodeNameFromRPCOrThrow with pure]
    | apply pure_bind; [|intros ?]
    | apply pure_if
    | match goal with
      | |- pure_result (match ?x with _ => _ end) => destruct x
      end ].
Qed.

Lemma pure_scan_loop env options pwallet maxHeight minHeight prefix
  haveRegexp regexp iter :
  forall count res,
    pure_result (scan_loop env options pwallet maxHeight minHeight prefix
                   haveRegexp regexp iter count res).
Proof.
  induction iter as [|[name data] iter' IH]; intros count res; simpl.
  - destruct (count >? 0); auto with pure.
    apply pure_bind; auto with pure.
  - destruct (count >? 0); auto with pure.
    apply pure_bind; auto with pure. intros _.
    repeat match goal with
           | |- pure_result (if ?b then _ else _) => destruct b; [apply IH|]
           end.
    apply pure_bind; [apply pure_getNameInfo_wallet|intros info; apply IH].
Qed.

Lemma pure_scan_names env options start count f :
  pure_result (scan_names env options start count f).
Proof.
  unfold scan_names. destruct (count <=? 0); auto with pure.
  apply pure_scan_loop.
Qed.

Lemma scan_loop_collect env options f iter :
  forall count res w,
    0 <= count <= INT_MAX ->
    fst (scan_loop env options (wallet env) (maxHeight_of env f)
           (minHeight_of env f) (prefix f) (haveRegexp f) (regexp f) iter
           count (VARR res) w)
    = array_of (collect (map (info env options)
                           (firstn (Z.to_nat count)
                              (filter (passes env f) iter))) res).
Proof.
  induction iter as [|[name data] iter' IH]; intros count res w Hc; simpl.
  - rewrite firstn_nil. destruct (count >? 0); reflexivity.
  - destruct (Z.gtb_spec count 0) as [Hpos|Hzero].
    2:{ replace count with 0 by lia. reflexivity. }
    rewrite bind_next_called. unfold passes at 1. simpl fst. simpl snd.
    destruct (getHeight data >? maxHeight_of env f); simpl;
      [now apply IH|].
    destruct ((minHeight_of env f >=? 0)
              && (getHeight data <? minHeight_of env f)); simpl;
      [now apply IH|].
    destruct (has_prefix (prefix f) name); simpl; [|now apply IH].
    destruct (haveRegexp f && negb (regexp_matches env (regexp f) name));
      simpl; [now apply IH|].
    destruct (Z.to_nat count) as [|k] eqn:Ek; [lia|]. simpl.
    unfold info at 1. simpl fst. simpl snd.
    rewrite fst_bind by (intros a; apply pure_scan_loop).
    rewrite (pure_getNameInfo_wallet env options name data (wallet env)
               _ initial_world).
    destruct (fst (getNameInfo_wallet env options name data (wallet env)
                     initial_world)) as [e|o]; [reflexivity|].
    simpl push_back.
    assert (Hsub : int_sub count 1 = count - 1).
    { apply wrap_int_id. unfold int_range, INT_MIN, INT_MAX in *. lia. }
    rewrite Hsub, IH by (unfold INT_MAX in *; lia).
    replace (Z.to_nat (count - 1)) with k by lia. reflexivity.
Qed.

Lemma scan_names_collect env options start count f w :
  count <= INT_MAX ->
  fst (scan_names env options start count f w)
  = array_of (collect (map (info env options) (selected env f start count))
                []).
Proof.
  intros Hc. unfold scan_names, selected.
  destruct (Z.leb_spec count 0) as [Hle|Hpos].
  - replace (Z.to_nat count) with 0%nat by lia. reflexivity.
  - apply scan_loop_collect. lia.
Qed.

Lemma collect_app infos1 infos2 :
  forall res,
    collect (infos1 ++ infos2) res
    = match collect infos1 res with
      | inl e => inl e
      | inr r => collect infos2 r
      end.
Proof.
  induction infos1 as [|[e|o] rest IH]; intros res; simpl; trivial.
Qed.

Lemma collect_values vals :
  forall res, collect (map inr vals) res = inr (res ++ vals).
Proof.
  induction vals as [|o rest IH]; intros res; simpl.
  - now rewrite app_nil_r.
  - rewrite IH, <- app_assoc. reflexivity.
Qed.

Lemma collect_inv infos :
  forall res r,
    collect infos res = inr r ->
    exists vals, infos = map inr vals /\ r = res ++ vals.
Proof.
  induction infos as [|[e|o] rest IH]; intros res r H; simpl in H.
  - injection H as <-. exists []. now rewrite app_nil_r.
  - discriminate.
  - apply IH in H as (vals & -> & ->). exists (o :: vals).
    now rewrite <- app_assoc.
Qed.

Lemma seek_at env pre e post :
  sorted_names env (pre ++ e :: post) = true ->
  seek env (fst e) (pre ++ e :: post) = e :: post.
Proof.
  induction pre as [|e0 pre' IH]; simpl; intros H;
    apply andb_true_iff in H as [H Hrest];
    apply andb_true_iff in H as [Hirr Hall].
  - apply negb_true_iff in Hirr. now rewrite Hirr.
  - rewrite forallb_app in Hall. apply andb_true_iff in Hall as [_ Hall].
    simpl in Hall. apply andb_true_iff in Hall as [-> _]. now apply IH.
Qed.

Lemma seek_suffix env start db :
  exists pre, db = pre ++ seek env start db.
Proof.
  induction db as [|e rest [pre IH]]; simpl.
  - now exists [].
  - destruct (name_less env (fst e) start).
    + exists (e :: pre). simpl. now f_equal.
    + now exists [].
Qed.

Lemma filter_split {A} (p : A -> bool) (l : list A) :
  forall front e back,
    filter p l = front ++ e :: back ->
    exists l1 l2,
      l = l1 ++ e :: l2 /\ filter p l1 = front /\ filter p l2 = back
      /\ p e = true.
Proof.
  induction l as [|x rest IH]; intros front e back H; simpl in H.
  - now destruct front.
  - destruct (p x) eqn:Ex.
    + destruct front as [|y front'].
      * injection H as <- Hback. exists [], rest. now repeat split.
      * injection H as <- H. apply IH in H as (l1 & l2 & -> & <- & <- & He).
        exists (x :: l1), l2. simpl. rewrite Ex. now repeat split.
    + apply IH in H as (l1 & l2 & -> & <- & <- & He).
      exists (x :: l1), l2. simpl. rewrite Ex. now repeat split.
Qed.

(** Resuming a scan at the last name it listed. *)
Lemma selected_resume env f X N M front eL :
  sorted_names env (names env) = true ->
  1 <= M ->
  selected env f X N = front ++ [eL] ->
  exists more,
    selected env f (fst eL) M = eL :: more
    /\ selected env f X (N + M - 1) = (front ++ [eL]) ++ more.
Proof.
  intros Hsorted HM Hsel. unfold selected in *.
  set (listed := filter (passes env f) (seek env X (names env))) in *.
  assert (HN : (List.length (front ++ [eL]) <= Z.to_nat N)%nat).
  { rewrite <- Hsel. apply firstn_le_length. }
  rewrite length_app in HN. simpl in HN.
  pose proof (firstn_skipn (Z.to_nat N) listed) as Hlisted.
  rewrite Hsel, <- app_assoc in Hlisted. simpl in Hlisted.
  destruct (filter_split _ _ _ _ _ (eq_sym Hlisted))
    as (l1 & l2 & Hseek & Hfront & Hback & HeL).
  destruct (seek_suffix env X (names env)) as [pre Hpre].
  rewrite Hseek in Hpre.
  assert (Hat : seek env (fst eL) (names env) = eL :: l2).
  { rewrite Hpre at 1. rewrite app_assoc. apply seek_at.
    rewrite <- app_assoc, <- Hpre. exact Hsorted. }
  exists (firstn (Z.to_nat (M - 1)) (filter (passes env f) l2)).
  split.
  - rewrite Hat. simpl. rewrite HeL.
    replace (Z.to_nat M) with (S (Z.to_nat (M - 1))) by lia. reflexivity.
  - rewrite <- Hlisted, Hback.
    change (front ++ eL :: skipn (Z.to_nat N) listed)
      with (front ++ [eL] ++ skipn (Z.to_nat N) listed).
    rewrite app_assoc.
    replace (Z.to_nat (N + M - 1))
      with (List.length (front ++ [eL])
            + (Z.to_nat (N + M - 1) - List.length (front ++ [eL])))%nat
      by (rewrite length_app; simpl; lia).
    rewrite firstn_app_2. f_equal.
    rewrite length_app. simpl List.length.
    destruct (Nat.eq_dec (List.length front + 1) (Z.to_nat N)) as [Hfull|Hshort].
    + f_equal. lia.
    + assert (Hend : skipn (Z.to_nat N) listed = []).
      { apply skipn_all2.
        assert (Hlen : List.length (firstn (Z.to_nat N) listed)
                       = (List.length front + 1)%nat).
        { rewrite Hsel, length_app. reflexivity. }
        rewrite length_firstn in Hlen. lia. }
      rewrite Hend. now rewrite !firstn_nil.
Qed.

Lemma info_name env options e o s :
  info env options e = inr o ->
  find_value o "name" = VSTR s ->
  exists enc,
    name_encoding env options = inr enc /\ EncodeName env (fst e) enc = Some s.
Proof.
  unfold info, name_encoding, getNameInfo_wallet, getNameInfo_data,
    getNameInfo, bind.
  destruct (EncodingFromOptionsJson options "nameEncoding" _ initial_world)
    as [[e1|enc] w1]; simpl; [discriminate|].
  destruct (EncodingFromOptionsJson options "valueEncoding" _ w1)
    as [[e2|venc] w2]; simpl; [discriminate|].
  intros Ho Hname. injection Ho as <-. exists enc. split; trivial.
  revert Hname.
  unfold AddEncodedNameToUniv, addExpirationInfo, addOwnershipInfo.
  destruct (EncodeName env (fst e) enc);
    destruct (EncodeName env (getValue (snd e)) venc);
    destruct (wallet env); cbn; congruence.
Qed.

Lemma info_total env options e1 o1 e2 :
  info env options e1 = inr o1 -> exists o2, info env options e2 = inr o2.
Proof.
  unfold info, getNameInfo_wallet, getNameInfo_data, getNameInfo, bind.
  destruct (EncodingFromOptionsJson options "nameEncoding" _ initial_world)
    as [[e|enc] w1]; simpl; [discriminate|].
  destruct (EncodingFromOptionsJson options "valueEncoding" _ w1)
    as [[e|venc] w2]; simpl; [discriminate|].
  intros _. now eexists.
Qed.

Lemma infos_total env options e1 o1 l :
  info env options e1 = inr o1 ->
  exists vals, map (info env options) l = map inr vals.
Proof.
  intros H1. induction l as [|e l' [vals IH]].
  - now exists [].
  - destruct (info_total env options e1 o1 e H1) as [o Ho].
    exists (o :: vals). simpl. now rewrite Ho, IH.
Qed.

(** The result of a scan request with the three arguments, step by step. *)
Lemma name_scan_request env X N kvs w :
  IsInitialBlockDownload env = false ->
  fst (name_scan env (scan_request X N (VOBJ kvs)) w)
  = match name_encoding env (VOBJ kvs) with
    | inl e => inl e
    | inr enc =>
        match DecodeName env X enc with
        | None =>
            inl (JSONRPCError RPC_NAME_INVALID_ENCODING
                   ("Name/value is invalid for encoding "
                    ^^ EncodingToString enc))
        | Some start =>
            match get_int (VNUM N) with
            | inl e => inl e
            | inr count =>
                match fst (scan_parse_options env (VOBJ kvs) initial_world)
                with
                | inl e => inl e
                | inr f =>
                    fst (scan_names env (VOBJ kvs) start count f
                           initial_world)
                end
            end
        end
    end.
Proof.
  intros HI. unfold name_scan, scan_request, options_at, params_size, param,
    IBD_check, name_encoding.
  cbn [params nth List.length Nat.ltb Nat.leb fHelp]. rewrite HI.
  change (RPCHelpMan_Check "name_scan" 0 3
            (mkRequest false [VSTR X; VNUM N; VOBJ kvs])) with (@inr Exception unit tt).
  change (RPCTypeCheck [VSTR X; VNUM N; VOBJ kvs] [TSTR; TNUM; TOBJ] false)
    with (@inr Exception unit tt).
  rewrite !bind_lift. simpl when_. rewrite bind_ret.
  unfold get_obj. rewrite bind_lift.
  assert (Hrest : forall start,
             pure_result
               (count <- lift (get_int (VNUM N)) ;;
                f <- scan_parse_options env (VOBJ kvs) ;;
                scan_names env (VOBJ kvs) start count f)).
  { intros start. apply pure_bind; [auto with pure|intros count].
    apply pure_bind; [apply pure_scan_parse_options|intros f].
    apply pure_scan_names. }
  rewrite fst_bind by exact Hrest.
  unfold DecodeNameFromRPCOrThrow, DecodeNameValueFromRPCOrThrow.
  rewrite fst_bind.
  2:{ intros enc. apply pure_bind; [auto with pure|intros str].
      destruct (DecodeName env str enc); auto with pure. }
  rewrite (pure_EncodingFromOptionsJson (VOBJ kvs) "nameEncoding" _ w
             initial_world).
  destruct (fst (EncodingFromOptionsJson (VOBJ kvs) "nameEncoding" _
                   initial_world)) as [e|enc]; [reflexivity|].
  rewrite bind_lift. simpl get_str. cbv iota.
  destruct (DecodeName env X enc) as [start|]; [|reflexivity].
  unfold ret at 1. cbn [fst].
  rewrite (Hrest start w initial_world).
  rewrite fst_bind.
  2:{ intros count. apply pure_bind; [apply pure_scan_parse_options|intros f].
      apply pure_scan_names. }
  unfold lift at 1. cbn [fst].
  destruct (get_int (VNUM N)) as [e|count]; [reflexivity|].
  rewrite fst_bind by (intros f; apply pure_scan_names).
  reflexivity.
Qed.

Lemma name_scan_request_inv env X N options w r :
  fst (name_scan env (scan_request X N options) w) = inr r ->
  IsInitialBlockDownload env = false /\ exists kvs, options = VOBJ kvs.
Proof.
  unfold name_scan, scan_request, IBD_check.
  cbn [params]. rewrite bind_lift.
  change (RPCHelpMan_Check "name_scan" 0 3
            (mkRequest false [VSTR X; VNUM N; options]))
    with (@inr Exception unit tt).
  cbv iota. rewrite bind_lift.
  destruct options; try (simpl; discriminate).
  change (RPCTypeCheck [VSTR X; VNUM N; VOBJ kvs] [TSTR; TNUM; TOBJ] false)
    with (@inr Exception unit tt).
  cbv iota. destruct (IsInitialBlockDownload env); [simpl; discriminate|].
  intros _. split; trivial. now exists kvs.
Qed.

(** What a scan request that succeeds went through. *)
Lemma name_scan_facts env X N kvs w r :
  IsInitialBlockDownload env = false ->
  fst (name_scan env (scan_request X N (VOBJ kvs)) w) = inr (VARR r) ->
  exists enc start f,
    name_encoding env (VOBJ kvs) = inr enc
    /\ DecodeName env X enc = Some start
    /\ int_range N
    /\ fst (scan_parse_options env (VOBJ kvs) initial_world) = inr f
    /\ collect (map (info env (VOBJ kvs)) (selected env f start N)) []
       = inr r.
Proof.
  intros HI. rewrite (name_scan_request env X N kvs w HI).
  destruct (name_encoding env (VOBJ kvs)) as [e|enc] eqn:Henc;
    [discriminate|].
  destruct (DecodeName env X enc) as [start|] eqn:Hdec; [|discriminate].
  simpl get_int. destruct (in_int N) eqn:EN; [|discriminate].
  apply in_int_true in EN.
  destruct (fst (scan_parse_options env (VOBJ kvs) initial_world))
    as [e|f] eqn:Hf; [discriminate|].
  rewrite scan_names_collect by apply EN.
  intros H. exists enc, start, f.
  split; [reflexivity|split; [exact Hdec|split; [exact EN|]]].
  split; [reflexivity|].
  destruct (collect _ _) as [e|res]; simpl in H; [discriminate|].
  injection H as H. now subst.
Qed.

Lemma name_scan_run env X N kvs w enc start f :
  IsInitialBlockDownload env = false ->
  name_encoding env (VOBJ kvs) = inr enc ->
  DecodeName env X enc = Some start ->
  int_range N ->
  fst (scan_parse_options env (VOBJ kvs) initial_world) = inr f ->
  fst (name_scan env (scan_request X N (VOBJ kvs)) w)
  = array_of (collect (map (info env (VOBJ kvs)) (selected env f start N))
                []).
Proof.
  intros HI Henc Hdec HN Hf.
  rewrite (name_scan_request env X N kvs w HI), Henc, Hdec.
  rewrite (get_int_VNUM N HN), Hf.
  apply scan_names_collect. apply HN.
Qed.

Lemma selected_length env f start count :
  0 <= count ->
  Z.of_nat (List.length (selected env f start count)) <= count.
Proof.
  intros Hc. unfold selected.
  pose proof (firstn_le_length (Z.to_nat count)
                (filter (passes env f) (seek env start (names env)))).
  lia.
Qed.

Lemma map_inr_length {A} (g : A -> Result UniValue) l vals :
  map g l = map inr vals -> List.length vals = List.length l.
Proof.
  intros H. apply (f_equal (@List.length _)) in H.
  now rewrite !length_map in H.
Qed.

(** C2, amended: a scan with count N >= 0 lists at most N records.  Over a
    database sorted for [seek], with an encoding that decodes what it
    encodes, a scan of N names that lists at least one, followed by a scan
    of M >= 1 names from the last name listed, gives with the repeated
    first record dropped the scan of N + M - 1 names from the first
    start. *)
Theorem name_scan_pagination (env : Env) (options : UniValue) (w : World) :
  (forall X N r,
     0 <= N ->
     fst (name_scan env (scan_request X N options) w) = inr (VARR r) ->
     Z.of_nat (List.length r) <= N) /\
  (sorted_names env (names env) = true ->
   (forall name enc str,
      EncodeName env name enc = Some str ->
      DecodeName env str enc = Some name) ->
   forall X N M r1 o s,
     1 <= M -> N + M - 1 <= INT_MAX ->
     fst (name_scan env (scan_request X N options) w) = inr (VARR r1) ->
     r1 <> [] -> last r1 VNULL = o -> find_value o "name" = VSTR s ->
     exists r2,
       fst (name_scan env (scan_request s M options) w) = inr (VARR r2)
       /\ Z.of_nat (List.length r2) <= M
       /\ hd_error r2 = Some o
       /\ fst (name_scan env (scan_request X (N + M - 1) options) w)
          = inr (VARR (r1 ++ tl r2))).
Proof.
  split.
  - intros X N r HN H.
    destruct (name_scan_request_inv _ _ _ _ _ _ H) as [HI [kvs ->]].
    apply name_scan_facts in H as (enc & start & f & _ & _ & _ & _ & Hr);
      trivial.
    apply collect_inv in Hr as (vals & Hmap & ->). simpl.
    rewrite (map_inr_length _ _ _ Hmap). now apply selected_length.
  - intros Hsorted Hround X N M r1 o s HM Hbound H1 Hne Hlast Hname.
    destruct (name_scan_request_inv _ _ _ _ _ _ H1) as [HI [kvs ->]].
    apply name_scan_facts in H1 as (enc & start & f & Henc & Hdec & HN & Hf
                                    & Hr); trivial.
    apply collect_inv in Hr as (vals & Hmap & Hvals). simpl in Hvals.
    subst vals.
    destruct (exists_last Hne) as (rfront & ol & ->).
    rewrite last_last in Hlast. subst ol.
    assert (Hsel : selected env f start N <> []).
    { intros Hnil. rewrite Hnil in Hmap. simpl in Hmap.
      now destruct rfront. }
    destruct (exists_last Hsel) as (front & eL & HeL).
    rewrite HeL, !map_app in Hmap. simpl in Hmap.
    apply app_inj_tail in Hmap as [Hfront Ho].
    destruct (info_name env (VOBJ kvs) eL o s Ho Hname)
      as (enc' & Henc' & Hs).
    rewrite Henc in Henc'. injection Henc' as <-.
    apply Hround in Hs.
    destruct (selected_resume env f start N M front eL Hsorted HM HeL)
      as (more & Hsel2 & Hsel12).
    destruct (infos_total env (VOBJ kvs) eL o more Ho) as [vmore Hmore].
    assert (HN1 : 1 <= N).
    { pose proof (selected_length env f start N) as Hlen.
      rewrite HeL, length_app in Hlen. simpl in Hlen.
      destruct (Z.le_gt_cases 1 N); trivial.
      unfold selected in HeL.
      replace (Z.to_nat N) with 0%nat in HeL by lia.
      simpl in HeL. now destruct front. }
    exists (o :: vmore). repeat split.
    + rewrite (name_scan_run env s M kvs w enc (fst eL) f); trivial.
      * rewrite Hsel2. simpl. rewrite Ho, Hmore. simpl.
        now rewrite collect_values.
      * unfold int_range, INT_MIN, INT_MAX in *. lia.
    + pose proof (selected_length env f (fst eL) M) as Hlen.
      rewrite Hsel2 in Hlen. simpl List.length in *.
      rewrite (map_inr_length _ _ _ Hmore). lia.
    + rewrite (name_scan_run env X (N + M - 1) kvs w enc start f); trivial.
      * rewrite Hsel12, !map_app, Hfront, Hmore. simpl map. rewrite Ho.
        change [@inr Exception UniValue o] with (map (@inr Exception _) [o]).
        rewrite <- !map_app, collect_values. reflexivity.
      * unfold int_range, INT_MIN, INT_MAX in *. lia.
Qed.

Lemma demo_round_trip name enc str :
  EncodeName Demo.node name enc = Some str ->
  DecodeName Demo.node str enc = Some name.
Proof.
  simpl. unfold Demo.encode, Demo.decode.
  destruct (Demo.all_printable name) eqn:E; [|discriminate].
  intros H. injection H as <-. now rewrite E.
Qed.

Lemma name_scan_pagination_witness :
  exists r1 r2,
    fst (name_scan Demo.node (scan_request "d/a" 2 (VOBJ [])) Demo.world0)
    = inr (VARR r1)
    /\ fst (name_scan Demo.node (scan_request "d/b" 2 (VOBJ [])) Demo.world0)
       = inr (VARR r2)
    /\ fst (name_scan Demo.node (scan_request "d/a" (2 + 2 - 1) (VOBJ []))
              Demo.world0)
       = inr (VARR (r1 ++ tl r2)).
Proof.
  eexists. 
  destruct (proj2 (name_scan_pagination Demo.node (VOBJ []) Demo.world0)
              eq_refl demo_round_trip "d/a" 2 2 _ _ "d/b"
              ltac:(lia) ltac:(unfold INT_MAX; lia) eq_refl
              ltac:(discriminate) eq_refl eq_refl)
    as (r2 & H2 & _ & _ & H12).
  exists r2. split; [reflexivity|split; [exact H2|exact H12]].
Defined.

Lemma pagination_counterexample :
  ~ pagination_as_stated Demo.node "d/a" 1 1 (VOBJ []) Demo.world0.
Proof.
  intros H.
  specialize (H _ _ _ _ "d/a" eq_refl ltac:(discriminate) eq_refl eq_refl
                eq_refl eq_refl).
  discriminate H.
Qed.

(** * Further properties of the handlers *)

(** ** Requests during the initial block download *)

(** X1: while the node is in its initial block download, a request that
    passes the help and type checks is refused by [name_show], [name_scan],
    [name_export] and (with -namehistory) [name_history] with the
    in-initial-download error, the world left as it was: nothing is logged,
    read or written. *)
Theorem queries_refused_during_download (env : Env)
  (request : JSONRPCRequest) (w : World) :
  IsInitialBlockDownload env = true ->
  (RPCHelpMan_Check "name_show" 1 2 request = inr tt ->
   RPCTypeCheck (params request) [TSTR; TOBJ] false = inr tt ->
   name_show env request w = (inl downloading, w)) /\
  (RPCHelpMan_Check "name_history" 1 2 request = inr tt ->
   RPCTypeCheck (params request) [TSTR; TOBJ] false = inr tt ->
   fNameHistory env = true ->
   name_history env request w = (inl downloading, w)) /\
  (RPCHelpMan_Check "name_scan" 0 3 request = inr tt ->
   RPCTypeCheck (params request) [TSTR; TNUM; TOBJ] false = inr tt ->
   name_scan env request w = (inl downloading, w)) /\
  (RPCHelpMan_Check "name_export" 2 3 request = inr tt ->
   name_export env request w = (inl downloading, w)).
Proof.
  intros HI. repeat split.
  - intros HC HT. unfold name_show, IBD_check. rewrite HC, HT, HI.
    reflexivity.
  - intros HC HT HH. unfold name_history, IBD_check.
    rewrite HC, HT, HH, HI. reflexivity.
  - intros HC HT. unfold name_scan, IBD_check. rewrite HC, HT, HI.
    reflexivity.
  - intros HC. unfold name_export, IBD_check. rewrite HC, HI. reflexivity.
Qed.

Lemma queries_refused_during_download_witness :
  name_scan (set_download true Demo.node)
    (mkRequest false [VSTR "d/a"; VNUM 5]) Demo.world0
  = (inl downloading, Demo.world0).
Proof.
  apply (proj1 (proj2 (proj2 (queries_refused_during_download
                                (set_download true Demo.node)
                                (mkRequest false [VSTR "d/a"; VNUM 5])
                                Demo.world0 eq_refl)))); reflexivity.
Defined.

(** ** name_history *)

(** X2: without -namehistory, [name_history] answers every request that
    passes the help and type checks with the error "-namehistory is not
    enabled", whatever the name, the options and the state of the chain; it
    never returns an array then. *)
Theorem name_history_disabled (env : Env) (request : JSONRPCRequest)
  (w : World) :
  fNameHistory env = false ->
  RPCHelpMan_Check "name_history" 1 2 request = inr tt ->
  RPCTypeCheck (params request) [TSTR; TOBJ] false = inr tt ->
  name_history env request w = (inl history_disabled, w).
Proof.
  intros HH HC HT. unfold name_history. rewrite HC, HT, HH. reflexivity.
Qed.

Lemma name_history_disabled_witness :
  name_history Demo.node (mkRequest false [VSTR "d/a"]) Demo.world0
  = (inl history_disabled, Demo.world0).
Proof.
  apply (name_history_disabled Demo.node (mkRequest false [VSTR "d/a"])
           Demo.world0 eq_refl eq_refl eq_refl).
Defined.

(** ** name_show *)

Lemma GetName_None env name :
  GetName env name = None <-> ~ In name (map fst (names env)).
Proof.
  unfold GetName. induction (names env) as [|e rest IH]; simpl.
  - tauto.
  - match goal with
    | |- context [String.eqb ?a ?b] =>
        destruct (String.eqb_spec a b) as [Heq|Hne]
    end; simpl.
    + split; [intros H; discriminate H|]. intros H. exfalso. apply H. now left.
    + rewrite IH. tauto.
Qed.

Lemma GetName_Some env name data :
  GetName env name = Some data -> In (name, data) (names env).
Proof.
  unfold GetName. induction (names env) as [|e rest IH]; simpl.
  - discriminate.
  - match goal with
    | |- context [String.eqb ?a ?b] =>
        destruct (String.eqb_spec a b) as [Heq|Hne]
    end; simpl; intros H.
    + injection H as H. left. destruct e. simpl in *. now subst.
    + right. now apply IH.
Qed.

(** X3: [name_show] on a name that decodes: when the database has no such
    name the request fails with the wallet error "name not found: ..."; when
    it has, the answer is the record [getNameInfo] builds for the data
    stored under that name, with the options of the request. *)
Theorem name_show_lookup (env : Env) (s : string)
  (kvs : list (string * UniValue)) (w w1 : World) (name : valtype) :
  IsInitialBlockDownload env = false ->
  DecodeNameFromRPCOrThrow env (VSTR s) (VOBJ kvs) w = (inr name, w1) ->
  let request := mkRequest false [VSTR s; VOBJ kvs] in
  (~ In name (map fst (names env)) ->
   name_show env request w
   = (inl (JSONRPCError RPC_WALLET_ERROR
             ("name not found: " ^^ EncodeNameForMessage env name)), w1)) /\
  (In name (map fst (names env)) ->
   exists data,
     In (name, data) (names env)
     /\ name_show env request w
        = getNameInfo_wallet env (VOBJ kvs) name data (wallet env) w1).
Proof.
  intros HI Hdec request.
  assert (Hrun : name_show env request w
                 = match GetName env name with
                   | None => throw (name_not_found env name) w1
                   | Some data =>
                       getNameInfo_wallet env (VOBJ kvs) name data
                         (wallet env) w1
                   end).
  { unfold name_show, request, IBD_check, options_at, params_size, param.
    cbn [params nth List.length Nat.ltb Nat.leb]. rewrite HI.
    change (RPCHelpMan_Check "name_show" 1 2
              (mkRequest false [VSTR s; VOBJ kvs]))
      with (@inr Exception unit tt).
    change (RPCTypeCheck [VSTR s; VOBJ kvs] [TSTR; TOBJ] false)
      with (@inr Exception unit tt).
    rewrite !bind_lift. simpl when_. rewrite bind_ret.
    unfold get_obj. rewrite bind_lift.
    rewrite (bind_inr _ _ _ _ _ Hdec).
    now destruct (GetName env name). }
  split.
  - intros Hnot. apply GetName_None in Hnot. now rewrite Hrun, Hnot.
  - intros Hin. destruct (GetName env name) as [data|] eqn:E.
    + exists data. split; [now apply GetName_Some|exact Hrun].
    + apply GetName_None in E. contradiction.
Qed.

Lemma name_show_lookup_witness :
  name_show Demo.node (mkRequest false [VSTR "d/zz"; VOBJ []]) Demo.world0
  = (inl (JSONRPCError RPC_WALLET_ERROR "name not found: d/zz"), Demo.world0).
Proof.
  apply (proj1 (name_show_lookup Demo.node "d/zz" [] Demo.world0 Demo.world0
                  "d/zz" eq_refl eq_refl)).
  simpl. intros H. repeat (destruct H as [H|H]; [discriminate|]). exact H.
Defined.

Lemma pure_history_loop env options name pwallet history :
  forall res, pure_result (history_loop env options name pwallet history res).
Proof.
  induction history as [|entry rest IH]; intros res; simpl; auto with pure.
  apply pure_bind; [apply pure_getNameInfo_wallet|intros info; apply IH].
Qed.

Lemma history_loop_collect env options name history :
  forall res w,
    fst (history_loop env options name (wallet env) history (VARR res) w)
    = array_of (collect (map (fun entry => info env options (name, entry))
                           history) res).
Proof.
  induction history as [|entry rest IH]; intros res w; simpl; trivial.
  rewrite fst_bind by (intros a; apply pure_history_loop).
  unfold info at 1. simpl fst. simpl snd.
  rewrite (pure_getNameInfo_wallet env options name entry (wallet env) w
             initial_world).
  destruct (fst (getNameInfo_wallet env options name entry (wallet env)
                   initial_world)) as [e|o]; [reflexivity|].
  simpl push_back. apply IH.
Qed.

Lemma map_inr_Forall2 {A} (g : A -> Result UniValue) l vals :
  map g l = map inr vals -> Forall2 (fun a v => g a = inr v) l vals.
Proof.
  revert vals. induction l as [|a l IH]; intros [|v vals] H;
    try discriminate; constructor.
  - simpl in H. now injection H.
  - apply IH. simpl in H. now injection H.
Qed.

(** X4: with -namehistory, the answer of [name_history] for a name of the
    database is an array with one record for each entry of the name's
    history, in the order of the history, followed by the record of the
    current data: it has one element more than the history and is never
    empty. *)
Theorem name_history_lists_history (env : Env) (s : string)
  (kvs : list (string * UniValue)) (w w1 w' : World) (name : valtype)
  (data : CNameData) (res : UniValue) :
  IsInitialBlockDownload env = false ->
  fNameHistory env = true ->
  DecodeNameFromRPCOrThrow env (VSTR s) (VOBJ kvs) w = (inr name, w1) ->
  GetName env name = Some data ->
  name_history env (mkRequest false [VSTR s; VOBJ kvs]) w = (inr res, w') ->
  exists vals current,
    res = VARR (vals ++ [current])
    /\ Forall2 (fun entry val => info env (VOBJ kvs) (name, entry) = inr val)
         (history_of env name) vals
    /\ info env (VOBJ kvs) (name, data) = inr current
    /\ List.length (vals ++ [current])
       = S (List.length (history_of env name)).
Proof.
  intros HI HH Hdec Hget Hrun.
  unfold name_history, IBD_check, options_at, params_size, param in Hrun.
  cbn [params nth List.length Nat.ltb Nat.leb] in Hrun.
  rewrite HI, HH in Hrun.
  change (RPCHelpMan_Check "name_history" 1 2
            (mkRequest false [VSTR s; VOBJ kvs]))
    with (@inr Exception unit tt) in Hrun.
  change (RPCTypeCheck [VSTR s; VOBJ kvs] [TSTR; TOBJ] false)
    with (@inr Exception unit tt) in Hrun.
  rewrite !bind_lift in Hrun. simpl when_ in Hrun.
  rewrite !bind_ret in Hrun. unfold get_obj in Hrun.
  rewrite bind_lift, (bind_inr _ _ _ _ _ Hdec), Hget in Hrun.
  apply bind_inv in Hrun as (hist & w2 & Hloop & Hrun).
  apply bind_inv in Hrun as (current & w3 & Hcur & Hrun).
  injection Hrun as <- _.
  pose proof (history_loop_collect env (VOBJ kvs) name (history_of env name)
                [] w1) as Hcollect.
  rewrite Hloop in Hcollect. simpl fst in Hcollect.
  destruct (collect _ _) as [e|vals] eqn:Evals; [discriminate|].
  injection Hcollect as ->.
  apply collect_inv in Evals as (vals' & Hmap & ->). simpl.
  exists vals', current.
  assert (Hinfo : info env (VOBJ kvs) (name, data) = inr current).
  { unfold info. simpl fst. simpl snd.
    rewrite (pure_getNameInfo_wallet env (VOBJ kvs) name data (wallet env)
               initial_world w2), Hcur. reflexivity. }
  repeat split; trivial.
  - now apply map_inr_Forall2.
  - rewrite length_app. simpl.
    rewrite (map_inr_length _ _ _ Hmap). lia.
Qed.

Lemma name_history_lists_history_witness :
  exists vals current,
    fst (name_history archive_node (mkRequest false [VSTR "d/a"; VOBJ []])
           Demo.world0)
    = inr (VARR (vals ++ [current]))
    /\ List.length (vals ++ [current]) = 3%nat.
Proof.
  destruct (name_history_lists_history archive_node "d/a" [] Demo.world0
              Demo.world0 _ "d/a" (Demo.rec 100) _
              eq_refl eq_refl eq_refl eq_refl eq_refl)
    as (vals & current & Hres & _ & _ & Hlen).
  exists vals, current. split; [|exact Hlen].
  rewrite <- Hres. reflexivity.
Defined.

(** ** name_scan: the count *)

Lemma lists_nothing_bind {A} (m : M A) (k : A -> M UniValue) :
  only_logs m ->
  (forall a, (exists w w1, m w = (inr a, w1)) -> lists_nothing (k a)) ->
  lists_nothing (bind m k).
Proof.
  intros Hm Hk w. unfold bind. destruct (Hm w) as [Hreads _].
  destruct (m w) as [[e|a] w1] eqn:E; simpl in *.
  - split; [exact Hreads|]. intros r H. discriminate H.
  - destruct (Hk a (ex_intro _ w (ex_intro _ w1 E)) w1) as [Hr Hres].
    split; [congruence|exact Hres].
Qed.

(** X5: a scan request whose count is zero or negative never calls [next]
    on the name iterator, and when it passes the argument checks its answer
    is the empty array. *)
Theorem name_scan_without_budget (env : Env) (request : JSONRPCRequest)
  (count : Z) (w : World) :
  param request 1 = VNUM count ->
  count <= 0 ->
  w_reads (snd (name_scan env request w)) = w_reads w
  /\ forall r, fst (name_scan env request w) = inr r -> r = VARR [].
Proof.
  intros Hparam Hcount. revert w.
  change (lists_nothing (name_scan env request)). unfold name_scan.
  apply lists_nothing_bind; [auto with logs|intros _ _].
  apply lists_nothing_bind; [auto with logs|intros _ _].
  apply lists_nothing_bind; [unfold IBD_check; only_logs_step|intros _ _].
  apply lists_nothing_bind; [unfold options_at; only_logs_step|].
  intros options _.
  apply lists_nothing_bind; [only_logs_step|intros start _].
  apply lists_nothing_bind; [only_logs_step|].
  intros c (w0 & w1 & Hc).
  assert (c = count) as ->.
  { destruct (2 <=? params_size request)%nat eqn:E.
    - rewrite Hparam in Hc. apply lift_inv in Hc as [Hc _].
      apply get_int_inv in Hc. now injection Hc.
    - assert (Hnull : param request 1 = VNULL).
      { apply param_beyond. apply Nat.leb_gt in E. apply Nat.ltb_ge. lia. }
      rewrite Hparam in Hnull. discriminate. }
  apply lists_nothing_bind;
    [apply only_logs_scan_parse_options|intros f _].
  unfold scan_names. destruct (Z.leb_spec count 0); [|lia].
  intros w. split; [reflexivity|]. intros r Hr. now injection Hr.
Qed.

Lemma name_scan_without_budget_witness :
  let run :=
    name_scan Demo.node (mkRequest false [VSTR "d/a"; VNUM 0]) Demo.world0 in
  w_reads (snd run) = 0%nat /\ forall r, fst run = inr r -> r = VARR [].
Proof.
  apply (name_scan_without_budget Demo.node
           (mkRequest false [VSTR "d/a"; VNUM 0]) 0 Demo.world0
           eq_refl ltac:(lia)).
Defined.

(** ** name_scan: what is listed *)

(** X6: a scan that returns lists the records of the first [count] entries
    of the database, walked in its order from the first name not below
    [start], that pass the filters: an entry that fails a filter uses none
    of the count. *)
Theorem scan_lists_first_passing (env : Env) (options : UniValue)
  (start : valtype) (count : Z) (f : ScanFilter) (w w' : World)
  (res : UniValue) :
  count <= INT_MAX ->
  scan_names env options start count f w = (inr res, w') ->
  exists vals,
    res = VARR vals
    /\ Forall2 (fun e v => info env options e = inr v)
         (firstn (Z.to_nat count)
            (filter (passes env f) (seek env start (names env))))
         vals.
Proof.
  intros Hc Hrun.
  pose proof (scan_names_collect env options start count f w Hc) as H.
  rewrite Hrun in H. simpl fst in H. unfold selected in H.
  destruct (collect _ _) as [e|vals] eqn:E; [discriminate|].
  injection H as ->. exists vals. split; trivial.
  apply collect_inv in E as (vals' & Hmap & ->).
  now apply map_inr_Forall2.
Qed.

Lemma scan_lists_first_passing_witness :
  exists vals,
    fst (scan_names Demo.node (VOBJ []) "d/b" 2
           (mkFilter 1 (-1) EmptyString false sregex_default) Demo.world0)
    = inr (VARR vals)
    /\ Forall2 (fun e v => info Demo.node (VOBJ []) e = inr v)
         [("d/b", Demo.rec 101); ("x/c", Demo.rec 102)] vals.
Proof.
  destruct (scan_lists_first_passing Demo.node (VOBJ []) "d/b" 2
              (mkFilter 1 (-1) EmptyString false sregex_default)
              Demo.world0 _ _ ltac:(unfold INT_MAX; lia) eq_refl)
    as (vals & Hres & Hall).
  exists vals. split; [now rewrite <- Hres|exact Hall].
Defined.

Lemma prefix_append (p s : string) :
  String.prefix p s = true -> exists rest, s = p ^^ rest.
Proof.
  revert s. induction p as [|a p IH]; intros s H.
  - now exists s.
  - destruct s as [|b s]; [discriminate|]. simpl in H.
    destruct (ascii_dec a b) as [->|]; [|discriminate].
    destruct (IH s H) as [rest ->]. now exists rest.
Qed.

(** X7: every record a scan lists is the record of an entry of the database
    whose name begins with the bytes of the prefix option and, when a regexp
    is given, whose name has a UTF-8 rendering in which the regexp is found;
    a name without UTF-8 rendering is then not listed. *)
Theorem scan_lists_prefix_and_regexp (env : Env) (options : UniValue)
  (start : valtype) (count : Z) (f : ScanFilter) (w w' : World)
  (res : list UniValue) :
  scan_names env options start count f w = (inr (VARR res), w') ->
  Forall (fun info =>
            exists name data wa wb,
              In (name, data) (names env)
              /\ getNameInfo_wallet env options name data (wallet env) wa
                 = (inr info, wb)
              /\ (exists rest, name = prefix f ^^ rest)
              /\ (haveRegexp f = true ->
                  exists nameStr,
                    EncodeName env name UTF8 = Some nameStr
                    /\ regex_search env nameStr (regexp f) = true)) res.
Proof.
  intros Hscan. unfold scan_names in Hscan.
  destruct (count <=? 0).
  { injection Hscan as <- _. constructor. }
  apply scan_loop_added in Hscan as (added & Hres & Hall).
  injection Hres as ->. simpl.
  eapply Forall_impl; [|exact Hall].
  intros info (name & data & wa & wb & Hin & Hinfo & _ & _ & Hpre & Hre).
  exists name, data, wa, wb.
  split; [now apply seek_incl in Hin|split; [exact Hinfo|split]].
  - unfold has_prefix in Hpre.
    destruct (String.length name <? String.length (prefix f))%nat;
      [discriminate|].
    now apply prefix_append.
  - intros Hhave. specialize (Hre Hhave). unfold regexp_matches in Hre.
    destruct (EncodeName env name UTF8) as [nameStr|]; [|discriminate].
    now exists nameStr.
Qed.

Lemma scan_lists_prefix_and_regexp_witness :
  exists res,
    fst (scan_names Demo.node (VOBJ []) EmptyString 9
           (mkFilter 1 (-1) "x/" true (sregex_of "x")) Demo.world0)
    = inr (VARR res)
    /\ List.length res = 1%nat
    /\ Forall (fun info =>
                 exists name data wa wb,
                   In (name, data) Demo.db
                   /\ getNameInfo_wallet Demo.node (VOBJ []) name data None wa
                      = (inr info, wb)
                   /\ (exists rest, name = "x/" ^^ rest)
                   /\ (true = true ->
                       exists nameStr,
                         Demo.encode name UTF8 = Some nameStr
                         /\ Demo.search nameStr (sregex_of "x") = true)) res.
Proof.
  eexists. split; [vm_compute; reflexivity|split; [reflexivity|]].
  eapply (scan_lists_prefix_and_regexp Demo.node (VOBJ []) EmptyString 9
            (mkFilter 1 (-1) "x/" true (sregex_of "x")) Demo.world0).
  vm_compute. reflexivity.
Defined.

Lemma exists_false_null o key :
  exists_ o key = false -> find_value o key = VNULL.
Proof.
  destruct o; simpl; trivial. destruct (findKey kvs key); congruence.
Qed.

Lemma prefix_empty (s : string) : String.prefix EmptyString s = true.
Proof. now destruct s. Qed.

Lemma scan_parse_options_plain env options w :
  -1 <= Height env < INT_MAX ->
  (forall key, In key ["minConf"; "maxConf"; "prefix"; "regexp"] ->
               exists_ options key = false) ->
  scan_parse_options env options w = (inr no_filter, w).
Proof.
  intros HH Habsent.
  assert (Hmin := Habsent "minConf" ltac:(simpl; tauto)).
  assert (Hmax := Habsent "maxConf" ltac:(simpl; tauto)).
  assert (Hpre := Habsent "prefix" ltac:(simpl; tauto)).
  assert (Hre := Habsent "regexp" ltac:(simpl; tauto)).
  unfold scan_parse_options, RPCTypeCheckObj.
  rewrite check_expected_ok.
  - rewrite bind_lift, Hmin, Hmax, Hpre, Hre. reflexivity.
  - intros k t Hin. simpl in Hin.
    repeat (destruct Hin as [Hin|Hin];
            [injection Hin as <- <-;
             rewrite exists_false_null by assumption; reflexivity|]).
    contradiction.
Qed.

Lemma passes_no_filter env e :
  -1 <= Height env < INT_MAX ->
  passes env no_filter e = (getHeight (snd e) <=? Height env).
Proof.
  intros HH. unfold passes.
  rewrite maxHeight_of_exact by (simpl; unfold INT_MAX in *; lia).
  unfold minHeight_of, has_prefix. simpl.
  rewrite prefix_empty, !andb_true_r.
  destruct (Z.gtb_spec (getHeight (snd e)) (Height env - 1 + 1)),
    (Z.leb_spec (getHeight (snd e)) (Height env)); simpl; trivial;
    exfalso; lia.
Qed.

(** X8: options that hold none of minConf, maxConf, prefix and regexp are
    accepted and filter nothing but the names confirmed above the chain
    height: the scan then lists an entry exactly when its height is at most
    the height of the chain. *)
Theorem scan_without_filter_options (env : Env) (options : UniValue)
  (w : World) :
  -1 <= Height env < INT_MAX ->
  (forall key, In key ["minConf"; "maxConf"; "prefix"; "regexp"] ->
               exists_ options key = false) ->
  scan_parse_options env options w = (inr no_filter, w)
  /\ forall e,
       passes env no_filter e = (getHeight (snd e) <=? Height env).
Proof.
  intros HH Habsent. split.
  - now apply scan_parse_options_plain.
  - intros e. now apply passes_no_filter.
Qed.

Lemma scan_without_filter_options_witness :
  scan_parse_options Demo.node (VOBJ [("nameEncoding", VSTR "hex")])
    Demo.world0 = (inr no_filter, Demo.world0)
  /\ forall e,
       passes Demo.node no_filter e = (getHeight (snd e) <=? 105).
Proof.
  apply (scan_without_filter_options Demo.node
           (VOBJ [("nameEncoding", VSTR "hex")]) Demo.world0).
  - unfold INT_MAX. simpl. lia.
  - intros key Hin. simpl in Hin.
    repeat (destruct Hin as [<-|Hin]; [reflexivity|]). contradiction.
Defined.

(** ** The record of a name *)

(** X9: a record built by [getNameInfo] for name data always tells the
    transaction and output of the last update, the address (the marker
    "<nonstandard>" when the script has no destination) and the height; the
    fields added later do not overwrite them.  It tells "ismine" exactly
    when the request has a wallet, and then whether the wallet can spend
    the script. *)
Theorem name_record_fields (env : Env) (options : UniValue) (name : valtype)
  (data : CNameData) (pwallet : option (CScript -> Z)) (w w' : World)
  (r : UniValue) :
  getNameInfo_wallet env options name data pwallet w = (inr r, w') ->
  find_value r "txid" = VSTR (GetHex env (hash (getUpdateOutpoint data)))
  /\ find_value r "vout" = VNUM (wrap_int (n (getUpdateOutpoint data)))
  /\ find_value r "address"
     = VSTR (match ExtractDestination env (getAddress data) with
             | Some dest => dest
             | None => "<nonstandard>"
             end)
  /\ find_value r "height" = VNUM (getHeight data)
  /\ find_value r "ismine"
     = match pwallet with
       | None => VNULL
       | Some IsMine =>
           VBOOL (negb (Z.land (IsMine (getAddress data)) ISMINE_SPENDABLE
                        =? 0))
       end
  /\ exists_ r "ismine" = match pwallet with Some _ => true | None => false end.
Proof.
  unfold getNameInfo_wallet, getNameInfo_data, getNameInfo. intros H.
  apply bind_inv in H as (r1 & w1 & H & Hown).
  apply bind_inv in H as (r0 & w0 & H & Hexp).
  apply bind_inv in H as (nameEnc & wn & _ & H).
  apply bind_inv in H as (valueEnc & wv & _ & H).
  injection H as <- _. injection Hexp as <- _. injection Hown as <- _.
  unfold AddEncodedNameToUniv, addExpirationInfo, addOwnershipInfo.
  destruct (EncodeName env name nameEnc),
    (EncodeName env (getValue data) valueEnc), pwallet;
    cbn; repeat split; reflexivity.
Qed.

Lemma name_record_fields_witness :
  exists r w',
    getNameInfo_wallet Demo.node (VOBJ []) "d/a" (Demo.rec 100)
      (Some (fun _ => 3)) Demo.world0 = (inr r, w')
    /\ find_value r "address" = VSTR "<nonstandard>"
    /\ find_value r "ismine" = VBOOL true.
Proof.
  eexists. eexists. split; [reflexivity|].
  destruct (name_record_fields Demo.node (VOBJ []) "d/a" (Demo.rec 100)
              (Some (fun _ => 3)) Demo.world0 _ _ eq_refl)
    as (_ & _ & Haddr & _ & Hmine & _).
  split; [exact Haddr|exact Hmine].
Defined.

Lemma EncodingFromOptionsJson_accepts options field defaultValue w :
  encoding_option_ok options field ->
  exists enc w',
    EncodingFromOptionsJson options field defaultValue w = (inr enc, w').
Proof.
  intros [Habs|[str Hstr]].
  - rewrite EncodingFromOptionsJson_absent by assumption.
    do 2 eexists; reflexivity.
  - unfold EncodingFromOptionsJson.
    rewrite bind_lift. unfold RPCTypeCheckObj. rewrite map_of_single.
    simpl. rewrite Hstr. simpl.
    rewrite find_value_exists by (rewrite Hstr; discriminate).
    rewrite bind_lift. simpl.
    destruct (EncodingFromString str); [do 2 eexists; reflexivity|].
    unfold bind, LogPrintf, ret. do 2 eexists; reflexivity.
Qed.

Lemma EncodingFromOptionsJson_refuses options field defaultValue w :
  ~ encoding_option_ok options field ->
  exists e, EncodingFromOptionsJson options field defaultValue w = (inl e, w).
Proof.
  intros Hbad. unfold encoding_option_ok in Hbad.
  destruct (exists_ options field) eqn:Hex; [|tauto].
  destruct (isNull (find_value options field)) eqn:Hnull.
  - unfold EncodingFromOptionsJson.
    rewrite bind_lift. unfold RPCTypeCheckObj. rewrite map_of_single.
    simpl. rewrite Hnull. simpl. rewrite Hex, bind_lift.
    destruct (find_value options field); try discriminate.
    simpl. eexists; reflexivity.
  - destruct (EncodingFromOptionsJson_type_error options field defaultValue w)
      as [msg Hmsg]; trivial; [|eexists; exact Hmsg].
    intros Hty. apply Hbad. right.
    destruct (find_value options field); try discriminate. now eexists.
Qed.

Lemma encoding_option_ok_dec options field :
  encoding_option_ok options field \/ ~ encoding_option_ok options field.
Proof.
  unfold encoding_option_ok.
  destruct (exists_ options field); [|now left; left].
  destruct (find_value options field) eqn:Hv;
    try (right; intros [H|[str H]]; discriminate H).
  left. right. now eexists.
Qed.

(** X10: [getNameInfo] builds a record exactly when each of the options
    nameEncoding and valueEncoding is absent or a string; otherwise it
    throws.  An unknown encoding name is no reason to fail. *)
Theorem name_record_built (env : Env) (options : UniValue) (name : valtype)
  (data : CNameData) (pwallet : option (CScript -> Z)) (w : World) :
  (encoding_option_ok options "nameEncoding"
   /\ encoding_option_ok options "valueEncoding")
  <-> exists r w',
        getNameInfo_wallet env options name data pwallet w = (inr r, w').
Proof.
  unfold getNameInfo_wallet, getNameInfo_data, getNameInfo. split.
  - intros [Hn Hv].
    destruct (EncodingFromOptionsJson_accepts options "nameEncoding"
                (ConfiguredNameEncoding env) w Hn) as (ne & wn & Hne).
    destruct (EncodingFromOptionsJson_accepts options "valueEncoding"
                (ConfiguredValueEncoding env) wn Hv) as (ve & wv & Hve).
    do 2 eexists.
    erewrite bind_inr; [reflexivity|].
    erewrite bind_inr; [reflexivity|].
    erewrite bind_inr by exact Hne.
    erewrite bind_inr by exact Hve.
    reflexivity.
  - intros (r & w' & H).
    apply bind_inv in H as (r1 & w1 & H & _).
    apply bind_inv in H as (r0 & w0 & H & _).
    apply bind_inv in H as (ne & wn & Hne & H).
    apply bind_inv in H as (ve & wv & Hve & _).
    split.
    + destruct (encoding_option_ok_dec options "nameEncoding") as [|Hbad];
        trivial.
      destruct (EncodingFromOptionsJson_refuses options "nameEncoding"
                  (ConfiguredNameEncoding env) w Hbad) as [e He].
      congruence.
    + destruct (encoding_option_ok_dec options "valueEncoding") as [|Hbad];
        trivial.
      destruct (EncodingFromOptionsJson_refuses options "valueEncoding"
                  (ConfiguredValueEncoding env) wn Hbad) as [e He].
      congruence.
Qed.

Lemma name_record_built_witness :
  exists r w',
    getNameInfo_wallet Demo.node
      (VOBJ [("nameEncoding", VSTR "latin1"); ("valueEncoding", VSTR "hex")])
      "d/a" (Demo.rec 100) None Demo.world0 = (inr r, w').
Proof.
  apply (proj1 (name_record_built Demo.node _ "d/a" (Demo.rec 100) None
                  Demo.world0)).
  split; right; eexists; reflexivity.
Defined.

(** ** Timestamps of updates *)

Lemma type_pushKV o key val : type (pushKV o key val) = type o.
Proof. now destruct o. Qed.

Lemma find_value_pushKV_object o key val :
  type o = TOBJ -> find_value (pushKV o key val) key = val.
Proof.
  destruct o; try discriminate. intros _. apply find_value_pushKV_same.
Qed.

(** X11: when the transaction of an update is found in a block of the active
    chain, [pushTimestampOfDataTx] stores the time of that block under the
    given key, whatever the state of the transaction index; a block time
    that does not fit an int is an error. *)
Theorem timestamp_of_confirmed_update (env : Env) (entry : CNameData)
  (f_txindex_ready : bool) (resRecord : UniValue) (keyName : string)
  (tx : CTransaction) (hash_block : uint256) (pindex : CBlockIndex) :
  GetTransaction env (hash (getUpdateOutpoint entry)) = Some (tx, hash_block) ->
  IsNull hash_block = false ->
  LookupBlockIndex env hash_block = Some pindex ->
  in_active_chain pindex = true ->
  type (TxToUniv env tx (VOBJ [])) = TOBJ ->
  pushTimestampOfDataTx env entry f_txindex_ready resRecord keyName
  = if in_int (GetBlockTime pindex)
    then inr (pushKV resRecord keyName (VNUM (GetBlockTime pindex)))
    else inl (runtime_error "JSON integer out of range").
Proof.
  intros Htx Hnull Hblock Hactive Hobj.
  unfold pushTimestampOfDataTx, TxToJSON.
  rewrite Htx, Hnull. cbn [negb]. rewrite Hblock, Hactive.
  rewrite find_value_pushKV_other by discriminate.
  rewrite find_value_pushKV_object by now rewrite !type_pushKV.
  unfold get_int. now destruct (in_int (GetBlockTime pindex)).
Qed.

Lemma timestamp_of_confirmed_update_witness :
  pushTimestampOfDataTx chain_node (Demo.rec 100) false (VOBJ []) "time"
  = inr (VOBJ [("time", VNUM 1600000000)]).
Proof.
  exact (timestamp_of_confirmed_update chain_node (Demo.rec 100) false
           (VOBJ []) "time" (mkTx 7%N) 9%N (mkBlockIndex 100 1600000000 true)
           eq_refl eq_refl eq_refl eq_refl eq_refl).
Defined.

(** X12: when the transaction of an update is found outside the active
    chain (in the mempool, or in a block that is unknown or abandoned), the
    only time at hand is the one [TxToUniv] may have written; when it wrote
    none, [pushTimestampOfDataTx] throws the error of reading a missing
    integer. *)
Theorem timestamp_of_unconfirmed_update (env : Env) (entry : CNameData)
  (f_txindex_ready : bool) (resRecord : UniValue) (keyName : string)
  (tx : CTransaction) (hash_block : uint256) :
  GetTransaction env (hash (getUpdateOutpoint entry)) = Some (tx, hash_block) ->
  outside_chain env hash_block ->
  find_value (TxToUniv env tx (VOBJ [])) "time" = VNULL ->
  pushTimestampOfDataTx env entry f_txindex_ready resRecord keyName
  = inl (runtime_error "JSON value is not an integer as expected").
Proof.
  intros Htx Hout Htime.
  unfold pushTimestampOfDataTx, TxToJSON. rewrite Htx.
  destruct (IsNull hash_block) eqn:Hnull; cbn [negb].
  - now rewrite Htime.
  - destruct Hout as [Hout|[Hout|(pindex & Hblock & Hstale)]];
      [congruence| |].
    + rewrite Hout, find_value_pushKV_other by discriminate.
      now rewrite Htime.
    + rewrite Hblock, Hstale.
      rewrite !find_value_pushKV_other by discriminate.
      now rewrite Htime.
Qed.

Lemma timestamp_of_unconfirmed_update_witness :
  pushTimestampOfDataTx chain_node
    (mkNameData "v" 105 (mkOutPoint 8%N 0) "script") true (VOBJ []) "time"
  = inl (runtime_error "JSON value is not an integer as expected").
Proof.
  apply (timestamp_of_unconfirmed_update chain_node
           (mkNameData "v" 105 (mkOutPoint 8%N 0) "script") true (VOBJ [])
           "time" (mkTx 8%N) 0%N eq_refl).
  - left. reflexivity.
  - reflexivity.
Defined.

(** ** Exports *)

Lemma emit_firstn env maxCount ms :
  forall count,
    0 <= count -> count + Z.of_nat (List.length ms) <= INT_MAX ->
    let written :=
      if maxCount =? -1 then ms
      else firstn (Z.to_nat (Z.max 1 (maxCount - count))) ms in
    emit env maxCount ms count
    = (pieces ("," ^^ endl) count (map (fun s => write env (VSTR s)) written),
       count + Z.of_nat (List.length written)).
Proof.
  induction ms as [|nameStr ms IH]; intros count H0 Hlen; cbn zeta.
  - assert (Hw : (if maxCount =? -1 then @nil string
                  else firstn (Z.to_nat (Z.max 1 (maxCount - count))) [])
                 = []).
    { destruct (maxCount =? -1); trivial. apply firstn_nil. }
    rewrite Hw. unfold pieces. simpl.
    destruct (count =? 0); f_equal; lia.
  - simpl List.length in Hlen. cbn [emit].
    rewrite int_add_1 by lia.
    assert (Hnext : (count + 1 =? 0) = false) by (apply Z.eqb_neq; lia).
    destruct (Z.eqb_spec maxCount (-1)) as [Hall|Hcap]; cbn [negb andb].
    + specialize (IH (count + 1) ltac:(lia) ltac:(lia)). cbn zeta in IH.
      rewrite IH. cbn [fst snd map List.length]. unfold pieces.
      rewrite Hnext. f_equal; try lia.
      destruct (count =? 0); cbn [join tail_pieces];
        now rewrite ?append_assoc.
    + destruct (Z.geb_spec (count + 1) maxCount) as [Hstop|Hgo].
      * replace (Z.to_nat (Z.max 1 (maxCount - count))) with 1%nat by lia.
        cbn [firstn map List.length]. unfold pieces. f_equal; try lia.
        destruct (count =? 0); cbn [join tail_pieces];
          now rewrite ?append_assoc, ?append_empty_r.
      * specialize (IH (count + 1) ltac:(lia) ltac:(lia)). cbn zeta in IH.
        replace (Z.to_nat (Z.max 1 (maxCount - count)))
          with (S (Z.to_nat (Z.max 1 (maxCount - (count + 1))))) by lia.
        rewrite IH. cbn [fst snd firstn map List.length]. unfold pieces.
        rewrite Hnext. f_equal; try lia.
        destruct (count =? 0); cbn [join tail_pieces];
          now rewrite ?append_assoc.
Qed.

(** X13: an export without history, into a destination that can be opened
    and whose device takes every write, writes the matching names in the
    order of the database as a JSON array of strings, one name a line: all
    of them when the count is -1, else the first [count] of them (one when
    the count is below one), and it reports how many it wrote. *)
Theorem name_export_lists_names (env : Env) (request : JSONRPCRequest)
  (w w1 : World) (a : ExportArgs) :
  RPCHelpMan_Check "name_export" 2 3 request = inr tt ->
  RPCTypeCheck (params request) [TSTR; TSTR; TOBJ] false = inr tt ->
  IsInitialBlockDownload env = false ->
  export_arguments env request w = (inr a, w1) ->
  withHistory a = false ->
  can_open env (path a) = true ->
  takes_all env (path a) ->
  Z.of_nat (List.length (matching env (ex_regexp a) (names env))) <= INT_MAX ->
  exists w',
    name_export env request w
    = (inr (VSTR (found_message (Z.of_nat (List.length (exported env a)))
                    (regexpStr a))), w')
    /\ file_get (w_files w') (path a)
       = Some ("[" ^^ endl
               ^^ join ("," ^^ endl)
                    (map (fun s => write env (VSTR s)) (exported env a))
               ^^ endl ^^ "]").
Proof.
  intros HC HT HI Ha Hh Hopen Htake Hlen.
  rewrite (name_export_accepted env request w a w1 HC HT HI Ha).
  destruct (export_names_plain env a w1 Hh Hopen Htake)
    as (w' & Hrun & Hfile).
  exists w'.
  rewrite (emit_firstn env (maxCount a)
             (matching env (ex_regexp a) (names env)) 0 (Z.le_refl 0) Hlen)
    in Hrun, Hfile.
  rewrite Z.sub_0_r in Hrun, Hfile. cbn [fst snd] in Hrun, Hfile.
  unfold exported. now split.
Qed.

Lemma name_export_lists_names_witness :
  exists w',
    name_export Demo.node two_request Demo.world0
    = (inr (VSTR (found_message 2 "d/")), w')
    /\ file_get (w_files w') "/tmp/names.json"
       = Some ("[" ^^ endl
               ^^ write Demo.node (VSTR "d/a") ^^ "," ^^ endl
               ^^ write Demo.node (VSTR "d/b") ^^ endl ^^ "]").
Proof.
  apply (name_export_lists_names Demo.node two_request Demo.world0
           Demo.world0 two_args eq_refl eq_refl eq_refl eq_refl eq_refl
           eq_refl (fun _ _ => eq_refl)).
  vm_compute. discriminate.
Defined.

(** X15: on a node without -namehistory an export that asks for the history
    ends with the error "-namehistory is not enabled" before the destination
    is opened: no file is created or emptied and no name is read. *)
Theorem name_export_history_disabled (env : Env) (regexpStr path : string)
  (options : list (string * UniValue)) (w : World) :
  IsInitialBlockDownload env = false ->
  fNameHistory env = false ->
  regex_valid env regexpStr = true ->
  findKey options "withHistory" = Some (VBOOL true) ->
  name_export env (export_request regexpStr path options) w
  = (inl history_disabled, w).
Proof.
  intros HI HH Hre Hkey.
  unfold name_export, export_request, IBD_check, export_arguments, options_at.
  rewrite HI. unfold bind, lift, when_, ret, throw.
  cbn -[String.append]. rewrite Hre. cbn -[String.append].
  rewrite Hkey, HH. reflexivity.
Qed.

Lemma name_export_history_disabled_witness :
  name_export Demo.node
    (export_request "d/" "/tmp/names.json" [("withHistory", VBOOL true)])
    Demo.world0
  = (inl history_disabled, Demo.world0).
Proof.
  apply (name_export_history_disabled Demo.node "d/" "/tmp/names.json"
           [("withHistory", VBOOL true)] Demo.world0
           eq_refl eq_refl eq_refl eq_refl).
Defined.

(** X16: the options of an export are read without a type check.  A
    withHistory that is no boolean, and a count that is no number, end the
    request with the error of the JSON reader, not with a type error of the
    RPC layer; the destination is not opened. *)
Theorem name_export_option_types (env : Env) (regexpStr path : string)
  (options : list (string * UniValue)) (w : World) (v : UniValue) :
  IsInitialBlockDownload env = false ->
  regex_valid env regexpStr = true ->
  (findKey options "withHistory" = Some v -> type v <> TBOOL ->
   name_export env (export_request regexpStr path options) w
   = (inl (runtime_error "JSON value is not a boolean as expected"), w))
  /\ (findKey options "withHistory" = None ->
      findKey options "count" = Some v -> type v <> TNUM ->
      name_export env (export_request regexpStr path options) w
      = (inl (runtime_error "JSON value is not an integer as expected"), w)).
Proof.
  intros HI Hre.
  unfold name_export, export_request, IBD_check, export_arguments, options_at.
  rewrite HI. unfold bind, lift, when_, ret, throw.
  cbn -[String.append]. rewrite Hre. cbn -[String.append]. split.
  - intros Hkey Hty. rewrite Hkey. now destruct v.
  - intros Hnone Hkey Hty. rewrite Hnone, Hkey. now destruct v.
Qed.

Lemma name_export_option_types_witness :
  name_export Demo.node
    (export_request "d/" "/tmp/names.json" [("count", VSTR "2")]) Demo.world0
  = (inl (runtime_error "JSON value is not an integer as expected"),
     Demo.world0).
Proof.
  apply (proj2 (name_export_option_types Demo.node "d/" "/tmp/names.json"
                  [("count", VSTR "2")] Demo.world0 (VSTR "2")
                  eq_refl eq_refl)); [reflexivity|reflexivity|discriminate].
Defined.

(** ** Export: records with history *)

Lemma getNameInfo_wallet_height env options name data pwallet w r w' :
  getNameInfo_wallet env options name data pwallet w = (inr r, w') ->
  type r = TOBJ /\ find_value r "height" = VNUM (getHeight data).
Proof.
  unfold getNameInfo_wallet, getNameInfo_data, getNameInfo. intros H.
  apply bind_inv in H as (r1 & w1 & H & Hown).
  apply bind_inv in H as (r0 & w0 & H & Hexp).
  apply bind_inv in H as (nameEnc & wn & _ & H).
  apply bind_inv in H as (valueEnc & wv & _ & H).
  injection H as <- _. injection Hexp as <- _. injection Hown as <- _.
  unfold AddEncodedNameToUniv, addExpirationInfo, addOwnershipInfo.
  destruct (EncodeName env name nameEnc),
    (EncodeName env (getValue data) valueEnc), pwallet;
    cbn; split; reflexivity.
Qed.

Lemma pushTimestampOfDataTx_inv env entry ready resRecord keyName r :
  pushTimestampOfDataTx env entry ready resRecord keyName = inr r ->
  exists time, r = pushKV resRecord keyName (VNUM time).
Proof.
  unfold pushTimestampOfDataTx.
  destruct (GetTransaction env (hash (getUpdateOutpoint entry)))
    as [[tx hash_block]|]; [|discriminate].
  destruct (get_int _) as [e|time]; [discriminate|].
  intros H. injection H as <-. now exists time.
Qed.

(** The record of one earlier update, as an export stores it. *)
Lemma export_history_loop_fields env options name pwallet ready history :
  forall acc w res w',
    export_history_loop env options name pwallet ready history (VARR acc) w
    = (inr res, w') ->
    exists hs,
      res = VARR (acc ++ hs)
      /\ Forall2 (fun entry h =>
                    (exists time, find_value h "time" = VNUM time)
                    /\ find_value h "height" = VNUM (getHeight entry))
           history hs.
Proof.
  induction history as [|entry rest IH]; intros acc w res w' H;
    cbn [export_history_loop] in H.
  - injection H as <- _. exists []. now rewrite app_nil_r.
  - apply bind_inv in H as (rec & w1 & Hrec & H).
    apply bind_inv in H as (rec' & w2 & Htime & H).
    apply lift_inv in Htime as [Htime _].
    apply pushTimestampOfDataTx_inv in Htime as [time ->].
    apply getNameInfo_wallet_height in Hrec as [Hobj Hheight].
    cbn [push_back] in H. apply IH in H as (hs & -> & Hall).
    exists (pushKV rec "time" (VNUM time) :: hs). split.
    + now rewrite <- app_assoc.
    + constructor; [|exact Hall]. split.
      * exists time. now apply find_value_pushKV_object.
      * now rewrite find_value_pushKV_other by discriminate.
Qed.

(** X17: the record an export with history writes for a name carries, beside
    the fields of the name's record, the time of the last update under
    last_updated and an array under history with one record for each earlier
    update of the name, in the order of the history, each with its own time
    and height. *)
Theorem export_record_fields (env : Env) (options : UniValue)
  (pwallet : option (CScript -> Z)) (name : valtype) (data : CNameData)
  (w w' : World) (r : UniValue) :
  export_record env options pwallet name data w = (inr r, w') ->
  exists time hs,
    find_value r "last_updated" = VNUM time
    /\ find_value r "height" = VNUM (getHeight data)
    /\ find_value r "history" = VARR hs
    /\ Forall2 (fun entry h =>
                  (exists time, find_value h "time" = VNUM time)
                  /\ find_value h "height" = VNUM (getHeight entry))
         (history_of env name) hs.
Proof.
  unfold export_record. intros H.
  apply bind_inv in H as (resObj & w1 & Hrec & H).
  apply bind_inv in H as (resObj' & w2 & Htime & H).
  apply bind_inv in H as (resHistory & w3 & Hloop & H).
  injection H as <- _.
  apply lift_inv in Htime as [Htime _].
  apply pushTimestampOfDataTx_inv in Htime as [time ->].
  apply getNameInfo_wallet_height in Hrec as [Hobj Hheight].
  apply export_history_loop_fields in Hloop as (hs & -> & Hall).
  exists time, hs. repeat split; trivial.
  - rewrite find_value_pushKV_other by discriminate.
    now apply find_value_pushKV_object.
  - now rewrite !find_value_pushKV_other by discriminate.
  - apply find_value_pushKV_object. now rewrite type_pushKV.
Qed.

Lemma export_record_fields_witness :
  exists r,
    fst (export_record chain_archive_node (VOBJ []) None "d/a" (Demo.rec 100)
           Demo.world0) = inr r
    /\ exists time hs,
         find_value r "last_updated" = VNUM time
         /\ find_value r "height" = VNUM 100
         /\ find_value r "history" = VARR hs
         /\ Forall2 (fun entry h =>
                       (exists time, find_value h "time" = VNUM time)
                       /\ find_value h "height" = VNUM (getHeight entry))
              [Demo.rec 40; Demo.rec 70] hs.
Proof.
  eexists. split; [vm_compute; reflexivity|].
  eapply (export_record_fields chain_archive_node (VOBJ []) None "d/a"
            (Demo.rec 100) Demo.world0).
  vm_compute. reflexivity.
Defined.

(** X18: an export with history, into a destination that can be opened and
    whose device takes every write, writes one record for each matching
    name, in the order of the database and up to the count, when every one
    of these records can be built: the file then holds the array of the
    records, separated by commas, and the answer tells their number. *)
Theorem name_export_lists_records (env : Env) (request : JSONRPCRequest)
  (w w1 : World) (a : ExportArgs) (records : list UniValue) :
  RPCHelpMan_Check "name_export" 2 3 request = inr tt ->
  RPCTypeCheck (params request) [TSTR; TSTR; TOBJ] false = inr tt ->
  IsInitialBlockDownload env = false ->
  export_arguments env request w = (inr a, w1) ->
  withHistory a = true ->
  can_open env (path a) = true ->
  takes_all env (path a) ->
  Z.of_nat (List.length (names env)) <= INT_MAX ->
  map (export_element env (ex_options a)) (exported_entries env a)
  = map inr records ->
  exists w',
    name_export env request w
    = (inr (VSTR (found_message (Z.of_nat (List.length records))
                    (regexpStr a))), w')
    /\ file_get (w_files w') (path a)
       = Some ("[" ^^ endl ^^ join "," (map (write env) records)
               ^^ endl ^^ "]").
Proof.
  intros HC HT HI Ha Hh Hopen Htake Hlen Hrec.
  rewrite (name_export_accepted env request w a w1 HC HT HI Ha).
  now apply export_names_records.
Qed.

Lemma name_export_lists_records_witness :
  exists w',
    name_export chain_node history_request Demo.world0
    = (inr (VSTR (found_message 3 "d/")), w')
    /\ file_get (w_files w') "/tmp/names.json"
       = Some ("[" ^^ endl ^^ "{},{},{}" ^^ endl ^^ "]").
Proof.
  pose (records :=
          map (fun e =>
                 match export_element chain_node (ex_options history_args) e
                 with
                 | inr r => r
                 | inl _ => VNULL
                 end) (exported_entries chain_node history_args)).
  apply (name_export_lists_records chain_node history_request Demo.world0
           Demo.world0 history_args records
           eq_refl eq_refl eq_refl eq_refl eq_refl eq_refl
           (fun _ _ => eq_refl)).
  - vm_compute. discriminate.
  - vm_compute. reflexivity.
Defined.

(** ** name_pending *)

Lemma pure_getNameInfo env options name value outp addr :
  pure_result (getNameInfo env options name value outp addr).
Proof.
  unfold getNameInfo.
  repeat (apply pure_bind; [auto using pure_EncodingFromOptionsJson with pure
                           |intros ?]);
    auto with pure.
Qed.

Lemma pure_pending_outputs env parse options pwallet hasNameFilter nameFilter
  tx outputs :
  forall n arr,
    pure_result (pending_outputs env parse options pwallet hasNameFilter
                   nameFilter tx outputs n arr).
Proof.
  induction outputs as [|s rest IH]; intros n arr; cbn [pending_outputs];
    auto with pure.
  destruct (negb (isNameOp (parse s)) || negb (isAnyUpdate (parse s)));
    [apply IH|].
  destruct (hasNameFilter
            && negb (String.eqb (getOpName (parse s)) nameFilter));
    [apply IH|].
  apply pure_bind; [apply pure_getNameInfo|intros obj].
  destruct (getNameOp (parse s)); auto with pure.
Qed.

Lemma pure_pending_loop env mempool parse options pwallet hasNameFilter
  nameFilter txHashes :
  forall arr,
    pure_result (pending_loop env mempool parse options pwallet hasNameFilter
                   nameFilter txHashes arr).
Proof.
  induction txHashes as [|h rest IH]; intros arr; cbn [pending_loop];
    auto with pure.
  destruct (get mempool h) as [tx|]; [|apply IH].
  destruct (IsNamecoin tx); cbn [negb]; [|apply IH].
  apply pure_bind; [apply pure_pending_outputs|intros arr'; apply IH].
Qed.

Lemma pending_outputs_collect env parse options hasNameFilter nameFilter tx
  outputs :
  forall n arr w,
    fst (pending_outputs env parse options (wallet env) hasNameFilter
           nameFilter tx outputs n (VARR arr) w)
    = array_of (collect (map (pending_record env options)
                           (filter (wanted hasNameFilter nameFilter)
                              (updates_from parse tx outputs n))) arr).
Proof.
  induction outputs as [|s rest IH]; intros n arr w;
    cbn [pending_outputs updates_from]; trivial.
  destruct (isNameOp (parse s)) eqn:Hname; cbn [negb orb andb]; [|apply IH].
  destruct (isAnyUpdate (parse s)) eqn:Hupdate; cbn [negb orb]; [|apply IH].
  cbn [filter]. unfold wanted at 1, update_op at 1. cbn [snd].
  destruct hasNameFilter; cbn [negb orb andb].
  - destruct (String.eqb (getOpName (parse s)) nameFilter); cbn [negb];
      [|apply IH].
    cbn [map collect]. unfold pending_record at 1.
    unfold update_op, update_tx, update_output. cbn [fst snd].
    rewrite fst_bind
      by (intros obj; destruct (getNameOp (parse s)); auto with pure;
          apply pure_pending_outputs).
    rewrite (pure_getNameInfo env options _ _ _ _ w initial_world).
    destruct (fst (getNameInfo env options _ _ _ _ initial_world))
      as [e|obj]; [reflexivity|].
    unfold op_label, isAnyUpdate in *.
    destruct (getNameOp (parse s)); try discriminate; cbn [push_back collect];
      apply IH.
  - cbn [map collect]. unfold pending_record at 1.
    unfold update_op, update_tx, update_output. cbn [fst snd].
    rewrite fst_bind
      by (intros obj; destruct (getNameOp (parse s)); auto with pure;
          apply pure_pending_outputs).
    rewrite (pure_getNameInfo env options _ _ _ _ w initial_world).
    destruct (fst (getNameInfo env options _ _ _ _ initial_world))
      as [e|obj]; [reflexivity|].
    unfold op_label, isAnyUpdate in *.
    destruct (getNameOp (parse s)); try discriminate; cbn [push_back collect];
      apply IH.
Qed.

Lemma filter_flat_map {A B} (p : B -> bool) (g : A -> list B) l :
  filter p (flat_map g l) = flat_map (fun a => filter p (g a)) l.
Proof.
  induction l as [|a l IH]; simpl; trivial.
  now rewrite filter_app, IH.
Qed.

Lemma pending_loop_collect env mempool parse options hasNameFilter nameFilter
  txHashes :
  forall arr w,
    fst (pending_loop env mempool parse options (wallet env) hasNameFilter
           nameFilter txHashes (VARR arr) w)
    = array_of
        (collect
           (map (pending_record env options)
              (flat_map
                 (fun txHash =>
                    filter (wanted hasNameFilter nameFilter)
                      match get mempool txHash with
                      | Some tx =>
                          if IsNamecoin tx
                          then updates_from parse tx (vout tx) 0
                          else []
                      | None => []
                      end) txHashes)) arr).
Proof.
  induction txHashes as [|h rest IH]; intros arr w;
    cbn [pending_loop flat_map]; trivial.
  rewrite map_app, collect_app.
  destruct (get mempool h) as [tx|]; [|apply IH].
  destruct (IsNamecoin tx); cbn [negb]; [|apply IH].
  rewrite fst_bind by (intros arr'; apply pure_pending_loop).
  rewrite pending_outputs_collect.
  destruct (collect _ arr) as [e|arr']; [reflexivity|]. apply IH.
Qed.

Lemma name_pending_collect env mempool parse request w options nameFilter :
  RPCHelpMan_Check "name_pending" 0 2 request = inr tt ->
  RPCTypeCheck (params request) [TSTR; TOBJ] true = inr tt ->
  fst (options_at request 1 w) = inr options ->
  fst (pending_filter env request options w) = inr nameFilter ->
  fst (name_pending env mempool parse request w)
  = array_of
      (collect
         (map (pending_record env options)
            (filter (wanted (negb (isNull (param request 0))) nameFilter)
               (pending_updates mempool parse))) []).
Proof.
  intros HC HT Ho Hf. unfold name_pending.
  rewrite HC, HT, !bind_lift.
  assert (Hpure : forall options' nameFilter',
            pure_result
              (pending_loop env mempool parse options' (wallet env)
                 (negb (isNull (param request 0))) nameFilter'
                 (queryHashes mempool) (VARR []))).
  { intros. apply pure_pending_loop. }
  assert (Hfilter : forall options',
            pure_result (pending_filter env request options')).
  { intros. unfold pending_filter.
    apply pure_if; auto using pure_DecodeNameFromRPCOrThrow with pure. }
  rewrite fst_bind.
  2:{ intros options'. apply pure_bind; [apply Hfilter|intros; apply Hpure]. }
  rewrite Ho.
  change (if negb (isNull (param request 0))
          then DecodeNameFromRPCOrThrow env (param request 0) options
          else ret EmptyString)
    with (pending_filter env request options).
  rewrite fst_bind by (intros; apply Hpure).
  rewrite Hf, pending_loop_collect.
  unfold pending_updates. now rewrite filter_flat_map.
Qed.

Lemma updates_from_any parse tx outputs :
  forall n,
    Forall (fun u => isAnyUpdate (update_op u) = true)
      (updates_from parse tx outputs n).
Proof.
  induction outputs as [|s rest IH]; intros n; cbn [updates_from];
    [constructor|].
  destruct (isNameOp (parse s)); cbn [andb]; [|apply IH].
  destruct (isAnyUpdate (parse s)) eqn:Hupdate; [|apply IH].
  constructor; [exact Hupdate|apply IH].
Qed.

Lemma pending_updates_any mempool parse :
  Forall (fun u => isAnyUpdate (update_op u) = true)
    (pending_updates mempool parse).
Proof.
  unfold pending_updates.
  induction (queryHashes mempool) as [|h rest IH]; cbn [flat_map];
    [constructor|].
  apply Forall_app. split; [|exact IH].
  destruct (get mempool h) as [tx|]; [|constructor].
  destruct (IsNamecoin tx); [apply updates_from_any|constructor].
Qed.

Lemma getNameInfo_accepts env options name value outp addr w :
  encoding_option_ok options "nameEncoding" ->
  encoding_option_ok options "valueEncoding" ->
  exists obj w', getNameInfo env options name value outp addr w = (inr obj, w').
Proof.
  intros Hn Hv. unfold getNameInfo.
  destruct (EncodingFromOptionsJson_accepts options "nameEncoding"
              (ConfiguredNameEncoding env) w Hn) as (ne & wn & Hne).
  destruct (EncodingFromOptionsJson_accepts options "valueEncoding"
              (ConfiguredValueEncoding env) wn Hv) as (ve & wv & Hve).
  do 2 eexists.
  erewrite bind_inr by exact Hne.
  erewrite bind_inr by exact Hve.
  reflexivity.
Qed.

Lemma pending_record_describes env options u r :
  isAnyUpdate (update_op u) = true ->
  pending_record env options u = inr r ->
  describes env u r.
Proof.
  unfold pending_record, describes, isAnyUpdate, op_label.
  destruct u as [[tx n] op]. unfold update_op, update_tx, update_output.
  cbn [fst snd]. intros Hupdate H.
  destruct (getNameInfo env options (getOpName op) (getOpValue op) _ _
              initial_world) as [[e|obj] w'] eqn:Hinfo; [discriminate|].
  cbn [fst] in H. injection H as <-.
  unfold getNameInfo in Hinfo.
  apply bind_inv in Hinfo as (nameEnc & wn & _ & Hinfo).
  apply bind_inv in Hinfo as (valueEnc & wv & _ & Hinfo).
  injection Hinfo as <- _.
  unfold AddEncodedNameToUniv, addOwnershipInfo.
  destruct (EncodeName env (getOpName op) nameEnc),
    (EncodeName env (getOpValue op) valueEnc), (wallet env),
    (getNameOp op); try discriminate; cbn; repeat split; auto.
Qed.

Lemma Forall2_describes env options us :
  forall records,
    Forall (fun u => isAnyUpdate (update_op u) = true) us ->
    map (pending_record env options) us = map inr records ->
    Forall2 (describes env) us records.
Proof.
  induction us as [|u us IH]; intros [|r records] Hany H;
    try discriminate; constructor.
  - apply (pending_record_describes env options).
    + now inversion Hany.
    + simpl in H. now injection H.
  - apply IH; [now inversion Hany|]. simpl in H. now injection H.
Qed.

Lemma Forall_kept {A} (P : A -> Prop) (p : A -> bool) l :
  Forall P l -> Forall P (filter p l).
Proof.
  induction 1 as [|a l Ha Hl IH]; simpl; [constructor|].
  destruct (p a); [constructor|]; trivial.
Qed.

Lemma map_accepts {A} (g : A -> Result UniValue) l :
  (forall a, exists r, g a = inr r) ->
  exists records, map g l = map inr records.
Proof.
  intros Hg. induction l as [|a l [records IH]]; [now exists []|].
  destruct (Hg a) as [r Hr]. exists (r :: records). simpl. now rewrite Hr, IH.
Qed.

(** X19: for encoding options that are absent or strings, [name_pending]
    answers with one record for each name registration and each name update
    in the outputs of the Namecoin transactions of the mempool, in the order
    of the hashes and of the outputs, restricted to the name of the request
    when it names one.  Each record tells the kind of the operation and the
    transaction and output that carry it, and has no height and no
    expiration.  The state of the block download plays no part. *)
Theorem name_pending_lists_updates (env : Env) (mempool : CTxMemPool)
  (parse : CScript -> CNameScript) (request : JSONRPCRequest) (w : World)
  (options : UniValue) (nameFilter : valtype) :
  RPCHelpMan_Check "name_pending" 0 2 request = inr tt ->
  RPCTypeCheck (params request) [TSTR; TOBJ] true = inr tt ->
  fst (options_at request 1 w) = inr options ->
  encoding_option_ok options "nameEncoding" ->
  encoding_option_ok options "valueEncoding" ->
  fst (pending_filter env request options w) = inr nameFilter ->
  exists records,
    fst (name_pending env mempool parse request w) = inr (VARR records)
    /\ Forall2 (describes env)
         (filter (wanted (negb (isNull (param request 0))) nameFilter)
            (pending_updates mempool parse)) records.
Proof.
  intros HC HT Ho Hn Hv Hf.
  rewrite (name_pending_collect env mempool parse request w options nameFilter
             HC HT Ho Hf).
  set (listed := filter _ (pending_updates mempool parse)).
  destruct (map_accepts (pending_record env options) listed)
    as [records Hrecords].
  { intros u. unfold pending_record.
    destruct (getNameInfo_accepts env options (getOpName (update_op u))
                (getOpValue (update_op u))
                (mkOutPoint (GetTxHash (update_tx u))
                   (Z.of_nat (update_output u) mod 2 ^ 32))
                (getOpAddress (update_op u)) initial_world Hn Hv)
      as (obj & w' & Hobj).
    rewrite Hobj. now eexists. }
  exists records. split.
  - now rewrite Hrecords, collect_values.
  - apply (Forall2_describes env options); [|exact Hrecords].
    apply Forall_kept, pending_updates_any.
Qed.

Lemma name_pending_lists_updates_witness :
  exists records,
    fst (name_pending Demo.node demo_mempool demo_parse
           (mkRequest false []) Demo.world0) = inr (VARR records)
    /\ Forall2 (describes Demo.node)
         [(mkMempoolTx 21%N true ["new"; "first"], 1%nat, demo_parse "first");
          (mkMempoolTx 23%N true ["pay"; "update"], 1%nat,
           demo_parse "update")]
         records.
Proof.
  apply (name_pending_lists_updates Demo.node demo_mempool demo_parse
           (mkRequest false []) Demo.world0 (VOBJ []) EmptyString
           eq_refl eq_refl eq_refl).
  - left. reflexivity.
  - left. reflexivity.
  - reflexivity.
Defined.

(** ** name_show and name_scan together *)

Lemma name_show_request env s kvs w :
  IsInitialBlockDownload env = false ->
  fst (name_show env (mkRequest false [VSTR s; VOBJ kvs]) w)
  = match name_encoding env (VOBJ kvs) with
    | inl e => inl e
    | inr enc =>
        match DecodeName env s enc with
        | None =>
            inl (JSONRPCError RPC_NAME_INVALID_ENCODING
                   ("Name/value is invalid for encoding "
                    ^^ EncodingToString enc))
        | Some name =>
            match GetName env name with
            | None => inl (name_not_found env name)
            | Some data => info env (VOBJ kvs) (name, data)
            end
        end
    end.
Proof.
  intros HI. unfold name_show, options_at, params_size, param, IBD_check,
    name_encoding.
  cbn [params nth List.length Nat.ltb Nat.leb fHelp]. rewrite HI.
  change (RPCHelpMan_Check "name_show" 1 2
            (mkRequest false [VSTR s; VOBJ kvs]))
    with (@inr Exception unit tt).
  change (RPCTypeCheck [VSTR s; VOBJ kvs] [TSTR; TOBJ] false)
    with (@inr Exception unit tt).
  rewrite !bind_lift. simpl when_. rewrite bind_ret.
  unfold get_obj. rewrite bind_lift.
  assert (Hrest : forall name,
             pure_result
               (match GetName env name with
                | None => throw (name_not_found env name)
                | Some data =>
                    getNameInfo_wallet env (VOBJ kvs) name data (wallet env)
                end)).
  { intros name. destruct (GetName env name);
      auto using pure_getNameInfo_wallet with pure. }
  rewrite fst_bind by exact Hrest.
  unfold DecodeNameFromRPCOrThrow, DecodeNameValueFromRPCOrThrow.
  rewrite fst_bind.
  2:{ intros enc. apply pure_bind; [auto with pure|intros str].
      destruct (DecodeName env str enc); auto with pure. }
  rewrite (pure_EncodingFromOptionsJson (VOBJ kvs) "nameEncoding" _ w
             initial_world).
  destruct (fst (EncodingFromOptionsJson (VOBJ kvs) "nameEncoding" _
                   initial_world)) as [e|enc]; [reflexivity|].
  rewrite bind_lift. simpl get_str. cbv iota.
  destruct (DecodeName env s enc) as [name|]; [|reflexivity].
  unfold ret at 1. cbn [fst].
  rewrite (Hrest name w initial_world).
  destruct (GetName env name); reflexivity.
Qed.

Lemma GetName_at env pre name data post :
  names env = pre ++ (name, data) :: post ->
  sorted_names env (names env) = true ->
  GetName env name = Some data.
Proof.
  unfold GetName. intros ->.
  induction pre as [|[name0 data0] pre IH];
    cbn [app find sorted_names fst]; intros H.
  - now rewrite String.eqb_refl.
  - apply andb_true_iff in H as [H Hrest].
    apply andb_true_iff in H as [Hirr Hall].
    rewrite forallb_app in Hall. apply andb_true_iff in Hall as [_ Hall].
    cbn [forallb fst] in Hall. apply andb_true_iff in Hall as [Hless _].
    match goal with
    | |- context [String.eqb ?a ?b] =>
        destruct (String.eqb_spec a b) as [Heq|Hne]
    end.
    + subst name0. rewrite Hless in Hirr. discriminate Hirr.
    + now apply IH.
Qed.

(** X20: [name_show] and [name_scan] agree.  On a sorted database, a scan
    without filters that starts at a name of the database and asks for one
    name answers with the one-element array of the record that [name_show]
    gives for this name with the same options, and fails as [name_show]
    fails. *)
Theorem name_scan_starts_at_shown_name (env : Env) (s : string)
  (kvs : list (string * UniValue)) (w : World) (enc : NameEncoding)
  (name : valtype) (data : CNameData) (pre post : list (valtype * CNameData)) :
  IsInitialBlockDownload env = false ->
  -1 <= Height env < INT_MAX ->
  (forall key, In key ["minConf"; "maxConf"; "prefix"; "regexp"] ->
               exists_ (VOBJ kvs) key = false) ->
  name_encoding env (VOBJ kvs) = inr enc ->
  DecodeName env s enc = Some name ->
  names env = pre ++ (name, data) :: post ->
  sorted_names env (names env) = true ->
  getHeight data <= Height env ->
  fst (name_scan env (scan_request s 1 (VOBJ kvs)) w)
  = match fst (name_show env (mkRequest false [VSTR s; VOBJ kvs]) w) with
    | inl e => inl e
    | inr r => inr (VARR [r])
    end.
Proof.
  intros HI HH Habsent Henc Hdec Hnames Hsorted Hheight.
  rewrite (name_show_request env s kvs w HI), Henc, Hdec.
  rewrite (GetName_at env pre name data post Hnames Hsorted).
  rewrite (name_scan_run env s 1 kvs w enc name no_filter HI Henc Hdec).
  - unfold selected. rewrite Hnames.
    rewrite Hnames in Hsorted.
    pose proof (seek_at env pre (name, data) post Hsorted) as Hseek.
    cbn [fst] in Hseek. rewrite Hseek.
    cbn [filter]. rewrite passes_no_filter by exact HH. cbn [snd].
    destruct (Z.leb_spec (getHeight data) (Height env)); [|lia].
    change (Z.to_nat 1) with 1%nat. cbn [firstn map collect].
    destruct (info env (VOBJ kvs) (name, data)); reflexivity.
  - unfold int_range, INT_MIN, INT_MAX. lia.
  - now rewrite scan_parse_options_plain.
Qed.

Lemma name_scan_starts_at_shown_name_witness :
  fst (name_scan Demo.node (scan_request "d/b" 1 (VOBJ [])) Demo.world0)
  = match fst (name_show Demo.node (mkRequest false [VSTR "d/b"; VOBJ []])
                 Demo.world0) with
    | inl e => inl e
    | inr r => inr (VARR [r])
    end.
Proof.
  apply (name_scan_starts_at_shown_name Demo.node "d/b" [] Demo.world0 ASCII
           "d/b" (Demo.rec 101) [("d/a", Demo.rec 100)]
           [("x/c", Demo.rec 102); ("d/abc", Demo.rec 100)]);
    try reflexivity.
  - vm_compute. split; [intros H; discriminate H|reflexivity].
  - vm_compute. intros H; discriminate H.
Defined.

(** ** Arguments *)

Lemma EncodingFromOptionsJson_chosen options field defaultValue enc w :
  chosen_encoding options field defaultValue enc ->
  EncodingFromOptionsJson options field defaultValue w = (inr enc, w).
Proof.
  intros [[Habs ->]|(str & Hstr & Henc)].
  - now apply EncodingFromOptionsJson_absent.
  - unfold EncodingFromOptionsJson.
    rewrite bind_lift. unfold RPCTypeCheckObj. rewrite map_of_single.
    simpl. rewrite Hstr. simpl.
    rewrite find_value_exists by (rewrite Hstr; discriminate).
    rewrite bind_lift. simpl. now rewrite Henc.
Qed.

Lemma DecodeNameValueFromRPCOrThrow_chosen env str opt optKey defaultEnc enc
  w :
  chosen_encoding opt optKey defaultEnc enc ->
  DecodeNameValueFromRPCOrThrow env (VSTR str) opt optKey defaultEnc w
  = (decode_with env (VSTR str) enc, w).
Proof.
  intros Henc. unfold DecodeNameValueFromRPCOrThrow, decode_with.
  rewrite (bind_inr _ _ _ _ _
             (EncodingFromOptionsJson_chosen opt optKey defaultEnc enc w
                Henc)).
  rewrite bind_lift. simpl get_str. cbv iota.
  now destruct (DecodeName env str enc).
Qed.

(** X21: a name or value argument is decoded in the encoding the request
    chooses with the option nameEncoding (for values: valueEncoding), the
    node's configured encoding when the option is absent.  A string that is
    invalid in this encoding is answered with the error
    RPC_NAME_INVALID_ENCODING, which names the encoding; nothing is
    logged. *)
Theorem decode_uses_chosen_encoding (env : Env) (str : string)
  (opt : UniValue) (enc : NameEncoding) (w : World) :
  (chosen_encoding opt "nameEncoding" (ConfiguredNameEncoding env) enc ->
   DecodeNameFromRPCOrThrow env (VSTR str) opt w
   = (match DecodeName env str enc with
      | Some name => inr name
      | None =>
          inl (JSONRPCError RPC_NAME_INVALID_ENCODING
                 ("Name/value is invalid for encoding "
                  ^^ EncodingToString enc))
      end, w)) /\
  (chosen_encoding opt "valueEncoding" (ConfiguredValueEncoding env) enc ->
   DecodeValueFromRPCOrThrow env (VSTR str) opt w
   = (match DecodeName env str enc with
      | Some value => inr value
      | None =>
          inl (JSONRPCError RPC_NAME_INVALID_ENCODING
                 ("Name/value is invalid for encoding "
                  ^^ EncodingToString enc))
      end, w)).
Proof.
  split; intros Henc.
  - unfold DecodeNameFromRPCOrThrow.
    now rewrite (DecodeNameValueFromRPCOrThrow_chosen env str opt
                   "nameEncoding" _ enc w Henc).
  - unfold DecodeValueFromRPCOrThrow.
    now rewrite (DecodeNameValueFromRPCOrThrow_chosen env str opt
                   "valueEncoding" _ enc w Henc).
Qed.

Lemma decode_uses_chosen_encoding_witness :
  DecodeNameFromRPCOrThrow Demo.node (VSTR "d/a")
    (VOBJ [("nameEncoding", VSTR "hex")]) Demo.world0
  = (inr "d/a", Demo.world0).
Proof.
  apply (proj1 (decode_uses_chosen_encoding Demo.node "d/a"
                  (VOBJ [("nameEncoding", VSTR "hex")]) HEX Demo.world0)).
  right. exists "hex". split; reflexivity.
Defined.

(** ** Transactions as JSON *)

(** X22: what [TxToJSON] adds to the object of [TxToUniv] for a transaction
    found in a known block within the chain height: the hash of the block;
    for a block of the active chain the number of confirmations, counted
    from one for the tip, and the time of the block as time and blocktime;
    for an abandoned block zero confirmations, and no time.  The other keys
    stay as [TxToUniv] wrote them. *)
Theorem TxToJSON_chain_context (env : Env) (tx : CTransaction)
  (hashBlock : uint256) (entry : UniValue) (pindex : CBlockIndex) :
  type (TxToUniv env tx entry) = TOBJ ->
  IsNull hashBlock = false ->
  LookupBlockIndex env hashBlock = Some pindex ->
  0 <= nHeight pindex <= Height env ->
  Height env < INT_MAX ->
  let res := TxToJSON env tx hashBlock entry in
  find_value res "blockhash" = VSTR (GetHex env hashBlock)
  /\ (if in_active_chain pindex
      then find_value res "confirmations"
           = VNUM (Height env - nHeight pindex + 1)
           /\ find_value res "time" = VNUM (GetBlockTime pindex)
           /\ find_value res "blocktime" = VNUM (GetBlockTime pindex)
      else find_value res "confirmations" = VNUM 0
           /\ find_value res "time"
              = find_value (TxToUniv env tx entry) "time")
  /\ forall key,
       ~ In key ["blockhash"; "confirmations"; "time"; "blocktime"] ->
       find_value res key = find_value (TxToUniv env tx entry) key.
Proof.
  intros Hobj Hnull Hblock Hheight Hmax res. subst res. unfold TxToJSON.
  rewrite Hnull, Hblock. cbn [negb].
  assert (Hconf : int_sub (int_add 1 (Height env)) (nHeight pindex)
                  = Height env - nHeight pindex + 1).
  { unfold int_sub, int_add.
    rewrite (wrap_int_id (1 + Height env))
      by (unfold int_range, INT_MIN, INT_MAX in *; lia).
    rewrite wrap_int_id by (unfold int_range, INT_MIN, INT_MAX in *; lia).
    lia. }
  destruct (in_active_chain pindex); repeat split.
  - rewrite !find_value_pushKV_other by discriminate.
    now apply find_value_pushKV_object.
  - rewrite !find_value_pushKV_other by discriminate.
    rewrite find_value_pushKV_object by now rewrite !type_pushKV.
    now rewrite Hconf.
  - rewrite find_value_pushKV_other by discriminate.
    apply find_value_pushKV_object. now rewrite !type_pushKV.
  - apply find_value_pushKV_object. now rewrite !type_pushKV.
  - intros key Hkey. rewrite !find_value_pushKV_other; trivial;
      intros <-; apply Hkey; simpl; tauto.
  - rewrite find_value_pushKV_other by discriminate.
    now apply find_value_pushKV_object.
  - apply find_value_pushKV_object. now rewrite type_pushKV.
  - now rewrite !find_value_pushKV_other by discriminate.
  - intros key Hkey. rewrite !find_value_pushKV_other; trivial;
      intros <-; apply Hkey; simpl; tauto.
Qed.

Lemma TxToJSON_chain_context_witness :
  let res := TxToJSON chain_node (mkTx 7%N) 9%N (VOBJ []) in
  find_value res "confirmations" = VNUM 6
  /\ find_value res "time" = VNUM 1600000000.
Proof.
  destruct (TxToJSON_chain_context chain_node (mkTx 7%N) 9%N (VOBJ [])
              (mkBlockIndex 100 1600000000 true) eq_refl eq_refl eq_refl)
    as (_ & (Hconf & Htime & _) & _).
  - vm_compute. split; intros H; discriminate H.
  - reflexivity.
  - split; [exact Hconf|exact Htime].
Defined.

(** ** Requests without arguments or with a bad pattern *)

(** X23: a scan request without arguments scans from the empty name, for 500
    names, without filter and with the configured encodings: it answers
    with the records of the first 500 entries of the database, from the
    first name not below the empty name, that were confirmed at or below
    the chain height. *)
Theorem name_scan_defaults (env : Env) (w : World) :
  IsInitialBlockDownload env = false ->
  -1 <= Height env < INT_MAX ->
  fst (name_scan env (mkRequest false []) w)
  = array_of
      (collect
         (map (info env (VOBJ []))
            (firstn 500
               (filter (fun e => getHeight (snd e) <=? Height env)
                  (seek env EmptyString (names env))))) []).
Proof.
  intros HI HH.
  assert (Hrun : name_scan env (mkRequest false []) w
                 = scan_names env (VOBJ []) EmptyString 500 no_filter w).
  { unfold name_scan, options_at, params_size, param, IBD_check.
    cbn [params nth List.length Nat.ltb Nat.leb fHelp]. rewrite HI.
    change (RPCHelpMan_Check "name_scan" 0 3 (mkRequest false []))
      with (@inr Exception unit tt).
    change (RPCTypeCheck [] [TSTR; TNUM; TOBJ] false)
      with (@inr Exception unit tt).
    rewrite !bind_lift. simpl when_. rewrite !bind_ret.
    rewrite (bind_inr _ _ _ _ _
               (scan_parse_options_plain env (VOBJ []) w HH
                  (fun key _ => eq_refl))).
    reflexivity. }
  rewrite Hrun, scan_names_collect by (unfold INT_MAX; lia).
  unfold selected. change (Z.to_nat 500) with 500%nat.
  do 4 f_equal. apply filter_ext. intros e. now apply passes_no_filter.
Qed.

Lemma name_scan_defaults_witness :
  fst (name_scan Demo.node (mkRequest false []) Demo.world0)
  = array_of
      (collect (map (info Demo.node (VOBJ [])) Demo.db) []).
Proof.
  apply (name_scan_defaults Demo.node Demo.world0 eq_refl).
  vm_compute. split; [intros H; discriminate H|reflexivity].
Defined.

(** X24: an export whose pattern the regular expression library refuses
    ends with the error of the library before the destination is opened:
    the world stays as it was. *)
Theorem name_export_invalid_regexp (env : Env) (regexpStr path : string)
  (options : list (string * UniValue)) (w : World) :
  IsInitialBlockDownload env = false ->
  regex_valid env regexpStr = false ->
  name_export env (export_request regexpStr path options) w
  = (inl (regex_error regexpStr), w).
Proof.
  intros HI Hre.
  unfold name_export, export_request, IBD_check, export_arguments, options_at.
  rewrite HI. unfold bind, lift, when_, ret, throw.
  cbn -[String.append]. now rewrite Hre.
Qed.

Lemma name_export_invalid_regexp_witness :
  name_export Demo.node (export_request "(" "/tmp/names.json" [])
    Demo.world0
  = (inl (regex_error "("), Demo.world0).
Proof.
  apply (name_export_invalid_regexp Demo.node "(" "/tmp/names.json" []
           Demo.world0 eq_refl eq_refl).
Defined.

(** ** Help texts *)

Lemma documents_object help kvs :
  Forall (fun kv =>
            exists field,
              In field (result_inner help)
              /\ result_key field = fst kv
              /\ has_result_type (result_type field) (snd kv) = true) kvs ->
  documents help (VOBJ kvs).
Proof.
  intros Hall key. simpl.
  induction Hall as [|[k v] rest (field & Hin & Hkey & Hty) _ IH]; simpl;
    [discriminate|].
  destruct (String.eqb_spec k key) as [<-|Hne]; [|exact IH].
  intros _. now exists field.
Qed.

Ltac pick_field l :=
  match l with
  | ?field :: ?rest =>
      first
        [ exists field; split;
          [cbn; repeat (first [left; reflexivity|right])|split; reflexivity]
        | pick_field rest ]
  end.

Ltac documented :=
  apply documents_object;
  repeat (constructor;
          [match goal with
           | |- exists field, In field ?l /\ _ =>
               let l' := eval cbv in l in pick_field l'
           end|]);
  constructor.

(** X25: the help of the name queries describes their records.  Every key
    of a record built by [getNameInfo] for name data is a field that
    [NameInfoHelp] with expiration announces, and its value has the announced
    type; every key of a record of [name_pending] is announced in the help
    of [name_pending]. *)
Theorem name_record_documented (env : Env) (options : UniValue) :
  (forall name data pwallet w r w',
     getNameInfo_wallet env options name data pwallet w = (inr r, w') ->
     documents name_info_result r)
  /\ (forall u r,
        isAnyUpdate (update_op u) = true ->
        pending_record env options u = inr r ->
        documents name_pending_result r).
Proof.
  split.
  - intros name data pwallet w r w'.
    unfold getNameInfo_wallet, getNameInfo_data, getNameInfo. intros H.
    apply bind_inv in H as (r1 & w1 & H & Hown).
    apply bind_inv in H as (r0 & w0 & H & Hexp).
    apply bind_inv in H as (nameEnc & wn & _ & H).
    apply bind_inv in H as (valueEnc & wv & _ & H).
    injection H as <- _. injection Hexp as <- _. injection Hown as <- _.
    unfold AddEncodedNameToUniv, addExpirationInfo, addOwnershipInfo.
    destruct (EncodeName env name nameEnc),
      (EncodeName env (getValue data) valueEnc), pwallet;
      cbn; documented.
  - intros [[tx n] op]. unfold pending_record, isAnyUpdate, op_label.
    unfold update_op, update_tx, update_output. cbn [fst snd].
    intros r Hupdate H.
    destruct (getNameInfo env options (getOpName op) (getOpValue op) _ _
                initial_world) as [[e|obj] w'] eqn:Hinfo; [discriminate|].
    cbn [fst] in H. injection H as <-.
    unfold getNameInfo in Hinfo.
    apply bind_inv in Hinfo as (nameEnc & wn & _ & Hinfo).
    apply bind_inv in Hinfo as (valueEnc & wv & _ & Hinfo).
    injection Hinfo as <- _.
    unfold AddEncodedNameToUniv, addOwnershipInfo.
    destruct (EncodeName env (getOpName op) nameEnc),
      (EncodeName env (getOpValue op) valueEnc), (wallet env),
      (getNameOp op); try discriminate; cbn; documented.
Qed.

Lemma name_record_documented_witness :
  documents name_info_result
    (match fst (getNameInfo_wallet Demo.node (VOBJ []) "d/a" (Demo.rec 100)
                  None Demo.world0) with
     | inr r => r
     | inl _ => VNULL
     end).
Proof.
  apply (proj1 (name_record_documented Demo.node (VOBJ [])) "d/a"
           (Demo.rec 100) None Demo.world0 _ Demo.world0).
  reflexivity.
Defined.
